(** * Crawl dungeon-builder Lua interface (luadgn.cc): a shallow embedding

    The development follows [crawl-ref/source/luadgn.cc], with the
    declarations of [clua.h] and [mapdef.h] it relies on.

    Part I, the embedding:
    - [CxxString]: the [std::string] members the code calls.
    - [CInt]: C [int] arithmetic, [atoi] and the ["%d"] conversion.
    - [Libutil], [Files]: helpers of the repository that the translation
      unit only calls.
    - [Lua]: the interface of the interpreter wrapper [CLua] as [dlua_chunk]
      uses it, and a recording interpreter for the examples.
    - [Chunk]: [dlua_chunk] and its member functions.
    - [Flood], [Dgn]: the flood-fill checker, the depth bindings and
      [dgn_points_connected].
    - [AddSpec], [ChunkSpec], [DepthSpec], [FloodSpec], [ConnectedSpec]:
      the vocabulary the properties are stated in.
    - [LuaScript]: an interpreter that answers from a script, for the
      examples of failing loads and dumps.
    - [RewriteSpec]: the vocabulary for lines around a chunk reference.
    - [Bindings]: [dlua_stringtable] and the bindings [dgn_weight],
      [dgn_place], [dgn_tags], [dgn_tags_remove], [dgn_map], [dgn_mons]
      and [dgn_item].

    Part II, the properties: facts about strings and numbers first, then
    one module per member function or binding; the modules from
    [PersistMore] on cover error paths, edge cases and compositions. *)

From Stdlib Require Import ZArith List Lia Bool Ascii String.
From Stdlib.Strings Require Import Byte.
Import ListNotations.

Local Open Scope list_scope.
Local Open Scope string_scope.
Local Open Scope Z_scope.

(* ================================================================== *)
(** * Part I: the embedding *)
(* ================================================================== *)

(** ** std::string *)

Module CxxString.

(** The double quote, the line feed and the terminating NUL. *)
Definition dquote : ascii := "034"%char.
Definition newline : ascii := "010"%char.
Definition nul : ascii := "000"%char.

(** [s.empty()] *)
Definition empty (s : string) : bool :=
  match s with
  | EmptyString => true
  | String _ _ => false
  end.

(** Whether [needle] is written at the start of [s]. *)
Fixpoint starts_with (needle s : string) : bool :=
  match needle, s with
  | EmptyString, _ => true
  | String _ _, EmptyString => false
  | String a needle', String b s' => Ascii.eqb a b && starts_with needle' s'
  end.

(** [s.find(needle)], searching the suffix [s] that starts at offset
    [pos] of the whole string; [std::string::npos] is [None]. *)
Fixpoint find_at (needle s : string) (pos : nat) : option nat :=
  if starts_with needle s then Some pos
  else match s with
       | EmptyString => None
       | String _ s' => find_at needle s' (S pos)
       end.

Definition find (needle s : string) : option nat := find_at needle s 0.

(** [s.substr(pos)]: the suffix from [pos] on.  The calls of luadgn.cc
    never pass [pos > s.size()], where the C++ member throws. *)
Fixpoint substr_from (pos : nat) (s : string) : string :=
  match pos, s with
  | O, _ => s
  | S p, String _ s' => substr_from p s'
  | S _, EmptyString => EmptyString
  end.

(** [s.substr(pos, n)] *)
Definition substr (pos n : nat) (s : string) : string :=
  String.substring pos n s.

(** [s.find(c, pos)] *)
Definition find_char (c : ascii) (s : string) (pos : nat) : option nat :=
  find_at (String c EmptyString) (substr_from pos s) pos.

(** [s.c_str()] as a callee that takes a [const char *] reads it: the
    characters before the first NUL. *)
Fixpoint c_str (s : string) : string :=
  match s with
  | EmptyString => EmptyString
  | String c s' => if Ascii.eqb c nul then EmptyString else String c (c_str s')
  end.

(** [n] copies of [c], as [n] executions of [s += c] append them. *)
Fixpoint replicate (n : nat) (c : ascii) : string :=
  match n with
  | O => EmptyString
  | S n' => String c (replicate n' c)
  end.

End CxxString.

(** ** C int *)

Module CInt.

Definition INT_MIN : Z := -2147483648.
Definition INT_MAX : Z := 2147483647.

Definition int_range (z : Z) : Prop := INT_MIN <= z <= INT_MAX.

(** Two's complement wrap-around of a 32-bit [int]. *)
Definition wrap_int (z : Z) : Z :=
  (z + 2147483648) mod 4294967296 - 2147483648.

Definition isspace (c : ascii) : bool :=
  match c with
  | " "%char | "009"%char | "010"%char | "011"%char | "012"%char
  | "013"%char => true
  | _ => false
  end.

(** The value of a decimal digit: the characters 48 to 57. *)
Definition digit_of (c : ascii) : option Z :=
  let code := Z.of_N (N_of_ascii c) in
  if (48 <=? code) && (code <=? 57) then Some (code - 48) else None.

Fixpoint skip_space (s : string) : string :=
  match s with
  | EmptyString => EmptyString
  | String c s' => if isspace c then skip_space s' else s
  end.

(** The digit loop of [atoi]: it stops at the first character that is
    not a decimal digit. *)
Fixpoint atoi_digits (s : string) (acc : Z) : Z :=
  match s with
  | EmptyString => acc
  | String c s' =>
      match digit_of c with
      | Some d => atoi_digits s' (10 * acc + d)
      | None => acc
      end
  end.

(** [atoi]: leading white space, an optional sign, then digits; a string
    with no digits converts to 0.  The C library leaves the result open
    when the number does not fit an [int]; the properties below are
    stated for texts whose number does, or do not depend on it. *)
Definition atoi (s : string) : Z :=
  match skip_space s with
  | String "-"%char s' => wrap_int (- atoi_digits s' 0)
  | String "+"%char s' => wrap_int (atoi_digits s' 0)
  | s' => wrap_int (atoi_digits s' 0)
  end.

Definition digit_char (d : Z) : ascii := ascii_of_N (Z.to_N (48 + d)).

(** The digits of [n >= 0], most significant first, written in front of
    [acc]; an [int] has at most ten of them. *)
Fixpoint decimal_digits (fuel : nat) (n : Z) (acc : string) : string :=
  match fuel with
  | O => acc
  | S f =>
      let acc' := String (digit_char (n mod 10)) acc in
      if n <? 10 then acc' else decimal_digits f (n / 10) acc'
  end.

(** The conversion ["%d"] of an [int]. *)
Definition format_d (z : Z) : string :=
  if z <? 0 then String "-"%char (decimal_digits 10 (- z) EmptyString)
  else decimal_digits 10 z EmptyString.

End CInt.

(** ** libutil *)

Module Libutil.
Import CxxString.

(** Modelled from the spec: the right half of [trimmed_string] below;
    it drops the white space at the end of [s]. *)
Fixpoint trim_right (s : string) : string :=
  match s with
  | EmptyString => EmptyString
  | String c s' =>
      match trim_right s' with
      | EmptyString => if CInt.isspace c then EmptyString
                       else String c EmptyString
      | t => String c t
      end
  end.

(** Modelled from the spec: [trimmed_string] (libutil) is called by
    [dlua_chunk::empty] but is not in this translation unit; it returns
    its argument without the white space at either end. *)
Definition trimmed_string (s : string) : string :=
  trim_right (CInt.skip_space s).

(** Modelled from the spec: the loop of [split_string] below, with the
    segment read so far in [cur]. *)
Fixpoint split_acc (sep : ascii) (s cur : string) : list string :=
  match s with
  | EmptyString => [cur]
  | String c s' =>
      if Ascii.eqb c sep then cur :: split_acc sep s' EmptyString
      else split_acc sep s' (cur ++ String c EmptyString)
  end.

(** Modelled from the spec: [split_string] (libutil) is not in this
    translation unit; it cuts [s] at every occurrence of the separator
    character, so a message is cut into its lines and a depth string
    into its comma-separated fragments.  An empty string has no
    segment. *)
Definition split_string (sep : ascii) (s : string) : list string :=
  match s with
  | EmptyString => []
  | _ => split_acc sep s EmptyString
  end.

(** Modelled from the spec: [make_stringf] (a printf into a
    [std::string]), at the one format luadgn.cc's chunk code uses. *)
Definition make_stringf_d (z : Z) : string := CInt.format_d z.

End Libutil.

(** ** files: the binary primitives *)

Module Files.

Definition byte_of_Z (z : Z) : byte :=
  match Byte.of_N (Z.to_N (z mod 256)) with
  | Some b => b
  | None => x00
  end.

Definition Z_of_byte (b : byte) : Z := Z.of_N (Byte.to_N b).

(** Modelled from the spec: [writeByte], [readByte], [writeLong],
    [readLong], [writeString] and [readString] (files) are not in this
    translation unit.  The spec gives the format: a tag of one byte, a
    string as its length followed by its bytes, "capped" at the cap the
    call passes, and the line offset as a signed 32-bit integer.  The
    stream is the list of bytes written so far, or still to be read; a
    read that finds the stream too short, or a string longer than the
    cap, fails.  The length is written like the 32-bit integer, most
    significant byte first. *)
Definition writeByte (b : Z) : list byte := [byte_of_Z b].

(** Modelled from the spec: [readByte], the reader of the tag byte. *)
Definition readByte (inf : list byte) : option (Z * list byte) :=
  match inf with
  | b :: rest => Some (Z_of_byte b, rest)
  | [] => None
  end.

(** Modelled from the spec: [writeLong], the writer of the "signed
    line-offset integer" (32 bits). *)
Definition writeLong (z : Z) : list byte :=
  [byte_of_Z (z / 16777216); byte_of_Z (z / 65536); byte_of_Z (z / 256);
   byte_of_Z z].

(** Modelled from the spec: [readLong], the reader of a 32-bit signed
    integer. *)
Definition readLong (inf : list byte) : option (Z * list byte) :=
  match inf with
  | b3 :: b2 :: b1 :: b0 :: rest =>
      Some (CInt.wrap_int
              (((Z_of_byte b3 * 256 + Z_of_byte b2) * 256 + Z_of_byte b1)
               * 256 + Z_of_byte b0),
            rest)
  | _ => None
  end.

(** Modelled from the spec: [writeString], the writer of a
    "length-capped string": the length, then at most [cap] bytes. *)
Definition writeString (s : string) (cap : Z) : list byte :=
  let body := firstn (Z.to_nat cap) (list_byte_of_string s) in
  (writeLong (Z.of_nat (List.length body)) ++ body)%list.

(** Modelled from the spec: [readString], the reader of a
    length-prefixed string of at most [cap] bytes. *)
Definition readString (inf : list byte) (cap : Z)
  : option (string * list byte) :=
  match readLong inf with
  | None => None
  | Some (n, rest) =>
      if (n <? 0) || (cap <? n) || (Z.of_nat (List.length rest) <? n)
      then None
      else Some (string_of_list_byte (firstn (Z.to_nat n) rest),
                 skipn (Z.to_nat n) rest)
  end.

End Files.

(** ** The interpreter wrapper, as dlua_chunk drives it *)

Module Lua.

(** [CLua] (clua.h) is an interface here: its member functions are
    defined in another translation unit, and the Lua library behind them
    is external.  [E] is the state of one wrapper with its interpreter;
    every operation returns the state it leaves.

    - [error]: the public member [CLua::error];
    - [loadbuffer buf size context], [loadstring str context]: the
      members of those names, with their [int] result;
    - [lua_dump]: the library call on the wrapper's [lua_State]; it
      hands the writer callback the pieces of the dump, in order;
    - [lua_tostring idx]: [None] for a NULL result;
    - [lua_pop n];
    - [callfn fn nargs nret], [fn = None] for a NULL name. *)
Class CLua (E : Type) : Type := {
  error : E -> string;
  loadbuffer : string -> nat -> string -> E -> E * Z;
  loadstring : string -> string -> E -> E * Z;
  lua_dump : E -> E * Z * list string;
  lua_tostring : Z -> E -> option string;
  lua_pop : Z -> E -> E;
  callfn : option string -> Z -> Z -> E -> E * bool
}.

(** An interpreter that records what it is asked to do and answers from
    a script: loading fails when the text is ["bad"], the dump of a
    loaded text is the text behind the bytes ["LUA"]. *)
Inductive event : Type :=
| EvLoadBuffer (buf : string) (size : nat) (context : string)
| EvLoadString (str : string) (context : string)
| EvDump
| EvPop (n : Z)
| EvCall (fn : option string) (nargs nret : Z).

Record recorder : Type := {
  rec_log : list event;
  rec_loaded : string;
  rec_error : string
}.

Definition recorder_init : recorder :=
  {| rec_log := []; rec_loaded := ""; rec_error := "" |}.

Definition rec_step (ev : event) (loaded err : string) (r : recorder)
  : recorder :=
  {| rec_log := (rec_log r ++ [ev])%list;
     rec_loaded := loaded;
     rec_error := err |}.

#[global] Instance recorder_CLua : CLua recorder := {
  error := rec_error;
  loadbuffer buf size context r :=
    (rec_step (EvLoadBuffer buf size context) buf "" r, 0);
  loadstring str context r :=
    if String.eqb str "bad"
    then (rec_step (EvLoadString str context) "" "syntax error" r, 3)
    else (rec_step (EvLoadString str context) str "" r, 0);
  lua_dump r :=
    (rec_step EvDump (rec_loaded r) (rec_error r) r, 0,
     ["LUA"; rec_loaded r]);
  lua_tostring _ r := Some (rec_error r);
  lua_pop n r := rec_step (EvPop n) (rec_loaded r) (rec_error r) r;
  callfn fn nargs nret r :=
    (rec_step (EvCall fn nargs nret) (rec_loaded r) "" r, true)
}.

End Lua.

(** ** dlua_chunk *)

Module Chunk.
Import CxxString.

(** The data members of [dlua_chunk]; [first] and [last] are [int]. *)
Record dlua_chunk : Type := {
  file : string;
  chunk : string;
  compiled : string;
  context : string;
  first : Z;
  last : Z;
  error : string
}.

Definition with_file (v : string) (c : dlua_chunk) : dlua_chunk :=
  {| file := v; chunk := chunk c; compiled := compiled c;
     context := context c; first := first c; last := last c;
     error := error c |}.

Definition with_chunk (v : string) (c : dlua_chunk) : dlua_chunk :=
  {| file := file c; chunk := v; compiled := compiled c;
     context := context c; first := first c; last := last c;
     error := error c |}.

Definition with_compiled (v : string) (c : dlua_chunk) : dlua_chunk :=
  {| file := file c; chunk := chunk c; compiled := v;
     context := context c; first := first c; last := last c;
     error := error c |}.

Definition with_first (v : Z) (c : dlua_chunk) : dlua_chunk :=
  {| file := file c; chunk := chunk c; compiled := compiled c;
     context := context c; first := v; last := last c;
     error := error c |}.

Definition with_last (v : Z) (c : dlua_chunk) : dlua_chunk :=
  {| file := file c; chunk := chunk c; compiled := compiled c;
     context := context c; first := first c; last := v;
     error := error c |}.

Definition with_error (v : string) (c : dlua_chunk) : dlua_chunk :=
  {| file := file c; chunk := chunk c; compiled := compiled c;
     context := context c; first := first c; last := last c;
     error := v |}.

(** [dlua_chunk::clear] *)
Definition clear (c : dlua_chunk) : dlua_chunk :=
  {| file := ""; chunk := ""; compiled := ""; context := context c;
     first := -1; last := -1; error := "" |}.

(** The constructor [dlua_chunk(_context)]. *)
Definition new_chunk (_context : string) : dlua_chunk :=
  clear {| file := ""; chunk := ""; compiled := ""; context := _context;
           first := -1; last := -1; error := "" |}.

(** [dlua_chunk::set_file] *)
Definition set_file (s : string) (c : dlua_chunk) : dlua_chunk :=
  with_file s c.

(** The loop [while (last++ < line) chunk += '\n';] on the pair
    ([last], [chunk]); the increment also happens when the test fails. *)
Fixpoint add_newlines (fuel : nat) (last line : Z) (chunk : string)
  : Z * string :=
  match fuel with
  | O => (last, chunk)
  | S f =>
      if last <? line
      then add_newlines f (CInt.wrap_int (last + 1)) line
                        (chunk ++ String newline "")
      else (CInt.wrap_int (last + 1), chunk)
  end.

(** [dlua_chunk::add] *)
Definition add (line : Z) (s : string) (c : dlua_chunk) : dlua_chunk :=
  let c1 := if first c =? -1 then with_first line c else c in
  let c2 :=
    if negb (line =? last c1) && negb (last c1 =? -1)
    then
      let '(last', chunk') :=
        add_newlines (S (Z.to_nat (line - last c1))) (last c1) line
                     (chunk c1) in
      with_chunk chunk' (with_last last' c1)
    else c1 in
  let c3 := with_chunk (chunk c2 ++ " ") c2 in
  let c4 := with_chunk (chunk c3 ++ s) c3 in
  with_last line c4.

(** [dlua_chunk::set_chunk] *)
Definition set_chunk (s : string) (c : dlua_chunk) : dlua_chunk :=
  with_chunk s c.

(** [dlua_chunk::empty] *)
Definition empty (c : dlua_chunk) : bool :=
  CxxString.empty (compiled c)
  && CxxString.empty (Libutil.trimmed_string (chunk c)).

(** [dlua_compiled_chunk_writer]: appends the piece to the stream behind
    [ud] and returns 0. *)
Definition dlua_compiled_chunk_writer (out p : string) : string * Z :=
  (out ++ p, 0).

Section WithInterpreter.
Context {E : Type} `{Lua.CLua E}.

(** [dlua_chunk::check_op] *)
Definition check_op (interp : E) (err : Z) (c : dlua_chunk)
  : dlua_chunk * Z :=
  (with_error (Lua.error interp) c, err).

(** [dlua_chunk::load] *)
Definition load (interp : E) (c : dlua_chunk) : dlua_chunk * E * Z :=
  if negb (CxxString.empty (compiled c)) then
    let '(interp1, r) :=
      Lua.loadbuffer (compiled c) (String.length (compiled c))
                     (c_str (context c)) interp in
    let '(c1, err) := check_op interp1 r c in
    (c1, interp1, err)
  else if empty c then
    (with_chunk "" c, interp, -1000)
  else
    let '(interp1, r) :=
      Lua.loadstring (c_str (chunk c)) (c_str (context c)) interp in
    let '(c1, err) := check_op interp1 r c in
    if negb (err =? 0) then (c1, interp1, err)
    else
      let '(interp2, err2, pieces) := Lua.lua_dump interp1 in
      let out :=
        fold_left (fun o p => fst (dlua_compiled_chunk_writer o p))
                  pieces "" in
      let '(c2, interp3) :=
        if negb (err2 =? 0) then
          let e := Lua.lua_tostring (-1) interp2 in
          (with_error (match e with
                       | Some m => m
                       | None => "Unknown error compiling chunk"
                       end) c1,
           Lua.lua_pop 2 interp2)
        else (c1, interp2) in
      (with_chunk "" (with_compiled out c2), interp3, err2).

(** [dlua_chunk::load_call] *)
Definition load_call (interp : E) (fn : option string) (c : dlua_chunk)
  : dlua_chunk * E * Z :=
  let '(c1, interp1, err) := load interp c in
  if err =? -1000 then (c1, interp1, 0)
  else if negb (err =? 0) then (c1, interp1, err)
  else
    let '(interp2, ok) :=
      Lua.callfn fn (match fn with Some _ => 1 | None => 0 end) 0
                 interp1 in
    let '(c2, r) := check_op interp2 (if ok then 0 else 1) c1 in
    (c2, interp2, r).

End WithInterpreter.

(** The marker the interpreter puts in front of a line number: the
    text [[string ], the context between double quotes, then []:]. *)
Definition contextm (c : dlua_chunk) : string :=
  "[string " ++ String dquote (context c ++ String dquote "]:").

(** [dlua_chunk::rewrite_chunk_prefix] *)
Definition rewrite_chunk_prefix (line : string) (c : dlua_chunk) : string :=
  let s := line in
  match find (contextm c) s with
  | None => s
  | Some ps =>
      let s1 :=
        match find_char ":" s (ps + String.length (contextm c)) with
        | Some pe =>
            let lns := (ps + String.length (contextm c))%nat in
            let line_num := substr lns (pe - lns) s in
            let lnum := CInt.atoi (c_str line_num) in
            substr 0 lns s
            ++ Libutil.make_stringf_d
                 (CInt.wrap_int (CInt.wrap_int (lnum + first c) - 1))
            ++ substr_from pe s
        | None => s
        end in
      substr 0 ps s1
      ++ (if CxxString.empty (file c) then context c else file c)
      ++ ":"
      ++ substr_from (ps + String.length (contextm c)) s1
  end.

(** [dlua_chunk::get_chunk_prefix] *)
Definition get_chunk_prefix (sorig : string) (c : dlua_chunk) : string :=
  let s := rewrite_chunk_prefix sorig c in
  match find_char ":" s 0 with
  | None => s
  | Some cpos =>
      match find_char ":" s (cpos + 1) with
      | None => s
      | Some cnpos => substr 0 cnpos s
      end
  end.

(** The body of the loop of [rewrite_chunk_errors] at the line [st], on
    the pair ([newmsg], [wrote_prefix]). *)
Definition rewrite_line (st : string) (c : dlua_chunk)
                        (acc : string * bool) : string * bool :=
  let '(newmsg, wrote_prefix) := acc in
  match find (context c) st with
  | Some _ =>
      if negb wrote_prefix
      then (get_chunk_prefix st c ++ ": " ++ newmsg, true)
      else (newmsg ++ (String newline "" ++ rewrite_chunk_prefix st c),
            wrote_prefix)
  | None => (newmsg, wrote_prefix)
  end.

(** [for (int i = ..., size = ...; i < size; ++i)] of
    [rewrite_chunk_errors], entered with the index [i]. *)
Fixpoint rewrite_lines (fuel : nat) (i size : Z) (lines : list string)
                       (c : dlua_chunk) (acc : string * bool)
  : string * bool :=
  match fuel with
  | O => acc
  | S f =>
      if i <? size
      then rewrite_lines f (i + 1) size lines c
             (rewrite_line (nth (Z.to_nat i) lines "") c acc)
      else acc
  end.

(** [dlua_chunk::rewrite_chunk_errors]: the result and the new value of
    the argument [s]. *)
Definition rewrite_chunk_errors (s : string) (c : dlua_chunk)
  : bool * string :=
  match find (contextm c) s with
  | None => (false, s)
  | Some O => (true, rewrite_chunk_prefix s c)
  | Some (S _) =>
      let lines := Libutil.split_string newline s in
      let newmsg := nth 0 lines "" in
      let size := Z.of_nat (List.length lines) - 1 in
      (true,
       fst (rewrite_lines (List.length lines) 2 size lines c
                          (newmsg, false)))
  end.

(** [dlua_chunk::orig_error]: it rewrites the member [error] in place
    and returns it. *)
Definition orig_error (c : dlua_chunk) : string * dlua_chunk :=
  let s := snd (rewrite_chunk_errors (error c) c) in
  (s, with_error s c).

(** Modelled from the spec: the enumerators of [chunk_t] (luadgn.h), the
    tag byte of the binary format, "Empty=0, Source=1, Compiled=2". *)
Definition CT_EMPTY : Z := 0.
Definition CT_SOURCE : Z := 1.
Definition CT_COMPILED : Z := 2.

Section Persistence.
(** [LUA_CHUNK_MAX_SIZE] (luadgn.h) and the cap [writeString] and
    [readString] take when a call passes none (files.h) are constants
    declared outside this translation unit. *)
Variable LUA_CHUNK_MAX_SIZE : Z.
Variable STRING_CAP : Z.

(** [dlua_chunk::write]: the bytes it appends to [outf]. *)
Definition write (c : dlua_chunk) : list byte :=
  if empty c then Files.writeByte CT_EMPTY
  else
    ((if negb (CxxString.empty (compiled c))
      then Files.writeByte CT_COMPILED
           ++ Files.writeString (compiled c) LUA_CHUNK_MAX_SIZE
      else Files.writeByte CT_SOURCE
           ++ Files.writeString (chunk c) LUA_CHUNK_MAX_SIZE)
     ++ Files.writeString (file c) STRING_CAP
     ++ Files.writeLong (first c))%list.

(** [dlua_chunk::read]: the chunk as read and the rest of [inf];
    [None] when a primitive fails.  A tag that is none of the three
    enumerators falls through the [switch]. *)
Definition read (inf : list byte) (c : dlua_chunk)
  : option (dlua_chunk * list byte) :=
  let c0 := clear c in
  match Files.readByte inf with
  | None => None
  | Some (type, inf1) =>
      if type =? CT_EMPTY then Some (c0, inf1)
      else
        let payload :=
          if type =? CT_SOURCE then
            match Files.readString inf1 LUA_CHUNK_MAX_SIZE with
            | Some (s, r) => Some (with_chunk s c0, r)
            | None => None
            end
          else if type =? CT_COMPILED then
            match Files.readString inf1 LUA_CHUNK_MAX_SIZE with
            | Some (s, r) => Some (with_compiled s c0, r)
            | None => None
            end
          else Some (c0, inf1) in
        match payload with
        | None => None
        | Some (c1, inf2) =>
            match Files.readString inf2 STRING_CAP with
            | None => None
            | Some (f, inf3) =>
                match Files.readLong inf3 with
                | None => None
                | Some (n, inf4) =>
                    Some (with_first n (with_file f c1), inf4)
                end
            end
        end
  end.

End Persistence.

End Chunk.

(** ** The flood-fill connectivity checker *)

Module Flood.

(** [coord_def] (externs.h): a grid position. *)
Record coord_def : Type := mk_coord { x : Z; y : Z }.

Definition coord_eqb (a b : coord_def) : bool :=
  (x a =? x b) && (y a =? y b).

Fixpoint mem (c : coord_def) (l : list coord_def) : bool :=
  match l with
  | [] => false
  | d :: r => coord_eqb c d || mem c r
  end.

Fixpoint dedup (l : list coord_def) : list coord_def :=
  match l with
  | [] => []
  | c :: r => if mem c r then dedup r else c :: dedup r
  end.

(** Modelled from the spec: the two neighbour policies, "the four (or
    eight, per policy)" neighbours of a position. *)
Definition four_dirs : list (Z * Z) :=
  [(0, -1); (-1, 0); (1, 0); (0, 1)].

(** Modelled from the spec: the eight-neighbour policy. *)
Definition eight_dirs : list (Z * Z) :=
  [(-1, -1); (0, -1); (1, -1); (-1, 0); (1, 0); (-1, 1); (0, 1); (1, 1)].

(** Modelled from the spec: [flood_find<fgrd, bound_check>] is declared
    in a header that is not among the sources; of its state, the
    "caller-supplied set of seed coordinates". *)
Record flood_find : Type := { needed_points : list coord_def }.

(** Modelled from the spec: a finder as constructed, with no seed. *)
Definition new_finder : flood_find := {| needed_points := [] |}.

(** Modelled from the spec: [flood_find::add_point] adds a seed. *)
Definition add_point (c : coord_def) (f : flood_find) : flood_find :=
  {| needed_points := (needed_points f ++ [c])%list |}.

Section FloodFind.
(** The two collaborators of the checker, the neighbour policy, and the
    number of cells of the largest grid it is run on. *)
Variable fgrd : coord_def -> bool.
Variable bound_check : coord_def -> bool.
Variable dirs : list (Z * Z).
Variable max_cells : nat.

(** Modelled from the spec: a position the search may enter is within
    bounds and traversable. *)
Definition passable (c : coord_def) : bool := bound_check c && fgrd c.

(** Modelled from the spec: the neighbours of a position under the
    policy [dirs]. *)
Definition neighbours (c : coord_def) : list coord_def :=
  map (fun d => mk_coord (x c + fst d) (y c + snd d)) dirs.

(** Modelled from the spec: the next layer of the breadth-first search,
    the passable neighbours of the frontier that have not been visited,
    each once. *)
Definition expand (frontier visited : list coord_def) : list coord_def :=
  dedup (filter (fun c => passable c && negb (mem c visited))
                (flat_map neighbours frontier)).

(** Modelled from the spec: [flood_find::points_connected_from] is
    declared in a header that is not among the sources.  The spec
    describes a "breadth-first search from a caller-supplied set of seed
    coordinates, expanding to the four (or eight, per policy) orthogonal
    neighbors, visiting each coordinate at most once, short-circuiting as
    soon as every seed has been subsumed into one connected component
    including a designated test point, or until the frontier is
    exhausted", never "crossing non-traversable cells" or "leaving
    bounds". *)
Fixpoint search (needed : list coord_def) (fuel : nat)
                (frontier visited : list coord_def) : bool :=
  if forallb (fun p => mem p visited) needed then true
  else
    match fuel with
    | O => false
    | S f =>
        match frontier with
        | [] => false
        | _ :: _ =>
            let next := expand frontier visited in
            search needed f next (next ++ visited)%list
        end
    end.

(** Modelled from the spec: [flood_find::points_connected_from], the
    search above from the start [sp], which it enters only if [sp] is
    itself within bounds and traversable; the fuel covers a visit of
    every cell. *)
Definition points_connected_from (sp : coord_def) (f : flood_find) : bool :=
  let init := if passable sp then [sp] else [] in
  search (needed_points f) (S max_cells) init init.

End FloodFind.

End Flood.

(** ** The dgn bindings *)

Module Dgn.
Import CxxString.

(** What the bindings read off the Lua stack: nil, a string, a number (an
    [int] here) or the userdata of a map. *)
Inductive lua_value : Type :=
| LNil
| LString (s : string)
| LNumber (n : Z)
| LMap.

(** The arguments of a call; index 1 is the first. *)
Definition lua_stack : Type := list lua_value.

Definition lua_gettop (ls : lua_stack) : Z := Z.of_nat (List.length ls).

Definition lua_index (ls : lua_stack) (i : Z) : option lua_value :=
  if i <? 1 then None else nth_error ls (Z.to_nat (i - 1)).

Definition lua_isnil (ls : lua_stack) (i : Z) : bool :=
  match lua_index ls i with
  | Some LNil => true
  | _ => false
  end.

(** A binding either returns or leaves through [luaL_error]. *)
Inductive outcome (A : Type) : Type :=
| Returns (a : A)
| Raises (msg : string).
Arguments Returns {A} a.
Arguments Raises {A} msg.

(** [luaL_checkstring]: a number converts to its text. *)
Definition luaL_checkstring (ls : lua_stack) (i : Z) : outcome string :=
  match lua_index ls i with
  | Some (LString s) => Returns s
  | Some (LNumber n) => Returns (CInt.format_d n)
  | _ => Raises "string expected"
  end.

Definition luaL_checkint (ls : lua_stack) (i : Z) : outcome Z :=
  match lua_index ls i with
  | Some (LNumber n) => Returns n
  | _ => Raises "number expected"
  end.

(** [luaL_checkudata(ls, n, MAP_METATABLE)] of the macro [MAP]. *)
Definition check_map (ls : lua_stack) (i : Z) : outcome unit :=
  match lua_index ls i with
  | Some LMap => Returns tt
  | _ => Raises "dgn.mtmap expected"
  end.

(** [level_range] (mapdef.h), with [branch_type] as its number. *)
Record level_range : Type := {
  branch : Z;
  shallowest : Z;
  deepest : Z;
  deny : bool
}.

Definition depth_ranges : Type := list level_range.

(** The two lists of depth ranges a binding can be handed: the static
    [dgn_default_depths], and [map->depths] of the map on the stack. *)
Inductive depth_ref : Type :=
| DefaultDepths
| MapDepths.

Record dgn_state : Type := {
  dgn_default_depths : depth_ranges;
  map_depths : depth_ranges
}.

Definition get_depths (dr : depth_ref) (st : dgn_state) : depth_ranges :=
  match dr with
  | DefaultDepths => dgn_default_depths st
  | MapDepths => map_depths st
  end.

Definition set_depths (dr : depth_ref) (v : depth_ranges) (st : dgn_state)
  : dgn_state :=
  match dr with
  | DefaultDepths =>
      {| dgn_default_depths := v; map_depths := map_depths st |}
  | MapDepths =>
      {| dgn_default_depths := dgn_default_depths st; map_depths := v |}
  end.

(** [dr.push_back(lr)] *)
Definition push_back (dr : depth_ref) (lr : level_range) (st : dgn_state)
  : dgn_state :=
  set_depths dr (get_depths dr st ++ [lr])%list st.

Section Depths.
(** [level_range::parse] and [level_range::describe] are defined in
    mapdef.cc; [parse] throws a [std::string] (the left summand). *)
Variable parse : string -> string + level_range.
Variable describe : level_range -> string.

(** [dgn_reset_default_depth] *)
Definition dgn_reset_default_depth (st : dgn_state) : dgn_state :=
  set_depths DefaultDepths [] st.

(** The loop of [dgn_set_default_depth] over the fragments left. *)
Fixpoint set_default_frags (frags : list string) (st : dgn_state)
  : dgn_state * string :=
  match frags with
  | [] => (st, "")
  | frag :: rest =>
      match parse frag with
      | inr lr => set_default_frags rest (push_back DefaultDepths lr st)
      | inl error => (st, error)
      end
  end.

(** [dgn_set_default_depth] *)
Definition dgn_set_default_depth (s : string) (st : dgn_state)
  : dgn_state * string :=
  set_default_frags (Libutil.split_string "," s) st.

(** The inner loop of [dgn_add_depths],
    [for (int j = 0, size = frags.size(); i < size; ++i)]: its test and
    its increment are on the outer index [i], [j] stays 0, and the range
    goes to [dgn_default_depths].  It returns the value it leaves in
    [i], and the message when [parse] threw. *)
Fixpoint add_depths_inner (fuel : nat) (i size : Z) (frags : list string)
                          (st : dgn_state)
  : Z * dgn_state * option string :=
  match fuel with
  | O => (i, st, None)
  | S f =>
      if i <? size then
        match parse (nth 0 frags "") with
        | inr lr =>
            add_depths_inner f (i + 1) size frags
                             (push_back DefaultDepths lr st)
        | inl error => (i, st, Some error)
        end
      else (i, st, None)
  end.

(** The outer loop of [dgn_add_depths], entered with the index [i].
    What is split is the [const char *] that [luaL_checkstring] returns:
    the argument up to its first NUL.  The message of [parse] goes to
    [luaL_error] as its format, also up to its first NUL; a message that
    holds a conversion ([%]) is formatted by the Lua library, which is
    not modelled. *)
Fixpoint add_depths_outer (fuel : nat) (i e : Z) (ls : lua_stack)
                          (st : dgn_state) : dgn_state * outcome unit :=
  match fuel with
  | O => (st, Returns tt)
  | S f =>
      if i <=? e then
        match luaL_checkstring ls i with
        | Raises msg => (st, Raises msg)
        | Returns depth =>
            let frags := Libutil.split_string "," (c_str depth) in
            let size := Z.of_nat (List.length frags) in
            let '(i', st', thrown) :=
              add_depths_inner (S (Z.to_nat (size - i))) i size frags st in
            match thrown with
            | Some error => (st', Raises (c_str error))
            | None => add_depths_outer f (i' + 1) e ls st'
            end
        end
      else (st, Returns tt)
  end.

(** [dgn_add_depths(drs, ls, s, e)]; the body never mentions [drs]. *)
Definition dgn_add_depths (drs : depth_ref) (ls : lua_stack) (s e : Z)
                          (st : dgn_state) : dgn_state * outcome unit :=
  add_depths_outer (S (Z.to_nat (e - s + 1))) s e ls st.

(** [dgn_depth_list_string] *)
Definition dgn_depth_list_string (drs : depth_ranges) : string :=
  String.concat ", " (map describe drs).

(** [dgn_depth_proc]: the state it leaves, and the value it pushes when
    it returns one. *)
Definition dgn_depth_proc (ls : lua_stack) (dr : depth_ref) (s : Z)
                          (st : dgn_state)
  : dgn_state * outcome (option string) :=
  if lua_gettop ls <? s then
    (st, Returns (Some (dgn_depth_list_string (get_depths dr st))))
  else if lua_isnil ls s then
    (set_depths dr [] st, Returns None)
  else
    let st1 := set_depths dr [] st in
    match dgn_add_depths dr ls s (lua_gettop ls) st1 with
    | (st2, Raises msg) => (st2, Raises msg)
    | (st2, Returns _) => (st2, Returns None)
    end.

(** [dgn_default_depth] *)
Definition dgn_default_depth (ls : lua_stack) (st : dgn_state)
  : dgn_state * outcome (option string) :=
  dgn_depth_proc ls DefaultDepths 1 st.

(** [dgn_depth] *)
Definition dgn_depth (ls : lua_stack) (st : dgn_state)
  : dgn_state * outcome (option string) :=
  match check_map ls 1 with
  | Raises msg => (st, Raises msg)
  | Returns _ => dgn_depth_proc ls MapDepths 2 st
  end.

(** What the claim about [dgn_add_depths] describes: every argument from
    [s] to [e] in turn, every fragment of it parsed and appended to the
    list [drs]. *)
Fixpoint add_frags_to (drs : depth_ref) (frags : list string)
                      (st : dgn_state) : dgn_state * outcome unit :=
  match frags with
  | [] => (st, Returns tt)
  | frag :: rest =>
      match parse frag with
      | inr lr => add_frags_to drs rest (push_back drs lr st)
      | inl error => (st, Raises error)
      end
  end.

Fixpoint add_depths_spec_from (drs : depth_ref) (ls : lua_stack)
                              (n : nat) (i : Z) (st : dgn_state)
  : dgn_state * outcome unit :=
  match n with
  | O => (st, Returns tt)
  | S n' =>
      match luaL_checkstring ls i with
      | Raises msg => (st, Raises msg)
      | Returns depth =>
          match add_frags_to drs (Libutil.split_string "," depth) st with
          | (st', Raises msg) => (st', Raises msg)
          | (st', Returns _) => add_depths_spec_from drs ls n' (i + 1) st'
          end
      end
  end.

Definition dgn_add_depths_spec (drs : depth_ref) (ls : lua_stack) (s e : Z)
                               (st : dgn_state) : dgn_state * outcome unit :=
  add_depths_spec_from drs ls (Z.to_nat (e - s + 1)) s st.

End Depths.

(** [map_lines] and the part of [map_def] the connectivity binding
    reads. *)
Record map_lines : Type := {
  lines : list string;
  map_width : Z
}.

(** Modelled from the spec: [map_lines::width] and [map_lines::height]
    are defined in mapdef.cc; the spec has "width/height derived" from
    the rows, which the class keeps as [map_width] and [lines]. *)
Definition width (m : map_lines) : Z := map_width m.
Definition height (m : map_lines) : Z := Z.of_nat (List.length (lines m)).

(** [map_def::map_bounds_check::operator()] *)
Definition map_bounds_check (m : map_lines) (c : Flood.coord_def) : bool :=
  (Flood.x c >=? 0) && (Flood.x c <? width m)
  && (Flood.y c >=? 0) && (Flood.y c <? height m).

Section Connected.
(** Whether the feature [map_feature] finds at a position can be
    travelled through (defined outside this translation unit), and the
    neighbour policy of the checker. *)
Variable traversable : map_lines -> Flood.coord_def -> bool.
Variable dirs : list (Z * Z).

(** The loop [for (int i = 4; i < nargs; i += 2)] that hands the points
    to the finder. *)
Fixpoint add_points (fuel : nat) (i nargs : Z) (ls : lua_stack)
                    (finder : Flood.flood_find)
  : outcome Flood.flood_find :=
  match fuel with
  | O => Returns finder
  | S f =>
      if i <? nargs then
        match luaL_checkint ls i, luaL_checkint ls (i + 1) with
        | Returns cx, Returns cy =>
            add_points f (i + 2) nargs ls
                       (Flood.add_point (Flood.mk_coord cx cy) finder)
        | Raises msg, _ => Raises msg
        | _, Raises msg => Raises msg
        end
      else Returns finder
  end.

(** [dgn_points_connected]: the boolean it pushes. *)
Definition dgn_points_connected (m : map_lines) (ls : lua_stack)
  : outcome bool :=
  match check_map ls 1 with
  | Raises msg => Raises msg
  | Returns _ =>
      let nargs := lua_gettop ls in
      if nargs <? 5 then
        Raises
          "Not enough points to test connectedness (need at least two)"
      else
        match add_points (List.length ls) 4 nargs ls Flood.new_finder with
        | Raises msg => Raises msg
        | Returns finder =>
            match luaL_checkint ls 2, luaL_checkint ls 3 with
            | Returns px, Returns py =>
                Returns
                  (Flood.points_connected_from
                     (traversable m) (map_bounds_check m) dirs
                     (Z.to_nat (width m * height m))
                     (Flood.mk_coord px py) finder)
            | Raises msg, _ => Raises msg
            | _, Raises msg => Raises msg
            end
        end
  end.

End Connected.

End Dgn.

(** ** Vocabulary: sequences of add calls *)

Module AddSpec.
Import CxxString CInt Chunk.

(** The number of newlines a call of [add] at [line] writes in front of
    its text. *)
Definition newlines_before (line last : Z) : nat :=
  if last =? -1 then O else Z.to_nat (line - last).

(** A sequence of calls [add(line, text)], first call first. *)
Definition run_adds (calls : list (Z * string)) (c : dlua_chunk)
  : dlua_chunk :=
  fold_left (fun c call => add (fst call) (snd call) c) calls c.

(** The physical lines of a text: what stands between its newlines. *)
Fixpoint physical_lines (s : string) : list string :=
  match s with
  | EmptyString => [""]
  | String ch s' =>
      if Ascii.eqb ch newline then "" :: physical_lines s'
      else match physical_lines s' with
           | h :: t => String ch h :: t
           | [] => [String ch ""]
           end
  end.

(** The [k]-th physical line, counted from 0; empty past the end. *)
Definition line_at (j : nat) (s : string) : string :=
  nth j (physical_lines s) "".

(** What the calls wrote for the authored line [line]: the text of each
    call at that line, each behind the blank [add] puts before it. *)
Fixpoint authored (calls : list (Z * string)) (line : Z) : string :=
  match calls with
  | [] => ""
  | (l, t) :: rest =>
      (if l =? line then " " ++ t else "") ++ authored rest line
  end.

Fixpoint no_newline (s : string) : bool :=
  match s with
  | EmptyString => true
  | String ch s' => negb (Ascii.eqb ch newline) && no_newline s'
  end.

Fixpoint nondecreasing (l : list Z) : Prop :=
  match l with
  | a :: (b :: _) as rest => a <= b /\ nondecreasing rest
  | _ => True
  end.

(** The claim about [add] as it is worded, for the calls [calls] on a
    chunk just constructed: [first] is the line of the first call after
    every call, and the [k]-th physical line holds what was authored at
    line [first + k - 1]. *)
Definition add_claim (ctx : string) (calls : list (Z * string)) : Prop :=
  match calls with
  | [] => True
  | (l1, _) :: _ =>
      (forall p q, calls = (p ++ q)%list -> p <> [] ->
                   first (run_adds p (new_chunk ctx)) = l1)
      /\ (forall k : nat, (1 <= k)%nat ->
            line_at (k - 1) (chunk (run_adds calls (new_chunk ctx)))
            = authored calls (l1 + Z.of_nat k - 1))
  end.

(** A call the line bookkeeping of [add] can follow: its line is an
    [int] other than the value -1 that [first] and [last] hold while they
    are unset, and its text has no newline of its own. *)
Definition call_ok (call : Z * string) : Prop :=
  int_range (fst call) /\ fst call <> -1 /\ no_newline (snd call) = true.

End AddSpec.

(** ** Vocabulary: chunk states, error lines and the binary format *)

Module ChunkSpec.
Import CxxString CInt Chunk.

(** White space only (or nothing at all). *)
Fixpoint all_space (s : string) : bool :=
  match s with
  | EmptyString => true
  | String ch s' => isspace ch && all_space s'
  end.

(** At most one of the source text and the compiled bytecode is
    non-empty. *)
Definition exclusive (c : dlua_chunk) : Prop :=
  chunk c = "" \/ compiled c = "".

(** The chunk of the examples: source text given with [set_chunk], then
    compiled by [load] on the recording interpreter. *)
Definition compiled_example : dlua_chunk :=
  fst (fst (load Lua.recorder_init
                 (set_chunk "return 1" (new_chunk "main")))).

(** The characters of a number as ["%d"] writes it: digits and the minus
    sign. *)
Definition number_char (ch : ascii) : bool :=
  match digit_of ch with
  | Some _ => true
  | None => Ascii.eqb ch "-"
  end.

Fixpoint all_digits (s : string) : bool :=
  match s with
  | EmptyString => true
  | String ch s' =>
      match digit_of ch with
      | Some _ => all_digits s'
      | None => false
      end
  end.

Fixpoint number_text (s : string) : bool :=
  match s with
  | EmptyString => true
  | String ch s' => number_char ch && number_text s'
  end.

(** The name that replaces the chunk reference. *)
Definition shown_name (c : dlua_chunk) : string :=
  if CxxString.empty (file c) then context c else file c.

(** The example of the spec: context [chunk1], line offset 5, an error at
    internal line 3. *)
Definition chunk1 : dlua_chunk :=
  with_first 5 (set_file "vault.des" (new_chunk "chunk1")).

(** The claim about [rewrite_chunk_prefix] as it is worded: wherever a
    line holds the reference to the chunk followed by the integer [n]
    and a colon, the reference becomes the file name and [n] becomes
    [n + first - 1]. *)
Definition prefix_claim (c : dlua_chunk) : Prop :=
  forall (pre rest : string) (n : Z),
    int_range n -> int_range (n + first c - 1) ->
    rewrite_chunk_prefix (pre ++ contextm c ++ format_d n ++ ":" ++ rest) c
    = pre ++ shown_name c ++ ":" ++ format_d (n + first c - 1) ++ ":"
      ++ rest.

(** An error raised again with its position put in front a second time:
    the line holds two references to the chunk. *)
Definition rethrown : string :=
  contextm chunk1 ++ "3: " ++ contextm chunk1 ++ "7: boom".

(** The test of the loop: the line mentions the context. *)
Definition mentions (c : dlua_chunk) (st : string) : bool :=
  match find (context c) st with
  | Some _ => true
  | None => false
  end.

(** The message built from the first line of the input and the lines the
    loop found to mention the context: the location of the first of
    them (its rewritten text up to the second colon) goes in front, the
    others follow rewritten, one per line. *)
Definition assemble (c : dlua_chunk) (line0 : string)
                    (matching : list string) : string :=
  match matching with
  | [] => line0
  | st :: more =>
      fold_left
        (fun msg st' => msg ++ String newline "" ++ rewrite_chunk_prefix st' c)
        more (get_chunk_prefix st c ++ ": " ++ line0)
  end.

(** [needle] occurs in [hay]. *)
Definition occurs_in (needle hay : string) : Prop :=
  exists a b, hay = a ++ needle ++ b.

(** The claim about [rewrite_chunk_errors] as it is worded, in its
    weakest reading: no line that mentions the context is skipped, so
    the rewritten location of each of them occurs in the result. *)
Definition no_line_skipped (c : dlua_chunk) (s : string) : Prop :=
  forall st,
    In st (Libutil.split_string newline s) -> mentions c st = true ->
    occurs_in (get_chunk_prefix st c) (snd (rewrite_chunk_errors s c)).

(** A traceback whose last line is the chunk's own. *)
Definition traceback : string :=
  "oops" ++ String newline
  ("stack traceback:" ++ String newline
  ("[C]: in function 'error'" ++ String newline
  (contextm chunk1 ++ "3: in main chunk"))).

(** A traceback with two frames of the chunk between its header and its
    last line. *)
Definition traceback2 : string :=
  "oops" ++ String newline
  ("stack traceback:" ++ String newline
  (contextm chunk1 ++ "3: in function 'f'" ++ String newline
  (contextm chunk1 ++ "9: in main chunk" ++ String newline
  "[C]: ?"))).

(** The round trip of the claim, for given values of the two caps: every
    chunk that holds bytecode (and whose [first] is an [int]) is read
    back with the same bytecode, file name and [first]. *)
Definition roundtrip_claim (max cap : Z) : Prop :=
  forall c into : dlua_chunk,
    compiled c <> "" -> int_range (first c) ->
    exists c' rest,
      read max cap (write max cap c) into = Some (c', rest)
      /\ compiled c' = compiled c
      /\ file c' = file c
      /\ first c' = first c.

End ChunkSpec.

(** ** Vocabulary: depth ranges of the examples *)

Module DepthSpec.
Import CxxString CInt Dgn.

(** A parser for the examples: a fragment is the depth it names. *)
Definition depth_at (n : Z) : level_range :=
  {| branch := 0; shallowest := n; deepest := n; deny := false |}.

Definition parse_example (s : string) : string + level_range :=
  match s with
  | EmptyString => inl "Empty depth"
  | _ => inr (depth_at (atoi s))
  end.

Definition no_depths : dgn_state :=
  {| dgn_default_depths := []; map_depths := [] |}.

End DepthSpec.

(** ** Vocabulary: reachability on a grid *)

Module FloodSpec.
Import Flood.

Section Reach.
Variable fgrd : coord_def -> bool.
Variable bound_check : coord_def -> bool.
Variable dirs : list (Z * Z).

(** [p] can be reached from [sp] by steps of the neighbour policy over
    positions that are within bounds and can be travelled through,
    [sp] and [p] included. *)
Inductive reachable (sp : coord_def) : coord_def -> Prop :=
| reach_start :
    passable fgrd bound_check sp = true -> reachable sp sp
| reach_step (c d : coord_def) :
    reachable sp c -> In d (neighbours dirs c) ->
    passable fgrd bound_check d = true -> reachable sp d.

(** What holds of the frontier and the visited positions at every step
    of the search from [sp]. *)
Definition search_inv (sp : coord_def) (frontier visited : list coord_def)
  : Prop :=
  NoDup visited
  /\ (forall v, In v visited -> reachable sp v)
  /\ incl frontier visited
  /\ (forall v d, In v visited -> In d (neighbours dirs v) ->
                  passable fgrd bound_check d = true ->
                  In d visited \/ In v frontier)
  /\ (passable fgrd bound_check sp = true -> In sp visited).

End Reach.

End FloodSpec.

(** ** Vocabulary: calls of dgn.points_connected *)

Module ConnectedSpec.
Import Flood Dgn.
Local Open Scope list_scope.

(** Every position within the bounds of the map. *)
Definition all_cells (m : map_lines) : list coord_def :=
  map (fun p => mk_coord (Z.of_nat (fst p)) (Z.of_nat (snd p)))
      (list_prod (seq 0 (Z.to_nat (width m))) (seq 0 (Z.to_nat (height m)))).

(** The arguments that hand the points [seeds] to the binding. *)
Definition encode (seeds : list coord_def) : lua_stack :=
  flat_map (fun p => [LNumber (x p); LNumber (y p)]) seeds.

(** The grids of the examples: a position can be travelled through
    when its glyph is not the wall [x]. *)
Definition glyph_traversable (m : map_lines) (c : coord_def) : bool :=
  match nth_error (lines m) (Z.to_nat (y c)) with
  | Some row =>
      match String.get (Z.to_nat (x c)) row with
      | Some ch => negb (Ascii.eqb ch "x")
      | None => false
      end
  | None => false
  end.

Definition open_grid : map_lines :=
  {| lines := ["..."; "..."; "..."]%string; map_width := 3 |}.

Definition walled_grid : map_lines :=
  {| lines := [".x."; ".x."; ".x."]%string; map_width := 3 |}.

Definition grid_cells : list coord_def := all_cells open_grid.

(** The call [dgn.points_connected(map, start, seeds...)]. *)
Definition connected_call (dirs : list (Z * Z)) (m : map_lines)
                          (start : coord_def) (seeds : list coord_def)
  : outcome bool :=
  dgn_points_connected glyph_traversable dirs m
    (LMap :: LNumber (x start) :: LNumber (y start) :: encode seeds).

(** Whether the call answers [expected] for every start and pair of
    seed points of the 3x3 grid that [select] picks. *)
Definition answers (dirs : list (Z * Z)) (m : map_lines) (expected : bool)
                   (select : coord_def -> coord_def -> bool) : bool :=
  forallb (fun s =>
    forallb (fun a =>
      forallb (fun b =>
        implb (select a b)
              (match connected_call dirs m s [a; b] with
               | Returns r => Bool.eqb r expected
               | Raises _ => false
               end))
        grid_cells) grid_cells) grid_cells.

(** Two seed points on either side of the middle column. *)
Definition across_wall (a b : coord_def) : bool := (x a =? 0) && (x b =? 2).

End ConnectedSpec.

(** ** An interpreter that answers from a script *)

Module LuaScript.
Import Lua.

(** A second interpreter for the examples: the result codes of
    [loadstring] and [lua_dump], the pieces of the dump, the value on top
    of the stack and the result of [callfn] are given beforehand; it
    records the calls made. *)
Record scripted : Type := {
  s_load : Z;
  s_dump : Z;
  s_pieces : list string;
  s_top : option string;
  s_call : bool;
  s_error : string;
  s_log : list event
}.

Definition s_step (ev : event) (r : scripted) : scripted :=
  {| s_load := s_load r; s_dump := s_dump r; s_pieces := s_pieces r;
     s_top := s_top r; s_call := s_call r; s_error := s_error r;
     s_log := (s_log r ++ [ev])%list |}.

#[global] Instance scripted_CLua : CLua scripted := {
  error := s_error;
  loadbuffer buf size context r :=
    (s_step (EvLoadBuffer buf size context) r, s_load r);
  loadstring str context r :=
    (s_step (EvLoadString str context) r, s_load r);
  lua_dump r := (s_step EvDump r, s_dump r, s_pieces r);
  lua_tostring _ r := s_top r;
  lua_pop n r := s_step (EvPop n) r;
  callfn fn nargs nret r := (s_step (EvCall fn nargs nret) r, s_call r)
}.

(** Loading succeeds, the dump fails with code 1 after one piece and
    leaves no text on the stack. *)
Definition dump_fails : scripted :=
  {| s_load := 0; s_dump := 1; s_pieces := ["LU"]; s_top := None;
     s_call := true; s_error := ""; s_log := [] |}.

End LuaScript.

(** ** Vocabulary: what stands around a chunk reference *)

Module RewriteSpec.
Import CxxString CInt Chunk ChunkSpec.

(** The text holds no colon. *)
Fixpoint colon_free (s : string) : bool :=
  match s with
  | EmptyString => true
  | String ch s' => negb (Ascii.eqb ch ":") && colon_free s'
  end.

(** The text does not start like a number [atoi] would read: it is
    empty, or its first character is neither white space, nor a sign,
    nor a digit. *)
Definition starts_no_number (t : string) : bool :=
  match t with
  | EmptyString => true
  | String ch _ =>
      negb (isspace ch) && negb (number_char ch) && negb (Ascii.eqb ch "+")
  end.

(** The number [atoi] reads from [s], before it is made an [int]:
    leading white space is skipped, a sign is taken, and the digits that
    follow count up to the first character that is not one.  The C
    library defines [atoi] only where this number fits an [int]. *)
Definition atoi_value (s : string) : Z :=
  match skip_space s with
  | String "-"%char s' => - atoi_digits s' 0
  | String "+"%char s' => atoi_digits s' 0
  | s' => atoi_digits s' 0
  end.

(** The line number [rewrite_chunk_prefix] writes for the text [t] it
    finds between the reference and the next colon. *)
Definition rewritten_number (t : string) (c : dlua_chunk) : Z :=
  wrap_int (wrap_int (atoi (c_str t) + first c) - 1).

End RewriteSpec.

(** ** More of the dgn bindings *)

Module Bindings.
Import CxxString Dgn.

(** A table with integer keys, as [lua_newtable], [lua_rawseti] and
    [lua_rawgeti] use it: the binding set last for a key is the one
    read. *)
Definition lua_table : Type := list (Z * string).

Definition lua_rawseti (k : Z) (v : string) (t : lua_table) : lua_table :=
  (k, v) :: t.

Fixpoint lua_rawgeti (k : Z) (t : lua_table) : option string :=
  match t with
  | [] => None
  | (k', v) :: r => if k =? k' then Some v else lua_rawgeti k r
  end.

(** What a binding has pushed when it returns. *)
Inductive lua_ret : Type :=
| RetNothing
| RetString (s : string)
| RetNumber (n : Z)
| RetBoolean (b : bool)
| RetTable (t : lua_table).

(** [lua_isstring]: true of a string and of a number, which converts to
    one. *)
Definition lua_isstring (ls : lua_stack) (i : Z) : bool :=
  match lua_index ls i with
  | Some (LString _) | Some (LNumber _) => true
  | _ => false
  end.

(** The loop of [dlua_gentable], entered with the index [i]; [push]
    gives the value that [lua_rawseti] then stores at [i + 1]. *)
Fixpoint gentable_loop (fuel : nat) (i size : Z) (strings : list string)
                       (push : string -> string) (t : lua_table)
  : lua_table :=
  match fuel with
  | O => t
  | S f =>
      if i <? size
      then gentable_loop f (i + 1) size strings push
             (lua_rawseti (i + 1) (push (nth (Z.to_nat i) strings "")) t)
      else t
  end.

(** [dlua_gentable]: the table it leaves on the stack. *)
Definition dlua_gentable (strings : list string) (push : string -> string)
  : lua_table :=
  gentable_loop (List.length strings) 0 (Z.of_nat (List.length strings))
                strings push [].

(** [dlua_pushcxxstring]: [lua_pushstring] reads up to the first NUL. *)
Definition dlua_pushcxxstring (s : string) : string := c_str s.

(** [dlua_stringtable] *)
Definition dlua_stringtable (s : list string) : lua_table :=
  dlua_gentable s dlua_pushcxxstring.

(** [dgn_weight], on [map->chance]. *)
Definition dgn_weight (ls : lua_stack) (chance : Z) : Z * outcome lua_ret :=
  match check_map ls 1 with
  | Raises msg => (chance, Raises msg)
  | Returns _ =>
      if negb (lua_isnil ls 2) then
        match luaL_checkint ls 2 with
        | Raises msg => (chance, Raises msg)
        | Returns n => (n, Returns (RetNumber n))
        end
      else (chance, Returns (RetNumber chance))
  end.

(** [dgn_place], on [map->place]; the [const char *] that
    [luaL_checkstring] returns is read up to its first NUL. *)
Definition dgn_place (ls : lua_stack) (place : string)
  : string * outcome lua_ret :=
  match check_map ls 1 with
  | Raises msg => (place, Raises msg)
  | Returns _ =>
      if lua_gettop ls >? 1 then
        if lua_isnil ls 2 then ("", Returns (RetString ""))
        else
          match luaL_checkstring ls 2 with
          | Raises msg => (place, Raises msg)
          | Returns s => (c_str s, Returns (RetString (c_str (c_str s))))
          end
      else (place, Returns (RetString (c_str place)))
  end.

(** [dgn_tags], on [map->tags]. *)
Definition dgn_tags (ls : lua_stack) (tags : string)
  : string * outcome lua_ret :=
  match check_map ls 1 with
  | Raises msg => (tags, Raises msg)
  | Returns _ =>
      if lua_gettop ls >? 1 then
        if lua_isnil ls 2 then ("", Returns (RetString ""))
        else
          match luaL_checkstring ls 2 with
          | Raises msg => (tags, Raises msg)
          | Returns s =>
              let tags' :=
                tags ++ (" " ++ Libutil.trimmed_string (c_str s) ++ " ") in
              (tags', Returns (RetString (c_str tags')))
          end
      else (tags, Returns (RetString (c_str tags)))
  end.

(** The loop of [dgn_tags_remove], entered with the index [i]. *)
Fixpoint tags_remove_loop (fuel : nat) (i top : Z) (ls : lua_stack)
                          (tags : string) : string * outcome unit :=
  match fuel with
  | O => (tags, Returns tt)
  | S f =>
      if i <=? top then
        match luaL_checkstring ls i with
        | Raises msg => (tags, Raises msg)
        | Returns a =>
            let axee := c_str a in
            tags_remove_loop f (i + 1) top ls
              (match find axee tags with
               | Some pos =>
                   substr 0 pos tags
                   ++ substr_from (pos + String.length axee) tags
               | None => tags
               end)
        end
      else (tags, Returns tt)
  end.

(** [dgn_tags_remove], on [map->tags]. *)
Definition dgn_tags_remove (ls : lua_stack) (tags : string)
  : string * outcome lua_ret :=
  match check_map ls 1 with
  | Raises msg => (tags, Raises msg)
  | Returns _ =>
      match tags_remove_loop (List.length ls) 2 (lua_gettop ls) ls tags with
      | (tags', Raises msg) => (tags', Raises msg)
      | (tags', Returns _) => (tags', Returns (RetString (c_str tags')))
      end
  end.

Section MapLines.
(** [map_lines::clear] and [map_lines::add_line] are defined in
    mapdef.cc. *)
Variable clear : map_lines -> map_lines.
Variable add_line : string -> map_lines -> map_lines.

(** The vector behind [get_lines()], written through the reference the
    call returns: the width the class keeps is not touched. *)
Definition with_lines (l : list string) (m : map_lines) : map_lines :=
  {| lines := l; map_width := map_width m |}.

(** [lines.erase(lines.begin() + n)] *)
Definition erase (n : nat) (l : list string) : list string :=
  (firstn n l ++ skipn (S n) l)%list.

(** [lines[n] = v], for [n] below the size. *)
Definition assign (n : nat) (v : string) (l : list string) : list string :=
  (firstn n l ++ v :: skipn (S n) l)%list.

(** [lines.resize(n, "")], for [n] above the size. *)
Definition resize (n : nat) (l : list string) : list string :=
  (l ++ repeat EmptyString (n - List.length l))%list.

(** [dgn_map].  The size of the vector is taken to fit an [int], as the
    casts of the source do; a vector that cannot grow to the size asked
    for is not modelled. *)
Definition dgn_map (ls : lua_stack) (m : map_lines)
  : map_lines * outcome lua_ret :=
  match check_map ls 1 with
  | Raises msg => (m, Raises msg)
  | Returns _ =>
      if lua_gettop ls =? 1 then
        (m, Returns (RetTable (dlua_stringtable (lines m))))
      else if lua_isnil ls 2 then (clear m, Returns RetNothing)
      else if lua_isstring ls 2 then
        match luaL_checkstring ls 2 with
        | Raises msg => (m, Raises msg)
        | Returns s => (add_line (c_str s) m, Returns RetNothing)
        end
      else
        match luaL_checkint ls 2 with
        | Raises msg => (m, Raises msg)
        | Returns w =>
            let size := Z.of_nat (List.length (lines m)) in
            let which_line := if w <? 0 then w + size else w in
            if lua_gettop ls =? 2 then
              if (which_line <? 0) || (which_line >=? size) then
                (m, Raises
                      (if size =? 0 then "Map is empty"
                       else "Line " ++ CInt.format_d which_line
                            ++ " out of range (0-"
                            ++ CInt.format_d (size - 1) ++ ")"))
              else
                (m, Returns
                      (RetString
                         (c_str (nth (Z.to_nat which_line) (lines m) ""))))
            else if lua_isnil ls 3 then
              if (which_line >=? 0) && (which_line <? size) then
                (with_lines (erase (Z.to_nat which_line) (lines m)) m,
                 Returns (RetBoolean true))
              else (m, Returns RetNothing)
            else
              match luaL_checkstring ls 3 with
              | Raises msg => (m, Raises msg)
              | Returns s =>
                  if which_line <? 0 then
                    (m, Raises ("Index " ++ CInt.format_d which_line
                                ++ " out of range"))
                  else if which_line <? size then
                    (with_lines
                       (assign (Z.to_nat which_line) (c_str s) (lines m)) m,
                     Returns RetNothing)
                  else
                    (with_lines
                       (assign (Z.to_nat which_line) (c_str s)
                          (resize (Z.to_nat (which_line + 1)) (lines m)))
                       m,
                     Returns RetNothing)
              end
        end
  end.

End MapLines.

Section Slots.
(** [mons_list] and [item_list] are classes of mapdef.h whose member
    functions are defined in mapdef.cc: [clear], [add_mons] or
    [add_item] (with its second parameter at its default), and
    [set_mons] or [set_item], which return an error text, empty when
    there is none. *)
Variable slot_list : Type.
Variable clear : slot_list -> slot_list.
Variable add_slot : string -> slot_list -> slot_list * string.
Variable set_slot : Z -> string -> slot_list -> slot_list * string.

(** The end of both branches: [if (!err.empty()) luaL_error(...)]. *)
Definition check_err (r : slot_list * string) : slot_list * outcome unit :=
  if negb (CxxString.empty (snd r)) then (fst r, Raises (c_str (snd r)))
  else (fst r, Returns tt).

(** The body [dgn_mons] and [dgn_item] share, word for word but for the
    member they work on. *)
Definition dgn_slot (ls : lua_stack) (l : slot_list)
  : slot_list * outcome unit :=
  match check_map ls 1 with
  | Raises msg => (l, Raises msg)
  | Returns _ =>
      if lua_gettop ls =? 1 then (l, Returns tt)
      else if lua_isnil ls 2 then (clear l, Returns tt)
      else if lua_isstring ls 2 then
        match luaL_checkstring ls 2 with
        | Raises msg => (l, Raises msg)
        | Returns s => check_err (add_slot (c_str s) l)
        end
      else
        match luaL_checkint ls 2 with
        | Raises msg => (l, Raises msg)
        | Returns index =>
            match luaL_checkstring ls 3 with
            | Raises msg => (l, Raises msg)
            | Returns s => check_err (set_slot index (c_str s) l)
            end
        end
  end.

(** [dgn_mons], on [map->mons]. *)
Definition dgn_mons (ls : lua_stack) (mons : slot_list)
  : slot_list * outcome unit :=
  dgn_slot ls mons.

(** [dgn_item], on [map->items]. *)
Definition dgn_item (ls : lua_stack) (items : slot_list)
  : slot_list * outcome unit :=
  dgn_slot ls items.

End Slots.

Arguments check_err {slot_list} r.
Arguments dgn_slot {slot_list} clear add_slot set_slot ls l.
Arguments dgn_mons {slot_list} clear add_slot set_slot ls mons.
Arguments dgn_item {slot_list} clear add_slot set_slot ls items.

End Bindings.

(** ** Vocabulary: what a load leaves of a compiled chunk *)

Module LoadSpec.
Import CxxString Chunk ChunkSpec.

(** The claim about [load] on a chunk that holds bytecode as it is
    worded: the chunk is after the load what it was before. *)
Definition load_keeps_state : Prop :=
  forall (interp : Lua.recorder) (c : dlua_chunk),
    compiled c <> "" -> fst (fst (load interp c)) = c.

(** A compiled chunk that still holds the text of an earlier failure, as
    [load_call] leaves it when the call of the function fails. *)
Definition stale_error : dlua_chunk :=
  with_error "attempt to call a nil value" compiled_example.

End LoadSpec.

(** ** Vocabulary: messages handed to luaL_error *)

Module ErrorSpec.

(** The message holds no [%], so that [luaL_error], which takes it as
    its format, raises it as it is. *)
Fixpoint percent_free (s : string) : bool :=
  match s with
  | EmptyString => true
  | String ch s' => negb (Ascii.eqb ch "%") && percent_free s'
  end.

End ErrorSpec.

(* ================================================================== *)
(** * Part II: the properties *)
(* ================================================================== *)

(** ** Facts about strings *)

Module StringFacts.
Import CxxString.

Lemma app_nil_r (s : string) : s ++ "" = s.
Proof. induction s as [|a s IH]; simpl; [reflexivity | now rewrite IH]. Qed.

Lemma app_assoc (a b c : string) : (a ++ b) ++ c = a ++ (b ++ c).
Proof. induction a as [|x a IH]; simpl; [reflexivity | now rewrite IH]. Qed.

Lemma length_app (a b : string) :
  String.length (a ++ b) = (String.length a + String.length b)%nat.
Proof. induction a as [|x a IH]; simpl; [reflexivity | now rewrite IH]. Qed.

Lemma app_inv_head (a b c : string) : a ++ b = a ++ c -> b = c.
Proof.
  induction a as [|x a IH]; simpl; intros E; [exact E|].
  injection E as E. now apply IH.
Qed.

Lemma replicate_length (n : nat) (c : ascii) :
  String.length (replicate n c) = n.
Proof. induction n as [|n IH]; simpl; [reflexivity | now rewrite IH]. Qed.

Lemma replicate_snoc (n : nat) (c : ascii) :
  replicate n c ++ String c "" = replicate (S n) c.
Proof. induction n as [|n IH]; simpl; [reflexivity | now rewrite IH]. Qed.

Lemma empty_true_iff (s : string) : empty s = true <-> s = "".
Proof. destruct s; simpl; split; congruence. Qed.

Lemma empty_false_iff (s : string) : empty s = false <-> s <> "".
Proof. destruct s; simpl; split; congruence. Qed.

End StringFacts.

(** ** dlua_chunk::add *)

Module AddFacts.
Import CxxString CInt Chunk AddSpec StringFacts.

Lemma wrap_int_id (z : Z) : int_range z -> wrap_int z = z.
Proof.
  unfold int_range, INT_MIN, INT_MAX, wrap_int. intros Hz.
  rewrite Z.mod_small; lia.
Qed.

(** With the fuel [add] gives it, the newline loop leaves through its
    test, having appended [line - last] newlines. *)
Lemma add_newlines_spec (n : nat) :
  forall (last line : Z) (chunk : string),
    int_range last -> int_range line -> last <= line ->
    n = Z.to_nat (line - last) ->
    snd (add_newlines (S n) last line chunk) = chunk ++ replicate n newline.
Proof.
  induction n as [|n IH]; intros last line chunk Hl Hn Hle Hfuel.
  - assert (last = line) by lia. subst. simpl.
    rewrite Z.ltb_irrefl. simpl. now rewrite app_nil_r.
  - assert (Hlt : last < line) by lia.
    change (add_newlines (S (S n)) last line chunk)
      with (if last <? line
            then add_newlines (S n) (wrap_int (last + 1)) line
                              (chunk ++ String newline "")
            else (wrap_int (last + 1), chunk)).
    apply Z.ltb_lt in Hlt as Hb. rewrite Hb.
    assert (Hr : int_range (last + 1))
      by (unfold int_range, INT_MIN, INT_MAX in *; lia).
    rewrite (wrap_int_id _ Hr).
    rewrite IH; try assumption; try lia.
    rewrite app_assoc. f_equal.
Qed.

(** When the line does not exceed [last] the loop appends nothing. *)
Lemma add_newlines_none (n : nat) (last line : Z) (chunk : string) :
  line <= last -> snd (add_newlines (S n) last line chunk) = chunk.
Proof.
  intros Hle. simpl.
  destruct (last <? line) eqn:Hb; [apply Z.ltb_lt in Hb; lia | reflexivity].
Qed.

Lemma add_chunk (line : Z) (s : string) (c : dlua_chunk) :
  int_range line -> int_range (last c) ->
  chunk (add line s c)
  = chunk c ++ replicate (newlines_before line (last c)) newline
    ++ " " ++ s.
Proof.
  intros Hline Hlast.
  assert (Hloop : snd (add_newlines (S (Z.to_nat (line - last c))) (last c)
                                    line (chunk c))
                  = chunk c ++ replicate (Z.to_nat (line - last c)) newline).
  { destruct (Z_lt_le_dec (last c) line) as [Hlt|Hge].
    - apply add_newlines_spec; try assumption; lia.
    - rewrite add_newlines_none by lia.
      replace (Z.to_nat (line - last c)) with O by lia.
      simpl. now rewrite app_nil_r. }
  unfold add, newlines_before.
  destruct (first c =? -1); cbn [last chunk with_first];
    (destruct (last c =? -1) eqn:Hm1;
     [ rewrite andb_false_r; cbn; now rewrite !app_assoc
     | rewrite andb_true_r;
       destruct (line =? last c) eqn:Heq; cbn [negb];
       [ apply Z.eqb_eq in Heq; rewrite Heq, Z.sub_diag; cbn;
         now rewrite !app_assoc
       | destruct (add_newlines (S (Z.to_nat (line - last c))) (last c) line
                                (chunk c)) as [last' chunk'];
         cbn in Hloop |- *; rewrite Hloop; now rewrite !app_assoc ] ]).
Qed.

Lemma add_last (line : Z) (s : string) (c : dlua_chunk) :
  last (add line s c) = line.
Proof. reflexivity. Qed.

(** The fields [add] leaves alone do not depend on what the newline loop
    returns. *)
Ltac add_cases c :=
  unfold add;
  destruct (first c =? -1) eqn:?Hf;
  match goal with
  | |- context [add_newlines ?f ?l ?n ?k] =>
      generalize (add_newlines f l n k); intros [? ?]
  end;
  match goal with
  | |- context [if ?b then _ else _] => destruct b
  end.

Lemma add_first (line : Z) (s : string) (c : dlua_chunk) :
  first (add line s c) = if first c =? -1 then line else first c.
Proof. add_cases c; cbn; rewrite ?Hf; reflexivity. Qed.

Lemma add_compiled (line : Z) (s : string) (c : dlua_chunk) :
  compiled (add line s c) = compiled c.
Proof. add_cases c; reflexivity. Qed.

Lemma add_context (line : Z) (s : string) (c : dlua_chunk) :
  context (add line s c) = context c.
Proof. add_cases c; reflexivity. Qed.

End AddFacts.

(** ** Sequences of add calls and the physical lines they produce *)

Module AddLines.
Import CxxString CInt Chunk AddSpec StringFacts AddFacts.

Lemma physical_lines_length (s : string) :
  (1 <= List.length (physical_lines s))%nat.
Proof.
  induction s as [|ch s IH]; simpl; [lia|].
  destruct (Ascii.eqb ch newline); simpl; [lia|].
  destruct (physical_lines s); simpl; lia.
Qed.

Lemma physical_lines_plain (u : string) :
  no_newline u = true -> physical_lines u = [u].
Proof.
  induction u as [|ch u IH]; simpl; [reflexivity|].
  destruct (Ascii.eqb ch newline); simpl; [discriminate|].
  intros H. now rewrite (IH H).
Qed.

(** Appending [n] newlines and a text without newlines to [s] adds [n]
    lines; the text lands on line [m - 1 + n], where [m] is the number of
    lines of [s]. *)
Lemma line_at_append (u : string) (n : nat) :
  no_newline u = true ->
  forall (s : string) (j : nat),
    line_at j (s ++ replicate n newline ++ u)
    = line_at j s
      ++ (if Nat.eqb j (List.length (physical_lines s) - 1 + n) then u
          else "").
Proof.
  intros Hu. unfold line_at.
  induction s as [|ch s IH]; intros j.
  - cbn [append physical_lines List.length nth].
    replace (1 - 1 + n)%nat with n by lia.
    revert j. induction n as [|n IHn]; intros j.
    + cbn [replicate append]. rewrite (physical_lines_plain _ Hu).
      destruct j as [|[|j]]; simpl; now rewrite ?app_nil_r.
    + cbn [replicate append physical_lines].
      change (Ascii.eqb newline newline) with true. cbv iota.
      destruct j as [|j]; [reflexivity|].
      cbn [nth]. rewrite IHn. destruct j as [|[|j]]; reflexivity.
  - cbn [append physical_lines].
    pose proof (physical_lines_length s) as Hlen.
    pose proof (physical_lines_length (s ++ replicate n newline ++ u))
      as Hlen'.
    destruct (Ascii.eqb ch newline).
    + destruct j as [|j].
      * cbn [nth List.length].
        destruct (List.length (physical_lines s)); [lia|reflexivity].
      * cbn [nth List.length]. rewrite IH.
        replace (S (List.length (physical_lines s)) - 1 + n)%nat
          with (S (List.length (physical_lines s) - 1 + n)) by lia.
        reflexivity.
    + specialize (IH j).
      destruct (physical_lines s) as [|h t] eqn:Hs; [simpl in Hlen; lia|].
      destruct (physical_lines (s ++ replicate n newline ++ u))
        as [|h' t'] eqn:Hs'; [simpl in Hlen'; lia|].
      destruct j as [|j]; cbn [nth List.length] in IH |- *.
      * rewrite IH. reflexivity.
      * exact IH.
Qed.

Lemma physical_lines_append_length (u : string) (n : nat) :
  no_newline u = true ->
  forall s : string,
    List.length (physical_lines (s ++ replicate n newline ++ u))
    = (List.length (physical_lines s) + n)%nat.
Proof.
  intros Hu. induction s as [|ch s IH].
  - cbn [append physical_lines List.length].
    induction n as [|n IHn].
    + cbn [replicate append]. now rewrite (physical_lines_plain _ Hu).
    + cbn [replicate append physical_lines].
      change (Ascii.eqb newline newline) with true. cbv iota.
      cbn [List.length]. rewrite IHn. reflexivity.
  - cbn [append physical_lines].
    pose proof (physical_lines_length s) as Hlen.
    pose proof (physical_lines_length (s ++ replicate n newline ++ u))
      as Hlen'.
    destruct (Ascii.eqb ch newline).
    + cbn [List.length]. now rewrite IH.
    + destruct (physical_lines s) as [|h t]; [simpl in Hlen; lia|].
      destruct (physical_lines (s ++ replicate n newline ++ u))
        as [|h' t']; [simpl in Hlen'; lia|].
      cbn [List.length] in *. exact IH.
Qed.

Lemma run_adds_cons (call : Z * string) (calls : list (Z * string))
      (c : dlua_chunk) :
  run_adds (call :: calls) c = run_adds calls (add (fst call) (snd call) c).
Proof. reflexivity. Qed.

Lemma run_adds_snoc (calls : list (Z * string)) (call : Z * string)
      (c : dlua_chunk) :
  run_adds (calls ++ [call])%list c
  = add (fst call) (snd call) (run_adds calls c).
Proof. unfold run_adds. now rewrite fold_left_app. Qed.

Lemma run_adds_first (calls : list (Z * string)) :
  forall c : dlua_chunk,
    first c <> -1 -> first (run_adds calls c) = first c.
Proof.
  induction calls as [|[l t] calls IH]; intros c Hf; [reflexivity|].
  rewrite run_adds_cons. cbn [fst snd].
  assert (E : first (add l t c) = first c).
  { rewrite add_first. apply Z.eqb_neq in Hf. now rewrite Hf. }
  rewrite IH; rewrite E; auto.
Qed.

Lemma run_adds_last (calls : list (Z * string)) (call : Z * string)
      (c : dlua_chunk) :
  last (run_adds (calls ++ [call])%list c) = fst call.
Proof. rewrite run_adds_snoc. apply add_last. Qed.

(** The lines of the chunk after a run of calls that starts where the
    chunk already has text. *)
Lemma run_adds_lines (calls : list (Z * string)) :
  forall c : dlua_chunk,
    Forall call_ok calls ->
    nondecreasing (last c :: map fst calls) ->
    int_range (last c) -> last c <> -1 -> first c <> -1 ->
    first c <= last c ->
    List.length (physical_lines (chunk c))
    = Z.to_nat (last c - first c + 1) ->
    forall j : nat,
      line_at j (chunk (run_adds calls c))
      = line_at j (chunk c) ++ authored calls (first c + Z.of_nat j).
Proof.
  induction calls as [|[l t] calls IH];
    intros c Hok Hnd Hlr Hl Hf Hfl Hlen j.
  { cbn. now rewrite app_nil_r. }
  rewrite run_adds_cons. cbn [fst snd].
    inversion Hok as [|? ? [Hlrange [Hlne Hnl]] Hok']; subst.
    cbn [fst snd] in *.
    destruct Hnd as [Hle Hnd]. cbn [map fst] in Hle.
    assert (Hchunk : chunk (add l t c)
                     = chunk c ++ replicate (Z.to_nat (l - last c)) newline
                       ++ (" " ++ t)).
    { rewrite add_chunk by assumption. unfold newlines_before.
      apply Z.eqb_neq in Hl. now rewrite Hl. }
    assert (Hnl' : no_newline (" " ++ t) = true) by (cbn; exact Hnl).
    assert (Hfirst : first (add l t c) = first c).
    { rewrite add_first. apply Z.eqb_neq in Hf. now rewrite Hf. }
    assert (Hlast : last (add l t c) = l) by apply add_last.
    rewrite IH.
    - rewrite Hfirst, Hchunk, (line_at_append _ _ Hnl'), Hlen.
      rewrite app_assoc. f_equal. cbn [authored]. f_equal.
      destruct (l =? first c + Z.of_nat j) eqn:E.
      + apply Z.eqb_eq in E.
        replace (Nat.eqb j (Z.to_nat (last c - first c + 1) - 1
                            + Z.to_nat (l - last c))) with true;
          [reflexivity|].
        symmetry. apply Nat.eqb_eq. lia.
      + apply Z.eqb_neq in E.
        replace (Nat.eqb j (Z.to_nat (last c - first c + 1) - 1
                            + Z.to_nat (l - last c))) with false;
          [reflexivity|].
        symmetry. apply Nat.eqb_neq. lia.
    - exact Hok'.
    - rewrite Hlast. exact Hnd.
    - now rewrite Hlast.
    - now rewrite Hlast.
    - now rewrite Hfirst.
    - rewrite Hlast, Hfirst. lia.
    - rewrite Hlast, Hfirst, Hchunk.
      rewrite (physical_lines_append_length _ _ Hnl'), Hlen. lia.
Qed.

Lemma call_ok_in (calls : list (Z * string)) (l : Z) (t : string) :
  Forall call_ok calls -> In (l, t) calls ->
  int_range l /\ l <> -1 /\ no_newline t = true.
Proof.
  intros Hok Hin. rewrite Forall_forall in Hok. exact (Hok _ Hin).
Qed.

(** C10 (amended).  Take calls [add(line, text)] on a chunk just
    constructed, with nondecreasing line numbers, none of them the value
    -1 that stands for "unset", and texts without newline characters.
    Then (1) after every call [first] is the line of the first call;
    (2) a call that follows a call at line [prev] appends [l - prev]
    newlines, a blank and its text to the source; (3) the [k]-th physical
    line of the source (from 1) is what was authored at line
    [first + k - 1]: the texts of the calls at that line, each behind one
    blank. *)
Theorem add_sequence_lines (ctx : string) (l1 : Z) (t1 : string)
        (rest : list (Z * string)) :
  Forall call_ok ((l1, t1) :: rest) ->
  nondecreasing (map fst ((l1, t1) :: rest)) ->
  (forall p q, (l1, t1) :: rest = (p ++ q)%list -> p <> [] ->
     first (run_adds p (new_chunk ctx)) = l1)
  /\ (forall p prev tp l t q,
        (l1, t1) :: rest = (p ++ (prev, tp) :: (l, t) :: q)%list ->
        chunk (run_adds (p ++ [(prev, tp); (l, t)])%list (new_chunk ctx))
        = chunk (run_adds (p ++ [(prev, tp)])%list (new_chunk ctx))
          ++ replicate (Z.to_nat (l - prev)) newline ++ " " ++ t)
  /\ (forall k : nat, (1 <= k)%nat ->
        line_at (k - 1)
                (chunk (run_adds ((l1, t1) :: rest) (new_chunk ctx)))
        = authored ((l1, t1) :: rest) (l1 + Z.of_nat k - 1)).
Proof.
  intros Hok Hnd.
  assert (H1 : int_range l1 /\ l1 <> -1 /\ no_newline t1 = true)
    by (apply (call_ok_in _ _ _ Hok); now left).
  destruct H1 as (Hr1 & Hne1 & Hnl1).
  assert (Hc1 : chunk (add l1 t1 (new_chunk ctx)) = " " ++ t1).
  { rewrite add_chunk; [reflexivity | assumption |].
    cbn. unfold int_range, INT_MIN, INT_MAX. lia. }
  assert (Hf1 : first (add l1 t1 (new_chunk ctx)) = l1)
    by (rewrite add_first; reflexivity).
  assert (Hl1 : last (add l1 t1 (new_chunk ctx)) = l1) by reflexivity.
  split; [|split].
  - intros [|[l t] p] q E Hp; [congruence|].
    injection E as El Et Er. subst l t.
    rewrite run_adds_cons. cbn [fst snd].
    rewrite run_adds_first; rewrite Hf1; auto.
  - intros p prev tp l t q E.
    replace (p ++ [(prev, tp); (l, t)])%list
      with ((p ++ [(prev, tp)]) ++ [(l, t)])%list
      by now rewrite <- List.app_assoc.
    rewrite run_adds_snoc. cbn [fst snd].
    assert (Hin : forall a, In a [(prev, tp); (l, t)] ->
                            In a ((l1, t1) :: rest)).
    { intros a Ha. rewrite E. apply in_or_app. right.
      destruct Ha as [<-|[<-|[]]]; [now left | right; now left]. }
    destruct (call_ok_in _ _ _ Hok (Hin _ (or_introl eq_refl)))
      as (Hrp & Hnp & _).
    destruct (call_ok_in _ _ _ Hok (Hin _ (or_intror (or_introl eq_refl))))
      as (Hrl & _ & _).
    rewrite add_chunk; rewrite ?run_adds_last; cbn [fst]; try assumption.
    unfold newlines_before. apply Z.eqb_neq in Hnp. now rewrite Hnp.
  - intros k Hk. rewrite run_adds_cons. cbn [fst snd].
    inversion Hok as [|? ? _ Hok']; subst.
    rewrite run_adds_lines.
    + rewrite Hf1, Hc1. cbn [authored].
      replace (l1 + Z.of_nat (k - 1)) with (l1 + Z.of_nat k - 1) by lia.
      f_equal. unfold line_at.
      rewrite (physical_lines_plain (" " ++ t1)) by (cbn; exact Hnl1).
      destruct (l1 =? l1 + Z.of_nat k - 1) eqn:E.
      * apply Z.eqb_eq in E. replace (k - 1)%nat with O by lia.
        reflexivity.
      * apply Z.eqb_neq in E.
        destruct (k - 1)%nat as [|[|j]] eqn:Ek; [lia | reflexivity..].
    + exact Hok'.
    + rewrite Hl1. exact Hnd.
    + now rewrite Hl1.
    + now rewrite Hl1.
    + now rewrite Hf1.
    + rewrite Hf1, Hl1. lia.
    + rewrite Hf1, Hl1, Hc1.
      rewrite (physical_lines_plain (" " ++ t1)) by (cbn; exact Hnl1).
      cbn. lia.
Qed.

Lemma add_sequence_lines_witness :
  line_at 2 (chunk (run_adds [(3, "x = 1"); (3, "y = 2"); (5, "return x")]
                             (new_chunk "main")))
  = " return x".
Proof.
  refine (proj2 (proj2 (add_sequence_lines "main" 3 "x = 1"
                          [(3, "y = 2"); (5, "return x")] _ _)) 3%nat _).
  - repeat constructor; cbn; unfold INT_MIN, INT_MAX; lia.
  - cbn. lia.
  - lia.
Defined.

(** C10 as worded fails on a first line number of -1, where [first] is
    set again by the second call, and on a text with a newline, which
    shifts the physical lines after it. *)
Lemma add_claim_fails :
  ~ add_claim "c" [(-1, "a"); (0, "b")]
  /\ ~ add_claim "c" [(1, "a" ++ String newline "b"); (2, "c")].
Proof.
  split.
  - intros [H _].
    specialize (H [(-1, "a"); (0, "b")] [] eq_refl ltac:(discriminate)).
    vm_compute in H. discriminate.
  - intros [_ H]. specialize (H 2%nat ltac:(lia)).
    vm_compute in H. discriminate.
Qed.

End AddLines.

(** ** dlua_chunk::load and the states of a chunk *)

Module LoadFacts.
Import CxxString CInt Chunk ChunkSpec StringFacts AddFacts.

Lemma skip_space_all_space (s : string) :
  all_space s = true -> skip_space s = "".
Proof.
  induction s as [|ch s IH]; simpl; [reflexivity|].
  destruct (isspace ch); simpl; [exact IH | discriminate].
Qed.

Lemma trimmed_all_space (s : string) :
  all_space s = true -> Libutil.trimmed_string s = "".
Proof.
  intros H. unfold Libutil.trimmed_string.
  now rewrite (skip_space_all_space _ H).
Qed.

Lemma writer_fold (pieces : list string) :
  forall acc : string,
    fold_left (fun o p => fst (dlua_compiled_chunk_writer o p)) pieces acc
    = acc ++ String.concat "" pieces.
Proof.
  induction pieces as [|p pieces IH]; intros acc; cbn [fold_left].
  - cbn. now rewrite app_nil_r.
  - rewrite IH. cbn [dlua_compiled_chunk_writer fst].
    rewrite app_assoc. f_equal.
    destruct pieces as [|q pieces]; cbn; [now rewrite app_nil_r|].
    reflexivity.
Qed.

Section WithInterpreter.
Context {E : Type} `{Lua.CLua E}.

(** [load] on a chunk that holds bytecode. *)
Lemma load_compiled (interp : E) (c : dlua_chunk) :
  compiled c <> "" ->
  load interp c
  = (with_error
       (Lua.error (fst (Lua.loadbuffer (compiled c)
                          (String.length (compiled c))
                          (c_str (context c)) interp))) c,
     fst (Lua.loadbuffer (compiled c) (String.length (compiled c))
                         (c_str (context c)) interp),
     snd (Lua.loadbuffer (compiled c) (String.length (compiled c))
                         (c_str (context c)) interp)).
Proof.
  intros Hc. unfold load, check_op.
  apply empty_false_iff in Hc. rewrite Hc. cbn [negb].
  now destruct (Lua.loadbuffer _ _ _ _).
Qed.

(** [load] on an empty chunk. *)
Lemma load_empty (interp : E) (c : dlua_chunk) :
  empty c = true -> load interp c = (with_chunk "" c, interp, -1000).
Proof.
  intros He. unfold load. rewrite He.
  unfold empty in He. apply andb_true_iff in He as [Hc _].
  now rewrite Hc.
Qed.

(** [load] on a chunk that holds source text only. *)
Lemma load_source (interp : E) (c : dlua_chunk) :
  compiled c = "" -> empty c = false ->
  load interp c
  = let '(interp1, r) :=
      Lua.loadstring (c_str (chunk c)) (c_str (context c)) interp in
    let c1 := with_error (Lua.error interp1) c in
    if negb (r =? 0) then (c1, interp1, r)
    else
      let '(interp2, err2, pieces) := Lua.lua_dump interp1 in
      let '(c2, interp3) :=
        if negb (err2 =? 0) then
          (with_error (match Lua.lua_tostring (-1) interp2 with
                       | Some m => m
                       | None => "Unknown error compiling chunk"
                       end) c1,
           Lua.lua_pop 2 interp2)
        else (c1, interp2) in
      (with_chunk "" (with_compiled (String.concat "" pieces) c2),
       interp3, err2).
Proof.
  intros Hc He. unfold load, check_op. rewrite Hc, He. cbn [empty negb].
  destruct (Lua.loadstring _ _ _) as [interp1 r].
  destruct (negb (r =? 0)); [reflexivity|].
  destruct (Lua.lua_dump interp1) as [[interp2 err2] pieces].
  rewrite writer_fold. cbn [append].
  reflexivity.
Qed.

End WithInterpreter.

Section ChunkStates.
Context {E : Type} `{Lua.CLua E}.

(** C9.  A chunk with no bytecode whose source is empty or white space
    only counts as empty; [load] clears the source and returns -1000
    with the interpreter as it found it, and [load_call] returns 0, also
    with the interpreter as it found it: nothing was loaded or called. *)
Theorem empty_chunk_not_loaded (interp : E) (fn : option string)
        (c : dlua_chunk) :
  compiled c = "" -> all_space (chunk c) = true ->
  empty c = true
  /\ load interp c = (with_chunk "" c, interp, -1000)
  /\ load_call interp fn c = (with_chunk "" c, interp, 0).
Proof.
  intros Hc Hs.
  assert (He : empty c = true).
  { unfold empty. rewrite Hc, (trimmed_all_space _ Hs). reflexivity. }
  split; [exact He|]. split.
  - now apply load_empty.
  - unfold load_call. rewrite (load_empty _ _ He). reflexivity.
Qed.

(** C5 (amended).  On a chunk that holds bytecode, [load] is the one
    call of [loadbuffer] on the stored bytecode: the result and the
    interpreter are those of that call, and no member of the chunk but
    [error] changes; [error] becomes the error text of the interpreter.  On a chunk that holds source only, a [load] that returns 0
    has loaded the source text and dumped it, stored the dump in
    [compiled] and cleared the source. *)
Theorem load_memoizes (interp : E) (c : dlua_chunk) :
  (compiled c <> "" ->
   exists interp1 r,
     Lua.loadbuffer (compiled c) (String.length (compiled c))
                    (c_str (context c)) interp = (interp1, r)
     /\ load interp c = (with_error (Lua.error interp1) c, interp1, r))
  /\ (compiled c = "" -> empty c = false ->
      forall c' interp',
        load interp c = (c', interp', 0) ->
        exists interp1 pieces,
          Lua.loadstring (c_str (chunk c)) (c_str (context c)) interp
          = (interp1, 0)
          /\ Lua.lua_dump interp1 = (interp', 0, pieces)
          /\ c' = with_chunk ""
                    (with_compiled (String.concat "" pieces)
                       (with_error (Lua.error interp1) c))
          /\ chunk c' = "" /\ compiled c' = String.concat "" pieces).
Proof.
  split.
  - intros Hc. rewrite (load_compiled _ _ Hc).
    destruct (Lua.loadbuffer _ _ _ _) as [interp1 r] eqn:Hlb.
    exists interp1, r. split; reflexivity.
  - intros Hc He c' interp' Hload.
    rewrite (load_source _ _ Hc He) in Hload.
    destruct (Lua.loadstring _ _ _) as [interp1 r] eqn:Hls.
    destruct (r =? 0) eqn:Hr; cbn [negb] in Hload.
    + apply Z.eqb_eq in Hr. subst r.
      destruct (Lua.lua_dump interp1) as [[interp2 err2] pieces] eqn:Hd.
      destruct (err2 =? 0) eqn:Hr2; cbn [negb] in Hload.
      * apply Z.eqb_eq in Hr2. subst err2.
        injection Hload as <- <-.
        exists interp1, pieces. repeat split; try reflexivity; assumption.
      * injection Hload as _ _ Hz. subst err2. discriminate.
    + injection Hload as _ _ Hz. subst r. discriminate.
Qed.

(** C4 (amended).  A chunk just constructed or cleared holds neither
    source nor bytecode; [set_file], [load], [load_call] and [read] keep
    at most one of the two non-empty; [set_chunk] and [add] write the
    source and leave the bytecode as it is, so they keep at most one of
    the two non-empty on a chunk that holds no bytecode. *)
Theorem exclusive_kept (c : dlua_chunk) :
  (forall ctx, exclusive (new_chunk ctx))
  /\ exclusive (clear c)
  /\ (forall s, chunk (set_chunk s c) = s
               /\ compiled (set_chunk s c) = compiled c)
  /\ (forall line s, compiled (add line s c) = compiled c)
  /\ (forall s, compiled c = "" -> exclusive (set_chunk s c))
  /\ (forall line s, compiled c = "" -> exclusive (add line s c))
  /\ (forall s, exclusive c -> exclusive (set_file s c))
  /\ (forall interp : E, exclusive c -> exclusive (fst (fst (load interp c))))
  /\ (forall (interp : E) fn,
        exclusive c -> exclusive (fst (fst (load_call interp fn c))))
  /\ (forall max cap inf c' rest,
        read max cap inf c = Some (c', rest) -> exclusive c').
Proof.
  assert (Hload : forall interp : E,
             exclusive c -> exclusive (fst (fst (load interp c)))).
  { intros interp Hex.
    destruct (string_dec (compiled c) "") as [Hc|Hc].
    - destruct (empty c) eqn:He.
      + rewrite (load_empty _ _ He). now left.
      + rewrite (load_source _ _ Hc He).
        destruct (Lua.loadstring _ _ _) as [interp1 r].
        destruct (negb (r =? 0)); [now right|].
        destruct (Lua.lua_dump interp1) as [[interp2 err2] pieces].
        destruct (negb (err2 =? 0)); now left.
    - rewrite (load_compiled _ _ Hc). exact Hex. }
  repeat apply conj.
  - intros ctx. now left.
  - now left.
  - intros s. split; reflexivity.
  - intros line s. apply add_compiled.
  - intros s Hc. now right.
  - intros line s Hc. right. now rewrite add_compiled.
  - intros s Hex. exact Hex.
  - exact Hload.
  - intros interp fn Hex. specialize (Hload interp Hex).
    unfold load_call.
    destruct (load interp c) as [[c1 interp1] err]. cbn [fst] in Hload.
    destruct (err =? -1000); [exact Hload|].
    destruct (negb (err =? 0)); [exact Hload|].
    destruct (Lua.callfn _ _ _ _) as [interp2 ok]. exact Hload.
  - intros max cap inf c' rest Hread. unfold read in Hread.
    destruct (Files.readByte inf) as [[type inf1]|]; [|discriminate].
    destruct (type =? CT_EMPTY).
    { injection Hread as <- _. now left. }
    destruct (type =? CT_SOURCE).
    { destruct (Files.readString inf1 max) as [[s r]|]; [|discriminate].
      destruct (Files.readString r cap) as [[f r2]|]; [|discriminate].
      destruct (Files.readLong r2) as [[n r3]|]; [|discriminate].
      injection Hread as <- _. now right. }
    destruct (type =? CT_COMPILED).
    { destruct (Files.readString inf1 max) as [[s r]|]; [|discriminate].
      destruct (Files.readString r cap) as [[f r2]|]; [|discriminate].
      destruct (Files.readLong r2) as [[n r3]|]; [|discriminate].
      injection Hread as <- _. now left. }
    destruct (Files.readString inf1 cap) as [[f r2]|]; [|discriminate].
    destruct (Files.readLong r2) as [[n r3]|]; [|discriminate].
    injection Hread as <- _. now left.
Qed.

End ChunkStates.

Lemma empty_chunk_not_loaded_witness :
  load_call Lua.recorder_init (Some "f")
            (set_chunk "   " (new_chunk "main"))
  = (new_chunk "main", Lua.recorder_init, 0).
Proof.
  exact (proj2 (proj2 (empty_chunk_not_loaded
                         Lua.recorder_init (Some "f")
                         (set_chunk "   " (new_chunk "main"))
                         eq_refl eq_refl))).
Defined.

Lemma load_memoizes_witness :
  (exists interp1 r,
      Lua.loadbuffer (compiled compiled_example)
                     (String.length (compiled compiled_example))
                     (c_str (context compiled_example)) Lua.recorder_init
      = (interp1, r)
      /\ load Lua.recorder_init compiled_example
         = (with_error (Lua.error interp1) compiled_example, interp1, r))
  /\ (exists interp1 pieces,
        Lua.loadstring (c_str "return 1") (c_str "main") Lua.recorder_init
        = (interp1, 0)
        /\ Lua.lua_dump interp1
           = (snd (fst (load Lua.recorder_init
                             (set_chunk "return 1" (new_chunk "main")))),
              0, pieces)
        /\ compiled_example
           = with_chunk ""
               (with_compiled (String.concat "" pieces)
                  (with_error (Lua.error interp1)
                     (set_chunk "return 1" (new_chunk "main"))))
        /\ chunk compiled_example = ""
        /\ compiled compiled_example = String.concat "" pieces).
Proof.
  split.
  - apply (proj1 (load_memoizes Lua.recorder_init compiled_example)).
    vm_compute. discriminate.
  - exact (proj2 (load_memoizes Lua.recorder_init
                    (set_chunk "return 1" (new_chunk "main")))
                 eq_refl eq_refl compiled_example _ eq_refl).
Defined.

Lemma exclusive_kept_witness :
  exclusive (set_chunk "return 2" (new_chunk "main"))
  /\ exclusive compiled_example.
Proof.
  destruct (@exclusive_kept Lua.recorder _
              (set_chunk "return 1" (new_chunk "main")))
    as (_ & _ & _ & _ & _ & _ & _ & Hload & _).
  destruct (@exclusive_kept Lua.recorder _ (new_chunk "main"))
    as (_ & _ & _ & _ & Hset & _).
  split.
  - apply Hset. reflexivity.
  - apply Hload. right. reflexivity.
Defined.

(** C4 as worded fails: after [load] has compiled a chunk, [set_chunk]
    stores the new source and the bytecode stays, so both are
    non-empty. *)
Lemma set_chunk_keeps_compiled :
  compiled compiled_example = "LUAreturn 1"
  /\ chunk compiled_example = ""
  /\ chunk (set_chunk "return 2" compiled_example) = "return 2"
  /\ compiled (set_chunk "return 2" compiled_example) = "LUAreturn 1"
  /\ ~ exclusive (set_chunk "return 2" compiled_example).
Proof.
  repeat split; try reflexivity.
  intros [Hs|Hb]; vm_compute in Hs || vm_compute in Hb; discriminate.
Qed.

End LoadFacts.

(** ** Searching and cutting strings *)

Module SearchFacts.
Import CxxString StringFacts.

Lemma substr_from_app (a b : string) :
  substr_from (String.length a) (a ++ b) = b.
Proof. induction a as [|x a IH]; simpl; [now destruct b | exact IH]. Qed.

Lemma substring_zero (n : nat) (a b : string) :
  n = String.length a -> String.substring 0 n (a ++ b) = a.
Proof.
  intros ->. induction a as [|x a IH]; simpl.
  - now destruct b.
  - now rewrite IH.
Qed.

Lemma substring_app (n : nat) (a b : string) :
  String.substring (String.length a) n (a ++ b) = String.substring 0 n b.
Proof. induction a as [|x a IH]; simpl; [reflexivity | exact IH]. Qed.

Lemma substr_prefix (a b : string) :
  substr 0 (String.length a) (a ++ b) = a.
Proof. unfold substr. now apply substring_zero. Qed.

Lemma substr_middle (a b r : string) :
  substr (String.length a) (String.length b) (a ++ b ++ r) = b.
Proof. unfold substr. rewrite substring_app. now apply substring_zero. Qed.

(** A character that does not occur in [d] is first found behind it. *)
Lemma find_at_char_after (ch : ascii) (d rest : string) :
  (forall x, String.get x d <> Some ch) ->
  forall pos : nat,
    find_at (String ch "") (d ++ String ch rest) pos
    = Some (pos + String.length d)%nat.
Proof.
  induction d as [|x d IH]; intros Hfree pos.
  - cbn. rewrite Ascii.eqb_refl. cbn. f_equal. lia.
  - cbn [append find_at starts_with].
    destruct (Ascii.eqb ch x) eqn:E.
    + apply Ascii.eqb_eq in E. subst x. now destruct (Hfree O).
    + cbn [andb]. rewrite IH.
      * cbn [String.length]. f_equal. lia.
      * intros k. exact (Hfree (S k)).
Qed.

Lemma find_char_after (ch : ascii) (a d rest : string) :
  (forall x, String.get x d <> Some ch) ->
  find_char ch (a ++ d ++ String ch rest) (String.length a)
  = Some (String.length a + String.length d)%nat.
Proof.
  intros Hfree. unfold find_char.
  rewrite substr_from_app. now apply find_at_char_after.
Qed.

End SearchFacts.

(** ** atoi and the conversion %d *)

Module NumberFacts.
Import CxxString CInt ChunkSpec StringFacts AddFacts.

Lemma digit_cases (d : Z) :
  0 <= d <= 9 ->
  d = 0 \/ d = 1 \/ d = 2 \/ d = 3 \/ d = 4 \/ d = 5 \/ d = 6 \/ d = 7
  \/ d = 8 \/ d = 9.
Proof. lia. Qed.

Lemma digit_of_char (d : Z) : 0 <= d <= 9 -> digit_of (digit_char d) = Some d.
Proof.
  intros H. destruct (digit_cases d H) as [E|[E|[E|[E|[E|[E|[E|[E|[E|E]]]]]]]]];
    subst d; reflexivity.
Qed.

Lemma decimal_digits_acc (fuel : nat) :
  forall (n : Z) (acc : string),
    decimal_digits fuel n acc = decimal_digits fuel n "" ++ acc.
Proof.
  induction fuel as [|f IH]; intros n acc; cbn [decimal_digits].
  - reflexivity.
  - destruct (n <? 10); [reflexivity|].
    rewrite (IH _ (String _ acc)), (IH _ (String _ "")).
    now rewrite app_assoc.
Qed.

Lemma all_digits_app (a b : string) :
  all_digits a = true -> all_digits b = true -> all_digits (a ++ b) = true.
Proof.
  induction a as [|x a IH]; cbn; intros Ha Hb; [exact Hb|].
  destruct (digit_of x); [now apply IH | discriminate].
Qed.

Lemma decimal_digits_all (fuel : nat) :
  forall n : Z, 0 <= n -> all_digits (decimal_digits fuel n "") = true.
Proof.
  induction fuel as [|f IH]; intros n Hn; cbn [decimal_digits].
  - reflexivity.
  - assert (Hd : 0 <= n mod 10 <= 9)
      by (pose proof (Z.mod_pos_bound n 10); lia).
    destruct (n <? 10).
    + cbn. now rewrite (digit_of_char _ Hd).
    + rewrite decimal_digits_acc. apply all_digits_app.
      * apply IH. apply Z.div_pos; lia.
      * cbn. now rewrite (digit_of_char _ Hd).
Qed.

Lemma atoi_digits_app (a b : string) :
  all_digits a = true ->
  forall acc : Z, atoi_digits (a ++ b) acc = atoi_digits b (atoi_digits a acc).
Proof.
  induction a as [|x a IH]; cbn; intros Ha acc; [reflexivity|].
  destruct (digit_of x); [now apply IH | discriminate].
Qed.

(** The digit loop of [atoi] reads back what [decimal_digits] wrote. *)
Lemma atoi_decimal_digits (fuel : nat) :
  forall n : Z,
    0 <= n < 10 ^ Z.of_nat fuel ->
    atoi_digits (decimal_digits fuel n "") 0 = n.
Proof.
  induction fuel as [|f IH]; intros n Hn.
  - cbn in Hn. cbn. lia.
  - cbn [decimal_digits].
    assert (Hd : 0 <= n mod 10 <= 9)
      by (pose proof (Z.mod_pos_bound n 10); lia).
    destruct (n <? 10) eqn:Hlt.
    + apply Z.ltb_lt in Hlt. cbn [atoi_digits].
      rewrite (digit_of_char _ Hd).
      rewrite Z.mod_small by lia. lia.
    + rewrite decimal_digits_acc.
      rewrite atoi_digits_app
        by (apply decimal_digits_all; apply Z.div_pos; lia).
      rewrite IH.
      * cbn [atoi_digits]. rewrite (digit_of_char _ Hd).
        pose proof (Z.div_mod n 10 ltac:(lia)). lia.
      * split; [apply Z.div_pos; lia|].
        apply Z.div_lt_upper_bound; [lia|].
        replace (Z.of_nat (S f)) with (Z.succ (Z.of_nat f)) in Hn by lia.
        rewrite Z.pow_succ_r in Hn by lia. lia.
Qed.

Lemma decimal_digits_head (fuel : nat) (n : Z) :
  0 <= n ->
  exists d rest,
    0 <= d <= 9
    /\ decimal_digits (S fuel) n "" = String (digit_char d) rest.
Proof.
  revert n. induction fuel as [|f IH]; intros n Hn.
  - exists (n mod 10), "". split.
    + pose proof (Z.mod_pos_bound n 10); lia.
    + cbn. now destruct (n <? 10).
  - change (decimal_digits (S (S f)) n "")
      with (if n <? 10 then String (digit_char (n mod 10)) ""
            else decimal_digits (S f) (n / 10)
                                (String (digit_char (n mod 10)) "")).
    destruct (n <? 10).
    + exists (n mod 10), "". split; [|reflexivity].
      pose proof (Z.mod_pos_bound n 10); lia.
    + rewrite decimal_digits_acc.
      destruct (IH (n / 10)) as (d & rest & Hd & E);
        [apply Z.div_pos; lia|].
      rewrite E. exists d. eexists. split; [exact Hd|reflexivity].
Qed.

Lemma atoi_digit_head (d : Z) (rest : string) :
  0 <= d <= 9 ->
  atoi (String (digit_char d) rest)
  = wrap_int (atoi_digits (String (digit_char d) rest) 0).
Proof.
  intros H. destruct (digit_cases d H) as [E|[E|[E|[E|[E|[E|[E|[E|[E|E]]]]]]]]];
    subst d; reflexivity.
Qed.

(** [atoi] reads back an [int] written with ["%d"]. *)
Lemma atoi_format_d (n : Z) : int_range n -> atoi (format_d n) = n.
Proof.
  intros Hr. unfold format_d.
  assert (Hpow : 10 ^ Z.of_nat 10 = 10000000000) by reflexivity.
  destruct (n <? 0) eqn:Hneg.
  - apply Z.ltb_lt in Hneg.
    change (atoi (String "-" (decimal_digits 10 (- n) "")))
      with (wrap_int (- atoi_digits (decimal_digits 10 (- n) "") 0)).
    rewrite atoi_decimal_digits.
    + rewrite Z.opp_involutive. now apply wrap_int_id.
    + unfold int_range, INT_MIN, INT_MAX in Hr. lia.
  - apply Z.ltb_ge in Hneg.
    destruct (decimal_digits_head 9 n Hneg) as (d & rest & Hd & E).
    rewrite E, (atoi_digit_head _ _ Hd), <- E.
    rewrite atoi_decimal_digits.
    + now apply wrap_int_id.
    + unfold int_range, INT_MIN, INT_MAX in Hr. lia.
Qed.

Lemma all_digits_number_text (s : string) :
  all_digits s = true -> number_text s = true.
Proof.
  induction s as [|x s IH]; cbn; [reflexivity|].
  unfold number_char. destruct (digit_of x); [exact IH | discriminate].
Qed.

Lemma format_d_number_text (n : Z) : number_text (format_d n) = true.
Proof.
  unfold format_d. destruct (n <? 0) eqn:Hneg.
  - apply Z.ltb_lt in Hneg. cbn [number_text].
    rewrite all_digits_number_text by (apply decimal_digits_all; lia).
    reflexivity.
  - apply Z.ltb_ge in Hneg.
    apply all_digits_number_text, decimal_digits_all. exact Hneg.
Qed.

(** A character that is neither a digit nor the minus sign is not in a
    number text. *)
Lemma number_text_free (ch : ascii) (s : string) :
  number_char ch = false -> number_text s = true ->
  forall x, String.get x s <> Some ch.
Proof.
  intros Hch. induction s as [|y s IH]; cbn; intros Hs x.
  - discriminate.
  - apply andb_true_iff in Hs as [Hy Hs].
    destruct x as [|x].
    + intros E. injection E as ->. congruence.
    + now apply IH.
Qed.

Lemma c_str_number_text (s : string) :
  number_text s = true -> c_str s = s.
Proof.
  induction s as [|y s IH]; cbn; intros Hs; [reflexivity|].
  apply andb_true_iff in Hs as [Hy Hs].
  destruct (Ascii.eqb y nul) eqn:E.
  - apply Ascii.eqb_eq in E. subst y. discriminate.
  - now rewrite IH.
Qed.

Lemma wrap_int_pred (a : Z) : wrap_int (wrap_int a - 1) = wrap_int (a - 1).
Proof.
  unfold wrap_int. f_equal.
  replace ((a + 2147483648) mod 4294967296 - 2147483648 - 1 + 2147483648)
    with ((a + 2147483648) mod 4294967296 - 1) by lia.
  rewrite Zminus_mod_idemp_l. f_equal. lia.
Qed.

End NumberFacts.

(** ** Rewriting the chunk reference of an error line *)

Module RewriteFacts.
Import CxxString CInt Chunk ChunkSpec StringFacts AddFacts SearchFacts
       NumberFacts.

Lemma colon_not_number : number_char ":" = false.
Proof. reflexivity. Qed.

(** C2 (amended).  Let a line read [pre], then the reference
    [[string "c"]:] to the chunk's context [c], then the integer [n] in
    decimal, then a colon and the rest, where the reference is the first
    one in the line (the one [find] returns).  [rewrite_chunk_prefix]
    returns [pre], the file name (the context when the file name is
    empty), a colon, the number [n + first - 1], and the colon and the
    rest unchanged.  The numbers are [int]s. *)
Theorem rewrite_chunk_prefix_line (c : dlua_chunk) (pre rest : string)
        (n : Z) :
  find (contextm c) (pre ++ contextm c ++ format_d n ++ ":" ++ rest)
  = Some (String.length pre) ->
  int_range n -> int_range (n + first c - 1) ->
  rewrite_chunk_prefix (pre ++ contextm c ++ format_d n ++ ":" ++ rest) c
  = pre ++ shown_name c ++ ":" ++ format_d (n + first c - 1) ++ ":" ++ rest.
Proof.
  intros Hfind Hn Hres.
  unfold rewrite_chunk_prefix. rewrite Hfind.
  fold (shown_name c).
  set (m := contextm c) in *. set (d := format_d n) in *.
  assert (Hfree : forall x, String.get x d <> Some ":"%char)
    by (apply number_text_free;
        [exact colon_not_number | apply format_d_number_text]).
  assert (E1 : pre ++ m ++ d ++ ":" ++ rest
               = (pre ++ m) ++ d ++ String ":" rest)
    by now rewrite !app_assoc.
  assert (E2 : pre ++ m ++ d ++ ":" ++ rest
               = ((pre ++ m) ++ d) ++ String ":" rest)
    by now rewrite !app_assoc.
  assert (Hpe : find_char ":" (pre ++ m ++ d ++ ":" ++ rest)
                          (String.length pre + String.length m)
                = Some (String.length (pre ++ m) + String.length d)%nat).
  { rewrite <- length_app, E1. now apply find_char_after. }
  rewrite Hpe.
  replace (String.length (pre ++ m) + String.length d
           - (String.length pre + String.length m))%nat
    with (String.length d) by (rewrite length_app; lia).
  assert (Hnum : substr (String.length pre + String.length m)
                        (String.length d) (pre ++ m ++ d ++ ":" ++ rest)
                 = d).
  { rewrite <- length_app, E1. apply substr_middle. }
  assert (Hhead : substr 0 (String.length pre + String.length m)
                         (pre ++ m ++ d ++ ":" ++ rest)
                  = pre ++ m).
  { rewrite <- length_app, E1. apply substr_prefix. }
  assert (Htail : substr_from (String.length (pre ++ m) + String.length d)
                              (pre ++ m ++ d ++ ":" ++ rest)
                  = String ":" rest).
  { rewrite <- length_app, E2. apply substr_from_app. }
  rewrite Hnum, Hhead, Htail.
  clear Hfree E1 E2 Hpe Hnum Hhead Htail Hfind. subst d.
  rewrite (c_str_number_text _ (format_d_number_text n)).
  rewrite (atoi_format_d _ Hn).
  rewrite wrap_int_pred, (wrap_int_id _ Hres).
  unfold Libutil.make_stringf_d.
  set (d' := format_d (n + first c - 1)).
  rewrite <- length_app, substr_from_app.
  rewrite (app_assoc pre m), substr_prefix.
  reflexivity.
Qed.

(** C2 as worded fails on a line with two references: the first one is
    rewritten, the second one and its line number stay. *)
Lemma later_reference_kept :
  rewrite_chunk_prefix rethrown chunk1
  = "vault.des:7: " ++ contextm chunk1 ++ "7: boom"
  /\ ~ prefix_claim chunk1.
Proof.
  split; [reflexivity|].
  intros H.
  assert (Hn : int_range 7)
    by (unfold int_range, INT_MIN, INT_MAX; lia).
  assert (Hr : int_range (7 + first chunk1 - 1))
    by (unfold int_range, INT_MIN, INT_MAX; cbn; lia).
  specialize (H (contextm chunk1 ++ "3: ") " boom" 7 Hn Hr).
  vm_compute in H. discriminate H.
Qed.

Lemma rewrite_chunk_prefix_line_witness :
  rewrite_chunk_prefix
    ("" ++ contextm chunk1 ++ format_d 3 ++ ":" ++ " bad value") chunk1
  = "vault.des:7: bad value".
Proof.
  refine (rewrite_chunk_prefix_line chunk1 "" " bad value" 3 _ _ _).
  - reflexivity.
  - unfold int_range, INT_MIN, INT_MAX. lia.
  - unfold int_range, INT_MIN, INT_MAX. cbn. lia.
Defined.

End RewriteFacts.

(** ** Rewriting a multi-line error message *)

Module ErrorFacts.
Import CxxString CInt Chunk ChunkSpec StringFacts SearchFacts RewriteFacts.

Lemma starts_with_app (a b : string) : starts_with a (a ++ b) = true.
Proof.
  induction a as [|x a IH]; cbn; [reflexivity|].
  now rewrite Ascii.eqb_refl, IH.
Qed.

Lemma find_at_unfold (needle s : string) (pos : nat) :
  find_at needle s pos
  = if starts_with needle s then Some pos
    else match s with
         | EmptyString => None
         | String _ s' => find_at needle s' (S pos)
         end.
Proof. destruct s; reflexivity. Qed.

Lemma occurs_find (needle hay : string) :
  occurs_in needle hay -> find needle hay <> None.
Proof.
  intros (a & b & ->). unfold find. generalize O.
  induction a as [|x a IH]; intros pos; rewrite find_at_unfold.
  - cbn [append]. rewrite starts_with_app. discriminate.
  - cbn [append].
    destruct (starts_with needle (String x (a ++ needle ++ b)));
      [discriminate | apply IH].
Qed.

(** The loop, run over the lines from index [length pre] up to but not
    including [length pre + length seg], folds its body over [seg]. *)
Lemma rewrite_lines_segment (c : dlua_chunk) (seg : list string) :
  forall (pre post : list string) (fuel : nat) (acc : string * bool),
    (List.length seg <= fuel)%nat ->
    rewrite_lines fuel (Z.of_nat (List.length pre))
                  (Z.of_nat (List.length pre + List.length seg))
                  (pre ++ seg ++ post)%list c acc
    = fold_left (fun a st => rewrite_line st c a) seg acc.
Proof.
  induction seg as [|st seg IH]; intros pre post fuel acc Hfuel.
  - cbn [List.length fold_left]. rewrite Nat.add_0_r.
    destruct fuel; cbn [rewrite_lines]; [reflexivity|].
    now rewrite Z.ltb_irrefl.
  - destruct fuel as [|f]; [cbn in Hfuel; lia|].
    cbn [rewrite_lines fold_left].
    replace (Z.of_nat (List.length pre)
             <? Z.of_nat (List.length pre + List.length (st :: seg)))
      with true by (symmetry; apply Z.ltb_lt; cbn [List.length]; lia).
    rewrite Nat2Z.id.
    replace (nth (List.length pre) (pre ++ (st :: seg) ++ post)%list "")
      with st
      by (rewrite app_nth2, Nat.sub_diag by lia; reflexivity).
    specialize (IH (pre ++ [st])%list post f (rewrite_line st c acc)).
    rewrite List.length_app in IH. cbn [List.length] in IH.
    replace (Z.of_nat (List.length pre) + 1)
      with (Z.of_nat (List.length pre + 1)) by lia.
    replace (List.length pre + List.length (st :: seg))%nat
      with (List.length pre + 1 + List.length seg)%nat
      by (cbn [List.length]; lia).
    replace (pre ++ (st :: seg) ++ post)%list
      with ((pre ++ [st]) ++ seg ++ post)%list
      by (rewrite <- List.app_assoc; reflexivity).
    apply IH. cbn [List.length] in Hfuel. lia.
Qed.

Lemma fold_rewrite_line_written (c : dlua_chunk) (seg : list string) :
  forall msg : string,
    fst (fold_left (fun a st => rewrite_line st c a) seg (msg, true))
    = fold_left
        (fun m st' => m ++ String newline "" ++ rewrite_chunk_prefix st' c)
        (filter (mentions c) seg) msg.
Proof.
  induction seg as [|st seg IH]; intros msg; cbn [fold_left filter].
  - reflexivity.
  - unfold rewrite_line at 2. unfold mentions at 1.
    destruct (find (context c) st); cbn [negb fold_left]; apply IH.
Qed.

Lemma fold_rewrite_line_assemble (c : dlua_chunk) (seg : list string)
      (line0 : string) :
  fst (fold_left (fun a st => rewrite_line st c a) seg (line0, false))
  = assemble c line0 (filter (mentions c) seg).
Proof.
  induction seg as [|st seg IH]; cbn [fold_left filter].
  - reflexivity.
  - unfold rewrite_line at 2. unfold mentions at 1.
    destruct (find (context c) st); cbn [negb].
    + cbn [assemble]. apply fold_rewrite_line_written.
    + exact IH.
Qed.

(** C3 (amended).  When the message mentions the chunk reference
    somewhere after position 0, the result starts from the first line of
    the message, and only the lines from the third up to the one before
    the last are looked at: the first of them that mentions the context
    puts its rewritten location (file name and line number) and a colon
    in front of the message, each later one is appended on a line of its
    own, rewritten by [rewrite_chunk_prefix].  A message of fewer than
    four lines becomes its first line. *)
Theorem rewrite_chunk_errors_lines (c : dlua_chunk) (s : string) (k : nat) :
  find (contextm c) s = Some (S k) ->
  (forall line0 line1 mid lastl,
      Libutil.split_string newline s
      = (line0 :: line1 :: mid ++ [lastl])%list ->
      rewrite_chunk_errors s c
      = (true, assemble c line0 (filter (mentions c) mid)))
  /\ ((List.length (Libutil.split_string newline s) <= 3)%nat ->
      rewrite_chunk_errors s c
      = (true, nth 0 (Libutil.split_string newline s) "")).
Proof.
  intros Hfind. unfold rewrite_chunk_errors. rewrite Hfind. split.
  - intros line0 line1 mid lastl Hsplit. rewrite Hsplit. f_equal.
    cbn [nth].
    pose proof (rewrite_lines_segment c mid [line0; line1] [lastl]
                  (List.length (line0 :: line1 :: mid ++ [lastl]))
                  (line0, false)) as Hseg.
    cbn [List.length Nat.add] in Hseg.
    replace (Z.of_nat (List.length (line0 :: line1 :: mid ++ [lastl])) - 1)
      with (Z.of_nat (S (S (List.length mid))))
      by (cbn [List.length]; rewrite List.length_app; cbn [List.length]; lia).
    change (Z.of_nat 2) with 2 in Hseg.
    change ([line0; line1] ++ mid ++ [lastl])%list
      with (line0 :: line1 :: mid ++ [lastl])%list in Hseg.
    cbn [List.length]. rewrite Hseg.
    + apply fold_rewrite_line_assemble.
    + cbn [List.length]. rewrite List.length_app. lia.
  - intros Hlen. f_equal.
    destruct (Libutil.split_string newline s) as [|a [|b [|d [|e l]]]];
      cbn in Hlen; try lia; reflexivity.
Qed.

Lemma rewrite_chunk_errors_lines_witness :
  rewrite_chunk_errors traceback2 chunk1
  = (true,
     "vault.des:7: oops" ++ String newline "vault.des:13: in main chunk").
Proof.
  refine (proj1 (rewrite_chunk_errors_lines chunk1 traceback2 21 _)
                "oops" "stack traceback:"
                [contextm chunk1 ++ "3: in function 'f'";
                 contextm chunk1 ++ "9: in main chunk"]
                "[C]: ?" _);
    reflexivity.
Defined.

(** C3 as worded fails: the last line of [traceback] mentions the chunk
    and is skipped, the result is the first line alone. *)
Lemma last_line_skipped :
  find (contextm chunk1) traceback = Some 47%nat
  /\ rewrite_chunk_errors traceback chunk1 = (true, "oops")
  /\ ~ no_line_skipped chunk1 traceback.
Proof.
  split; [reflexivity|]. split; [reflexivity|].
  intros H.
  specialize (H (contextm chunk1 ++ "3: in main chunk")).
  apply occurs_find in H.
  - apply H. reflexivity.
  - vm_compute. tauto.
  - reflexivity.
Qed.

End ErrorFacts.

(** ** The binary format *)

Module PersistFacts.
Import CxxString CInt Chunk Files ChunkSpec StringFacts AddFacts.

Lemma Z_of_byte_of_Z (z : Z) : Z_of_byte (byte_of_Z z) = z mod 256.
Proof.
  unfold Z_of_byte, byte_of_Z.
  pose proof (Z.mod_pos_bound z 256 ltac:(lia)) as Hb.
  destruct (Byte.of_N (Z.to_N (z mod 256))) as [b|] eqn:E.
  - apply Byte.to_of_N in E. rewrite E. lia.
  - apply Byte.of_N_None_iff in E. lia.
Qed.

Lemma readByte_writeByte (b : Z) (rest : list byte) :
  0 <= b < 256 -> readByte (writeByte b ++ rest) = Some (b, rest).
Proof.
  intros Hb. cbn. rewrite Z_of_byte_of_Z, Z.mod_small by lia. reflexivity.
Qed.

Lemma readLong_writeLong (z : Z) (rest : list byte) :
  int_range z -> readLong (writeLong z ++ rest) = Some (z, rest).
Proof.
  intros Hz. cbn [writeLong readLong List.app].
  rewrite !Z_of_byte_of_Z. f_equal. f_equal.
  unfold int_range, INT_MIN, INT_MAX in Hz. unfold wrap_int.
  Z.div_mod_to_equations. lia.
Qed.

Lemma string_of_list_byte_length (l : list byte) :
  String.length (string_of_list_byte l) = List.length l.
Proof.
  unfold string_of_list_byte.
  induction l as [|b l IH]; cbn; [reflexivity | now rewrite IH].
Qed.

Lemma list_byte_of_string_length (s : string) :
  List.length (list_byte_of_string s) = String.length s.
Proof.
  unfold list_byte_of_string.
  induction s as [|a s IH]; cbn; [reflexivity | now rewrite IH].
Qed.

(** What [readString] finds where [writeString] wrote [s]: the first
    [cap] bytes of [s]. *)
Lemma readString_writeString (s : string) (cap : Z) (rest : list byte) :
  0 <= cap <= INT_MAX ->
  readString (writeString s cap ++ rest) cap
  = Some (string_of_list_byte
            (firstn (Z.to_nat cap) (list_byte_of_string s)),
          rest).
Proof.
  intros Hcap. unfold readString, writeString.
  set (body := firstn (Z.to_nat cap) (list_byte_of_string s)).
  assert (Hlen : Z.of_nat (List.length body) <= cap).
  { unfold body. pose proof (firstn_le_length (Z.to_nat cap)
                                               (list_byte_of_string s)).
    rewrite length_firstn. lia. }
  rewrite <- List.app_assoc, readLong_writeLong
    by (unfold int_range, INT_MIN, INT_MAX in *; lia).
  replace (Z.of_nat (List.length body) <? 0) with false
    by (symmetry; apply Z.ltb_ge; lia).
  replace (cap <? Z.of_nat (List.length body)) with false
    by (symmetry; apply Z.ltb_ge; lia).
  replace (Z.of_nat (List.length (body ++ rest))
           <? Z.of_nat (List.length body)) with false
    by (symmetry; apply Z.ltb_ge; rewrite List.length_app; lia).
  cbn [orb]. rewrite Nat2Z.id.
  rewrite firstn_app, Nat.sub_diag, firstn_all, firstn_O, List.app_nil_r.
  rewrite skipn_app, Nat.sub_diag, skipn_all. reflexivity.
Qed.

(** A string within the cap is read back whole. *)
Lemma readString_writeString_whole (s : string) (cap : Z)
      (rest : list byte) :
  Z.of_nat (String.length s) <= cap -> cap <= INT_MAX ->
  readString (writeString s cap ++ rest) cap = Some (s, rest).
Proof.
  intros Hs Hcap. rewrite readString_writeString by lia.
  rewrite firstn_all2 by (rewrite list_byte_of_string_length; lia).
  now rewrite string_of_list_byte_of_string.
Qed.

(** [write] on a chunk that holds bytecode. *)
Lemma write_compiled (max cap : Z) (c : dlua_chunk) :
  compiled c <> "" ->
  write max cap c
  = (writeByte CT_COMPILED
     ++ writeString (compiled c) max
     ++ writeString (file c) cap
     ++ writeLong (first c))%list.
Proof.
  intros Hc. unfold write, empty.
  apply empty_false_iff in Hc. rewrite Hc. cbn [andb negb].
  now rewrite <- !List.app_assoc.
Qed.

(** C1 (amended).  A chunk that holds bytecode of at most
    [LUA_CHUNK_MAX_SIZE] bytes, with a file name within the cap of its
    [writeString] call (both caps being [int]s), is read back from what
    [write] wrote with the same bytecode, file name and [first], an empty
    source, and the rest of the stream left to read. *)
Theorem write_read_compiled (max cap : Z) (c into : dlua_chunk)
        (rest : list byte) :
  compiled c <> "" -> int_range (first c) ->
  Z.of_nat (String.length (compiled c)) <= max -> max <= INT_MAX ->
  Z.of_nat (String.length (file c)) <= cap -> cap <= INT_MAX ->
  read max cap (write max cap c ++ rest) into
  = Some (with_first (first c)
            (with_file (file c)
               (with_compiled (compiled c) (clear into))),
          rest).
Proof.
  intros Hc Hf Hmax Hmax' Hcap Hcap'.
  rewrite (write_compiled _ _ _ Hc). unfold read.
  rewrite <- !List.app_assoc.
  rewrite readByte_writeByte by (unfold CT_COMPILED; lia).
  change (CT_COMPILED =? CT_EMPTY) with false.
  change (CT_COMPILED =? CT_SOURCE) with false.
  change (CT_COMPILED =? CT_COMPILED) with true. cbv iota.
  rewrite readString_writeString_whole by assumption.
  rewrite readString_writeString_whole by assumption.
  rewrite readLong_writeLong by assumption.
  reflexivity.
Qed.

(** The bytecode [read] finds is never longer than the cap. *)
Lemma read_compiled_capped (max cap : Z) (c into c' : dlua_chunk)
      (rest : list byte) :
  compiled c <> "" -> int_range max ->
  read max cap (write max cap c) into = Some (c', rest) ->
  (String.length (compiled c') <= Z.to_nat max)%nat.
Proof.
  intros Hc Hmax Hread.
  rewrite (write_compiled _ _ _ Hc) in Hread. unfold read in Hread.
  rewrite readByte_writeByte in Hread by (unfold CT_COMPILED; lia).
  change (CT_COMPILED =? CT_EMPTY) with false in Hread.
  change (CT_COMPILED =? CT_SOURCE) with false in Hread.
  change (CT_COMPILED =? CT_COMPILED) with true in Hread. cbv iota in Hread.
  destruct (Z_lt_le_dec max 0) as [Hneg|Hpos].
  - unfold readString at 1, writeString at 1 in Hread.
    replace (Z.to_nat max) with O in Hread by lia.
    cbn [firstn List.length List.app] in Hread.
    rewrite <- List.app_assoc, readLong_writeLong in Hread
      by (unfold int_range, INT_MIN, INT_MAX; cbn; lia).
    replace (max <? Z.of_nat 0) with true in Hread
      by (symmetry; apply Z.ltb_lt; lia).
    rewrite orb_true_r in Hread. cbn in Hread. discriminate.
  - rewrite readString_writeString in Hread
      by (unfold int_range, INT_MIN, INT_MAX in *; lia).
    destruct (readString _ cap) as [[f r2]|]; [|discriminate].
    destruct (readLong r2) as [[n r3]|]; [|discriminate].
    injection Hread as <- _. cbn [compiled with_first with_file
                                  with_compiled].
    rewrite string_of_list_byte_length, length_firstn. lia.
Qed.

Lemma write_read_compiled_witness :
  read 65536 200 (write 65536 200 compiled_example ++ [x2a])
       (new_chunk "other")
  = Some (with_first (-1)
            (with_file ""
               (with_compiled "LUAreturn 1" (new_chunk "other"))),
          [x2a]).
Proof.
  refine (write_read_compiled 65536 200 compiled_example
            (new_chunk "other") [x2a] _ _ _ _ _ _);
    try (unfold int_range, INT_MIN, INT_MAX); cbn; try lia.
  discriminate.
Defined.

(** C1 as worded fails whatever the value of [LUA_CHUNK_MAX_SIZE]:
    with the capped strings of the format, what [read] finds is never
    longer than the cap, so bytecode one byte longer than the cap does
    not come back identical. *)
Lemma roundtrip_claim_fails :
  ~ exists max cap : Z, int_range max /\ roundtrip_claim max cap.
Proof.
  intros (max & cap & Hmax & Hclaim).
  set (c := with_compiled (replicate (S (Z.to_nat max)) "x")
                          (new_chunk "main")).
  assert (Hc : compiled c <> "") by discriminate.
  destruct (Hclaim c (new_chunk "main") Hc) as (c' & rest & Hread & E & _).
  - cbn. unfold int_range, INT_MIN, INT_MAX. lia.
  - apply (read_compiled_capped _ _ _ _ _ _ Hc Hmax) in Hread.
    rewrite E in Hread. cbn [compiled c with_compiled] in Hread.
    rewrite replicate_length in Hread. lia.
Qed.

End PersistFacts.

(** ** dgn_add_depths *)

Module DepthFacts.
Import CxxString CInt Dgn DepthSpec.

Section AnyParser.
Variable parse : string -> string + level_range.

Lemma add_depths_inner_map (fuel : nat) :
  forall (i size : Z) (frags : list string) (st : dgn_state),
    map_depths (snd (fst (add_depths_inner parse fuel i size frags st)))
    = map_depths st.
Proof.
  induction fuel as [|f IH]; intros i size frags st; cbn; [reflexivity|].
  destruct (i <? size); [|reflexivity].
  destruct (parse (nth 0 frags "")); [reflexivity|].
  now rewrite IH.
Qed.

Lemma add_depths_outer_map (fuel : nat) :
  forall (i e : Z) (ls : lua_stack) (st : dgn_state),
    map_depths (fst (add_depths_outer parse fuel i e ls st)) = map_depths st.
Proof.
  induction fuel as [|f IH]; intros i e ls st; cbn [add_depths_outer];
    [reflexivity|].
  destruct (i <=? e); [|reflexivity].
  destruct (luaL_checkstring ls i) as [depth|msg]; [|reflexivity].
  pose proof (add_depths_inner_map
                (S (Z.to_nat (Z.of_nat (List.length
                                          (Libutil.split_string
                                             "," (c_str depth)))
                              - i)))
                i (Z.of_nat (List.length
                               (Libutil.split_string "," (c_str depth))))
                (Libutil.split_string "," (c_str depth)) st) as Hin.
  destruct (add_depths_inner _ _ _ _ _ _) as [[i' st'] thrown].
  cbn [fst snd] in Hin.
  destruct thrown; [exact Hin|]. now rewrite IH.
Qed.

(** Whatever the arguments, [dgn_add_depths] leaves the depths of the
    map as they are: the ranges it parses go to [dgn_default_depths]. *)
Lemma dgn_add_depths_map_untouched (drs : depth_ref) (ls : lua_stack)
      (s e : Z) (st : dgn_state) :
  map_depths (fst (dgn_add_depths parse drs ls s e st)) = map_depths st.
Proof. apply add_depths_outer_map. Qed.

End AnyParser.

(** C6 on the code.  For the call [depth(map, "1,2")] the claim has the
    two ranges appended to the depths of the map; the code appends
    nothing anywhere.  For [default_depth("1,2", "3")] the claim has
    three ranges appended; the code appends the first fragment once and
    never looks at the second argument. *)
Theorem dgn_add_depths_diverges :
  dgn_add_depths parse_example MapDepths [LMap; LString "1,2"] 2 2 no_depths
  = (no_depths, Returns tt)
  /\ dgn_add_depths_spec parse_example MapDepths [LMap; LString "1,2"] 2 2
                         no_depths
     = ({| dgn_default_depths := [];
           map_depths := [depth_at 1; depth_at 2] |}, Returns tt)
  /\ dgn_add_depths parse_example DefaultDepths
                    [LString "1,2"; LString "3"] 1 2 no_depths
     = ({| dgn_default_depths := [depth_at 1]; map_depths := [] |},
        Returns tt)
  /\ dgn_add_depths_spec parse_example DefaultDepths
                         [LString "1,2"; LString "3"] 1 2 no_depths
     = ({| dgn_default_depths := [depth_at 1; depth_at 2; depth_at 3];
           map_depths := [] |}, Returns tt).
Proof. repeat split; reflexivity. Qed.

End DepthFacts.

(** ** The flood-fill search finds exactly the reachable points *)

Module FloodFacts.
Import Flood FloodSpec.

Lemma coord_eqb_eq (a b : coord_def) : coord_eqb a b = true <-> a = b.
Proof.
  destruct a as [ax ay], b as [bx b_y]. unfold coord_eqb. cbn [x y].
  rewrite andb_true_iff, !Z.eqb_eq. split.
  - intros [-> ->]. reflexivity.
  - intros E. injection E. auto.
Qed.

Lemma mem_In (c : coord_def) (l : list coord_def) :
  mem c l = true <-> In c l.
Proof.
  induction l as [|d l IH]; cbn [mem In].
  - split; [discriminate | tauto].
  - rewrite orb_true_iff, coord_eqb_eq, IH.
    split; (intros [H|H]; [left; congruence | right; exact H]).
Qed.

Lemma mem_not_In (c : coord_def) (l : list coord_def) :
  mem c l = false <-> ~ In c l.
Proof.
  rewrite <- mem_In. destruct (mem c l); split; congruence.
Qed.

Lemma dedup_In (c : coord_def) (l : list coord_def) :
  In c (dedup l) <-> In c l.
Proof.
  induction l as [|d l IH]; cbn [dedup In]; [tauto|].
  destruct (mem d l) eqn:E.
  - rewrite IH. split; [tauto|].
    intros [<-|H]; [now apply mem_In | exact H].
  - cbn [In]. rewrite IH. tauto.
Qed.

Lemma dedup_NoDup (l : list coord_def) : NoDup (dedup l).
Proof.
  induction l as [|d l IH]; cbn [dedup]; [constructor|].
  destruct (mem d l) eqn:E; [exact IH|].
  constructor; [|exact IH].
  rewrite dedup_In. now apply mem_not_In.
Qed.

Section Search.
Variable fgrd : coord_def -> bool.
Variable bound_check : coord_def -> bool.
Variable dirs : list (Z * Z).
Variable max_cells : nat.

(** No more than [max_cells] positions are within bounds. *)
Hypothesis bounded :
  forall l : list coord_def,
    NoDup l -> (forall c, In c l -> bound_check c = true) ->
    (List.length l <= max_cells)%nat.

Local Abbreviation reachable := (FloodSpec.reachable fgrd bound_check dirs).
Local Abbreviation search_inv := (FloodSpec.search_inv fgrd bound_check dirs).

Lemma reachable_passable (sp p : coord_def) :
  reachable sp p -> passable fgrd bound_check p = true.
Proof. intros H. destruct H; assumption. Qed.

Lemma expand_In (frontier visited : list coord_def) (d : coord_def) :
  In d (expand fgrd bound_check dirs frontier visited)
  <-> passable fgrd bound_check d = true
      /\ ~ In d visited
      /\ exists c, In c frontier /\ In d (neighbours dirs c).
Proof.
  unfold expand.
  rewrite dedup_In, filter_In, in_flat_map, andb_true_iff, negb_true_iff,
    mem_not_In.
  tauto.
Qed.

Lemma search_inv_init (sp : coord_def) :
  let init := if passable fgrd bound_check sp then [sp] else [] in
  search_inv sp init init.
Proof.
  cbn zeta. destruct (passable fgrd bound_check sp) eqn:Hp.
  - repeat apply conj.
    + constructor; [intros []|constructor].
    + intros v [<-|[]]. now constructor.
    + apply incl_refl.
    + intros v d Hv _ _. now right.
    + intros _. now left.
  - repeat apply conj.
    + constructor.
    + intros v [].
    + apply incl_refl.
    + intros v d [].
    + intros H. congruence.
Qed.

Lemma search_inv_step (sp : coord_def) (frontier visited : list coord_def) :
  search_inv sp frontier visited ->
  search_inv sp (expand fgrd bound_check dirs frontier visited)
             (expand fgrd bound_check dirs frontier visited ++ visited)%list.
Proof.
  intros (Hnd & Hreach & Hincl & Hclosed & Hsp).
  repeat apply conj.
  - apply NoDup_app; [apply dedup_NoDup | exact Hnd |].
    intros a Ha. apply expand_In in Ha. tauto.
  - intros v Hv. apply in_app_or in Hv as [Hv|Hv]; [|now apply Hreach].
    apply expand_In in Hv as (Hp & _ & c & Hc & Hd).
    apply (reach_step fgrd bound_check dirs sp c v); auto.
  - intros v Hv. apply in_or_app. now left.
  - intros v d Hv Hd Hp.
    apply in_app_or in Hv as [Hv|Hv]; [now right|].
    left. apply in_or_app.
    destruct (mem d visited) eqn:Hm.
    + right. now apply mem_In.
    + apply mem_not_In in Hm.
      destruct (Hclosed v d Hv Hd Hp) as [Hin|Hfr]; [now right|].
      left. apply expand_In. split; [exact Hp|]. split; [exact Hm|].
      now exists v.
  - intros Hp. apply in_or_app. right. now apply Hsp.
Qed.

(** Once the frontier is empty, every reachable position is visited. *)
Lemma search_inv_closed (sp : coord_def) (visited : list coord_def) :
  search_inv sp [] visited ->
  forall p, reachable sp p -> In p visited.
Proof.
  intros (_ & _ & _ & Hclosed & Hsp) p Hp.
  induction Hp as [Hpass|c d Hc IH Hd Hpass].
  - now apply Hsp.
  - destruct (Hclosed c d IH Hd Hpass) as [H|[]]. exact H.
Qed.

Lemma search_sound (needed : list coord_def) (sp : coord_def) (fuel : nat) :
  forall frontier visited,
    search_inv sp frontier visited ->
    search fgrd bound_check dirs needed fuel frontier visited = true ->
    forall p, In p needed -> reachable sp p.
Proof.
  induction fuel as [|f IH]; intros frontier visited Hinv Hs p Hp.
  - cbn [search] in Hs.
    destruct (forallb (fun q => mem q visited) needed) eqn:Hall;
      [|discriminate].
    rewrite forallb_forall in Hall.
    destruct Hinv as (_ & Hreach & _). apply Hreach, mem_In, Hall, Hp.
  - cbn [search] in Hs.
    destruct (forallb (fun q => mem q visited) needed) eqn:Hall.
    + rewrite forallb_forall in Hall.
      destruct Hinv as (_ & Hreach & _). apply Hreach, mem_In, Hall, Hp.
    + destruct frontier as [|c frontier]; [discriminate|].
      apply (IH _ _ (search_inv_step _ _ _ Hinv) Hs p Hp).
Qed.

Lemma search_complete (needed : list coord_def) (sp : coord_def)
      (fuel : nat) :
  forall frontier visited,
    search_inv sp frontier visited ->
    (max_cells < fuel + List.length visited)%nat ->
    (forall p, In p needed -> reachable sp p) ->
    search fgrd bound_check dirs needed fuel frontier visited = true.
Proof.
  induction fuel as [|f IH]; intros frontier visited Hinv Hfuel Hneeded.
  - exfalso. destruct Hinv as (Hnd & Hreach & _).
    pose proof (bounded visited Hnd) as Hb.
    assert (Hin : forall c, In c visited -> bound_check c = true).
    { intros c Hc. apply Hreach, reachable_passable in Hc.
      unfold passable in Hc. now apply andb_true_iff in Hc as [Hc _]. }
    specialize (Hb Hin). lia.
  - cbn [search].
    destruct (forallb (fun q => mem q visited) needed) eqn:Hall;
      [reflexivity|].
    assert (Hopen : ~ (forall p, reachable sp p -> In p visited)).
    { intros Hclosed.
      assert (forallb (fun q => mem q visited) needed = true); [|congruence].
      apply forallb_forall. intros q Hq. apply mem_In, Hclosed, Hneeded, Hq. }
    destruct frontier as [|c frontier].
    + exfalso. apply Hopen. now apply search_inv_closed.
    + pose proof (search_inv_step _ _ _ Hinv) as Hinv'.
      apply IH; [exact Hinv' | | exact Hneeded].
      destruct (expand fgrd bound_check dirs (c :: frontier) visited)
        as [|d next] eqn:Hnext.
      * exfalso. apply Hopen. now apply search_inv_closed.
      * cbn [List.length List.app]. cbn [List.length] in Hfuel.
        rewrite List.length_app. lia.
Qed.

(** The checker answers true exactly when every needed point can be
    reached from the start. *)
Lemma points_connected_from_iff (sp : coord_def) (f : flood_find) :
  points_connected_from fgrd bound_check dirs max_cells sp f = true
  <-> forall p, In p (needed_points f) -> reachable sp p.
Proof.
  unfold points_connected_from. split.
  - apply (search_sound (needed_points f) sp _ _ _ (search_inv_init sp)).
  - intros H.
    apply (search_complete (needed_points f) sp _ _ _ (search_inv_init sp));
      [lia | exact H].
Qed.

End Search.

End FloodFacts.

(** ** dgn_points_connected *)

Module ConnectedFacts.
Import Flood Dgn FloodSpec ConnectedSpec FloodFacts.
Local Open Scope list_scope.

Lemma map_bounds_check_spec (m : map_lines) (c : coord_def) :
  map_bounds_check m c = true
  <-> 0 <= x c < width m /\ 0 <= y c < height m.
Proof.
  unfold map_bounds_check.
  rewrite !andb_true_iff, !Z.geb_le, !Z.ltb_lt. tauto.
Qed.

Lemma in_all_cells (m : map_lines) (c : coord_def) :
  map_bounds_check m c = true -> In c (all_cells m).
Proof.
  intros H. apply map_bounds_check_spec in H as [Hx Hy].
  unfold all_cells. apply in_map_iff.
  exists (Z.to_nat (x c), Z.to_nat (y c)). split.
  - cbn [fst snd]. rewrite !Z2Nat.id by lia. now destruct c.
  - apply in_prod; apply in_seq; lia.
Qed.

Lemma map_bounded (m : map_lines) (l : list coord_def) :
  NoDup l -> (forall c, In c l -> map_bounds_check m c = true) ->
  (List.length l <= Z.to_nat (width m * height m))%nat.
Proof.
  intros Hnd Hin. destruct l as [|c l]; [cbn; lia|].
  assert (Hc : map_bounds_check m c = true) by (apply Hin; now left).
  apply map_bounds_check_spec in Hc as [Hx Hy].
  assert (Hincl : incl (c :: l) (all_cells m))
    by (intros d Hd; apply in_all_cells, Hin, Hd).
  apply (NoDup_incl_length Hnd) in Hincl.
  unfold all_cells in Hincl.
  rewrite length_map, length_prod, !length_seq in Hincl.
  rewrite Z2Nat.inj_mul by lia. exact Hincl.
Qed.

Lemma encode_length (seeds : list coord_def) :
  List.length (encode seeds) = (2 * List.length seeds)%nat.
Proof.
  induction seeds as [|p seeds IH]; cbn [encode flat_map List.length List.app];
    [reflexivity|].
  fold (encode seeds). rewrite IH. lia.
Qed.

Lemma lua_index_app (pre post : lua_stack) (v : lua_value) (k : nat) :
  nth_error post k = Some v ->
  lua_index (pre ++ post) (Z.of_nat (List.length pre) + 1 + Z.of_nat k)
  = Some v.
Proof.
  intros H. unfold lua_index.
  replace (Z.of_nat (List.length pre) + 1 + Z.of_nat k <? 1) with false
    by (symmetry; apply Z.ltb_ge; lia).
  replace (Z.to_nat (Z.of_nat (List.length pre) + 1 + Z.of_nat k - 1))
    with (List.length pre + k)%nat by lia.
  rewrite nth_error_app2 by lia.
  replace (List.length pre + k - List.length pre)%nat with k by lia.
  exact H.
Qed.

(** The loop of the binding reads the points back. *)
Lemma add_points_encode (seeds : list coord_def) :
  forall (pre : lua_stack) (fuel : nat) (finder : flood_find),
    (List.length seeds <= fuel)%nat ->
    add_points fuel (Z.of_nat (List.length pre) + 1)
               (Z.of_nat (List.length (pre ++ encode seeds)))
               (pre ++ encode seeds) finder
    = Returns {| needed_points := (needed_points finder ++ seeds)%list |}.
Proof.
  induction seeds as [|p seeds IH]; intros pre fuel finder Hfuel.
  - cbn [encode flat_map]. rewrite !List.app_nil_r.
    destruct finder as [needed]. cbn [needed_points].
    destruct fuel; cbn [add_points]; [reflexivity|].
    replace (Z.of_nat (List.length pre) + 1 <? Z.of_nat (List.length pre))
      with false by (symmetry; apply Z.ltb_ge; lia).
    reflexivity.
  - destruct fuel as [|f]; [cbn in Hfuel; lia|].
    cbn [add_points].
    replace (Z.of_nat (List.length pre) + 1
             <? Z.of_nat (List.length (pre ++ encode (p :: seeds))))
      with true
      by (symmetry; apply Z.ltb_lt; rewrite List.length_app, encode_length;
          cbn [List.length]; lia).
    unfold luaL_checkint.
    pose proof (lua_index_app pre (encode (p :: seeds)) (LNumber (x p)) 0
                              eq_refl) as H0.
    pose proof (lua_index_app pre (encode (p :: seeds)) (LNumber (y p)) 1
                              eq_refl) as H1.
    rewrite Z.add_0_r in H0. cbn [Z.of_nat Pos.of_succ_nat] in H1.
    rewrite H0, H1.
    specialize (IH (pre ++ [LNumber (x p); LNumber (y p)])%list f
                   (add_point (mk_coord (x p) (y p)) finder)).
    replace ((pre ++ [LNumber (x p); LNumber (y p)]) ++ encode seeds)%list
      with (pre ++ encode (p :: seeds))%list in IH
      by (rewrite <- List.app_assoc; reflexivity).
    replace (Z.of_nat (List.length
                         (pre ++ [LNumber (x p); LNumber (y p)])%list) + 1)
      with (Z.of_nat (List.length pre) + 1 + 2) in IH
      by (rewrite List.length_app; cbn [List.length]; lia).
    rewrite IH by (cbn [List.length] in Hfuel; lia).
    cbn [add_point needed_points]. rewrite <- List.app_assoc.
    now destruct p.
Qed.

Section Policy.
Variable traversable : map_lines -> coord_def -> bool.
Variable dirs : list (Z * Z).

(** The answer of [dgn.points_connected] on a map, a start and one or
    more points. *)
Lemma dgn_points_connected_iff (m : map_lines) (sx sy : Z)
      (seeds : list coord_def) :
  seeds <> [] ->
  exists b : bool,
    dgn_points_connected traversable dirs m
      (LMap :: LNumber sx :: LNumber sy :: encode seeds)
    = Returns b
    /\ (b = true
        <-> forall p, In p seeds ->
                      reachable (traversable m) (map_bounds_check m) dirs
                                (mk_coord sx sy) p).
Proof.
  intros Hseeds. unfold dgn_points_connected.
  set (ls := LMap :: LNumber sx :: LNumber sy :: encode seeds).
  change (check_map ls 1) with (@Returns unit tt). cbv iota.
  assert (Hlen : List.length ls = (3 + 2 * List.length seeds)%nat)
    by (unfold ls; cbn [List.length]; rewrite encode_length; lia).
  replace (lua_gettop ls <? 5) with false.
  2:{ symmetry. apply Z.ltb_ge. unfold lua_gettop. rewrite Hlen.
      destruct seeds; [congruence|]. cbn [List.length]. lia. }
  pose proof (add_points_encode seeds [LMap; LNumber sx; LNumber sy]
                (List.length ls) new_finder) as Hadd.
  change ([LMap; LNumber sx; LNumber sy] ++ encode seeds) with ls in Hadd.
  change (Z.of_nat (List.length [LMap; LNumber sx; LNumber sy]) + 1)
    with 4 in Hadd.
  unfold lua_gettop. rewrite Hadd by lia.
  change (luaL_checkint ls 2) with (Returns sx).
  change (luaL_checkint ls 3) with (Returns sy).
  eexists. split; [reflexivity|].
  apply (points_connected_from_iff _ _ _ _ (map_bounded m)).
Qed.

End Policy.

Lemma answers_spec (dirs : list (Z * Z)) (m : map_lines) (expected : bool)
      (select : coord_def -> coord_def -> bool) :
  answers dirs m expected select = true ->
  forall s a b,
    In s grid_cells -> In a grid_cells -> In b grid_cells ->
    select a b = true ->
    connected_call dirs m s [a; b] = Returns expected.
Proof.
  unfold answers. intros H s a b Hs Ha Hb Hsel.
  rewrite forallb_forall in H. specialize (H s Hs).
  rewrite forallb_forall in H. specialize (H a Ha).
  rewrite forallb_forall in H. specialize (H b Hb).
  rewrite Hsel in H. cbn [implb] in H.
  destruct (connected_call dirs m s [a; b]) as [r|msg]; [|discriminate].
  apply Bool.eqb_prop in H. now subst.
Qed.

(** C7.  On a map, a start and at least one seed point,
    [dgn.points_connected] returns a boolean that is true exactly when
    every seed point can be reached from the start by steps of the
    neighbour policy over positions within the bounds of the map that can
    be travelled through.  On the 3x3 grid without walls it answers true
    for every start and pair of seed points; with the middle column
    walled, it answers false for every pair of seed points on either side
    of the wall, whatever the start.  Both hold for the four-neighbour and
    the eight-neighbour policy. *)
Theorem points_connected_exactly_reachable :
  (forall (traversable : map_lines -> coord_def -> bool)
          (dirs : list (Z * Z)) (m : map_lines) (sx sy : Z)
          (seeds : list coord_def),
      seeds <> [] ->
      exists b : bool,
        dgn_points_connected traversable dirs m
          (LMap :: LNumber sx :: LNumber sy :: encode seeds)
        = Returns b
        /\ (b = true
            <-> forall p, In p seeds ->
                  reachable (traversable m) (map_bounds_check m) dirs
                            (mk_coord sx sy) p))
  /\ (forall dirs s a b,
        dirs = four_dirs \/ dirs = eight_dirs ->
        In s grid_cells -> In a grid_cells -> In b grid_cells ->
        connected_call dirs open_grid s [a; b] = Returns true)
  /\ (forall dirs s a b,
        dirs = four_dirs \/ dirs = eight_dirs ->
        In s grid_cells -> In a grid_cells -> In b grid_cells ->
        x a = 0 -> x b = 2 ->
        connected_call dirs walled_grid s [a; b] = Returns false).
Proof.
  split; [|split].
  - intros traversable dirs m sx sy seeds.
    apply dgn_points_connected_iff.
  - intros dirs s a b [->| ->] Hs Ha Hb;
      apply (answers_spec _ open_grid true (fun _ _ => true));
      auto; vm_compute; reflexivity.
  - intros dirs s a b [->| ->] Hs Ha Hb Hxa Hxb;
      apply (answers_spec _ walled_grid false across_wall);
      auto; try (vm_compute; reflexivity);
      unfold across_wall; rewrite Hxa, Hxb; reflexivity.
Qed.

Lemma points_connected_exactly_reachable_witness :
  exists b : bool,
    dgn_points_connected glyph_traversable four_dirs walled_grid
      (LMap :: LNumber 0 :: LNumber 0
            :: encode [mk_coord 0 2; mk_coord 2 1])
    = Returns b
    /\ (b = true
        <-> forall p, In p [mk_coord 0 2; mk_coord 2 1] ->
              reachable (glyph_traversable walled_grid)
                        (map_bounds_check walled_grid) four_dirs
                        (mk_coord 0 0) p).
Proof.
  apply (proj1 points_connected_exactly_reachable
               glyph_traversable four_dirs walled_grid 0 0
               [mk_coord 0 2; mk_coord 2 1]).
  discriminate.
Defined.

End ConnectedFacts.

(** ** load on a compiled chunk that holds an old error *)

Module LoadState.
Import CxxString Chunk ChunkSpec LoadSpec.

(** C5 as worded fails: [load] on a compiled chunk copies the error
    text of the interpreter into the chunk, so the text of an earlier
    failure is gone after a load that succeeds. *)
Lemma load_overwrites_error :
  compiled stale_error <> ""
  /\ snd (load Lua.recorder_init stale_error) = 0
  /\ error (fst (fst (load Lua.recorder_init stale_error))) = ""
  /\ ~ load_keeps_state.
Proof.
  repeat apply conj; [discriminate | reflexivity | reflexivity |].
  intros Hclaim.
  specialize (Hclaim Lua.recorder_init stale_error ltac:(discriminate)).
  apply (f_equal error) in Hclaim. discriminate Hclaim.
Qed.

End LoadState.

(** ** More on the binary format: source chunks, empty chunks, odd tags *)

Module PersistMore.
Import CxxString CInt Chunk Files ChunkSpec StringFacts AddFacts PersistFacts.

(** [write] on a chunk that holds source text only. *)
Lemma write_source (max cap : Z) (c : dlua_chunk) :
  compiled c = "" -> empty c = false ->
  write max cap c
  = (writeByte CT_SOURCE
     ++ writeString (chunk c) max
     ++ writeString (file c) cap
     ++ writeLong (first c))%list.
Proof.
  intros Hc He. unfold write. rewrite He, Hc. cbn [CxxString.empty negb].
  now rewrite <- !List.app_assoc.
Qed.

(** X1.  A chunk that holds source text (not blank, no bytecode) within
    the cap, with a file name within its cap, is read back from what
    [write] wrote with the same source text, file name and [first]; it
    has no bytecode, and [last] is unset again. *)
Theorem write_read_source (max cap : Z) (c into : dlua_chunk)
        (rest : list byte) :
  compiled c = "" -> empty c = false -> int_range (first c) ->
  Z.of_nat (String.length (chunk c)) <= max -> max <= INT_MAX ->
  Z.of_nat (String.length (file c)) <= cap -> cap <= INT_MAX ->
  read max cap (write max cap c ++ rest) into
  = Some (with_first (first c)
            (with_file (file c) (with_chunk (chunk c) (clear into))),
          rest)
  /\ last (with_first (first c)
             (with_file (file c) (with_chunk (chunk c) (clear into))))
     = -1.
Proof.
  intros Hc He Hf Hmax Hmax' Hcap Hcap'. split; [|reflexivity].
  rewrite (write_source _ _ _ Hc He). unfold read.
  rewrite <- !List.app_assoc.
  rewrite readByte_writeByte by (unfold CT_SOURCE; lia).
  change (CT_SOURCE =? CT_EMPTY) with false.
  change (CT_SOURCE =? CT_SOURCE) with true. cbv iota.
  rewrite readString_writeString_whole by assumption.
  rewrite readString_writeString_whole by assumption.
  rewrite readLong_writeLong by assumption.
  reflexivity.
Qed.

Lemma write_read_source_witness :
  read 65536 200
       (write 65536 200
              (with_first 12 (set_file "vault.des"
                                (set_chunk " return 1" (new_chunk "main"))))
        ++ [x2a])
       (new_chunk "other")
  = Some (with_first 12
            (with_file "vault.des"
               (with_chunk " return 1" (new_chunk "other"))),
          [x2a]).
Proof.
  refine (proj1 (write_read_source 65536 200
                   (with_first 12
                      (set_file "vault.des"
                         (set_chunk " return 1" (new_chunk "main"))))
                   (new_chunk "other") [x2a] _ _ _ _ _ _ _));
    try reflexivity;
    try (unfold int_range, INT_MIN, INT_MAX); cbn; lia.
Defined.

(** X2.  An empty chunk (no bytecode, blank source) is written as the
    single tag byte 0, whatever its file name and [first]; reading that
    back gives a cleared chunk, so the file name and [first] of an empty
    chunk do not survive. *)
Theorem write_read_empty (max cap : Z) (c into : dlua_chunk)
        (rest : list byte) :
  empty c = true ->
  write max cap c = [x00]
  /\ read max cap (write max cap c ++ rest) into = Some (clear into, rest).
Proof.
  intros He. unfold write. rewrite He. split; reflexivity.
Qed.

Lemma write_read_empty_witness :
  read 65536 200
       (write 65536 200
              (with_first 12 (set_file "vault.des"
                                (set_chunk "   " (new_chunk "main")))))
       (new_chunk "other")
  = Some (new_chunk "other", []).
Proof.
  exact (proj2 (write_read_empty 65536 200
                  (with_first 12
                     (set_file "vault.des"
                        (set_chunk "   " (new_chunk "main"))))
                  (new_chunk "other") [] eq_refl)).
Defined.

(** X3.  A tag byte that is none of the three enumerators falls through
    the [switch] of [read]: neither the source nor the bytecode is read,
    but the file name and [first] are, from the bytes that follow the
    tag. *)
Theorem read_unknown_tag (max cap tag n : Z) (f : string)
        (into : dlua_chunk) (rest : list byte) :
  3 <= tag < 256 -> int_range n ->
  Z.of_nat (String.length f) <= cap -> cap <= INT_MAX ->
  read max cap (writeByte tag ++ writeString f cap ++ writeLong n ++ rest)
       into
  = Some (with_first n (with_file f (clear into)), rest).
Proof.
  intros Htag Hn Hcap Hcap'. unfold read.
  rewrite readByte_writeByte by lia.
  replace (tag =? CT_EMPTY) with false
    by (symmetry; apply Z.eqb_neq; unfold CT_EMPTY; lia).
  replace (tag =? CT_SOURCE) with false
    by (symmetry; apply Z.eqb_neq; unfold CT_SOURCE; lia).
  replace (tag =? CT_COMPILED) with false
    by (symmetry; apply Z.eqb_neq; unfold CT_COMPILED; lia).
  rewrite readString_writeString_whole by assumption.
  rewrite readLong_writeLong by assumption.
  reflexivity.
Qed.

Lemma read_unknown_tag_witness :
  read 65536 200
       (writeByte 7 ++ writeString "vault.des" 200 ++ writeLong 12 ++ [])
       (new_chunk "other")
  = Some (with_first 12 (with_file "vault.des" (new_chunk "other")), []).
Proof.
  refine (read_unknown_tag 65536 200 7 12 "vault.des" (new_chunk "other")
                           [] _ _ _ _);
    try (unfold int_range, INT_MIN, INT_MAX); cbn; lia.
Defined.

(** X24.  [read] starts from a cleared chunk: of the state the chunk
    had before, only the context is kept.  Two chunks with the same
    context read the same from the same bytes, and what is read has that
    context, no error text, and [last] unset. *)
Theorem read_keeps_context_only (max cap : Z) (inf : list byte)
        (c c' : dlua_chunk) :
  context c = context c' ->
  read max cap inf c = read max cap inf c'
  /\ (forall r rest,
        read max cap inf c = Some (r, rest) ->
        context r = context c /\ last r = -1 /\ error r = "").
Proof.
  intros Hctx.
  assert (Hclear : clear c = clear c') by (unfold clear; now rewrite Hctx).
  split.
  - unfold read. now rewrite Hclear.
  - intros r rest. unfold read.
    destruct (readByte inf) as [[type inf1]|]; [|discriminate].
    destruct (type =? CT_EMPTY).
    { intros E. injection E as <- _. repeat split. }
    destruct (type =? CT_SOURCE).
    { destruct (readString inf1 max) as [[s0 r0]|]; [|discriminate].
      destruct (readString r0 cap) as [[f inf3]|]; [|discriminate].
      destruct (readLong inf3) as [[n inf4]|]; [|discriminate].
      intros E. injection E as <- _. repeat split. }
    destruct (type =? CT_COMPILED).
    { destruct (readString inf1 max) as [[s0 r0]|]; [|discriminate].
      destruct (readString r0 cap) as [[f inf3]|]; [|discriminate].
      destruct (readLong inf3) as [[n inf4]|]; [|discriminate].
      intros E. injection E as <- _. repeat split. }
    destruct (readString inf1 cap) as [[f inf3]|]; [|discriminate].
    destruct (readLong inf3) as [[n inf4]|]; [|discriminate].
    intros E. injection E as <- _. repeat split.
Qed.

Lemma read_keeps_context_only_witness :
  read 65536 200 [x00]
       (with_error "old error"
          (with_last 9 (set_chunk "old" (new_chunk "main"))))
  = read 65536 200 [x00] (new_chunk "main").
Proof.
  exact (proj1 (read_keeps_context_only
                  65536 200 [x00]
                  (with_error "old error"
                     (with_last 9 (set_chunk "old" (new_chunk "main"))))
                  (new_chunk "main") eq_refl)).
Defined.

End PersistMore.

(** ** dlua_chunk::load when the interpreter reports an error, and twice *)

Module LoadMore.
Import CxxString CInt Chunk ChunkSpec StringFacts AddFacts LoadFacts.

Section WithInterpreter.
Context {E : Type} `{Lua.CLua E}.

(** X4.  When [loadstring] rejects the source of a chunk, [load] returns
    its error code, records the interpreter's error text in the chunk and
    leaves source and bytecode as they were; nothing is dumped.
    [load_call] returns the same and calls no function. *)
Theorem load_rejected_keeps_source (interp interp1 : E) (err : Z)
        (fn : option string) (c : dlua_chunk) :
  compiled c = "" -> empty c = false ->
  Lua.loadstring (c_str (chunk c)) (c_str (context c)) interp
  = (interp1, err) ->
  err <> 0 -> err <> -1000 ->
  load interp c = (with_error (Lua.error interp1) c, interp1, err)
  /\ load_call interp fn c
     = (with_error (Lua.error interp1) c, interp1, err)
  /\ chunk (with_error (Lua.error interp1) c) = chunk c
  /\ compiled (with_error (Lua.error interp1) c) = "".
Proof.
  intros Hc He Hl H0 H1000.
  assert (Hload : load interp c
                  = (with_error (Lua.error interp1) c, interp1, err)).
  { rewrite (load_source interp c Hc He), Hl.
    apply Z.eqb_neq in H0. now rewrite H0. }
  repeat apply conj; [exact Hload| |reflexivity|exact Hc].
  unfold load_call. rewrite Hload.
  apply Z.eqb_neq in H0, H1000. now rewrite H0, H1000.
Qed.

(** X5.  When the source loads but [lua_dump] fails, [load] returns the
    code of the dump and still discards the source: the chunk is left
    with what the writer had received as its bytecode, and with the text
    on top of the stack (or a fixed text when there is none) as its
    error; two values are popped. *)
Theorem load_dump_failure_drops_source (interp interp1 interp2 : E)
        (err2 : Z) (pieces : list string) (c : dlua_chunk) :
  compiled c = "" -> empty c = false ->
  Lua.loadstring (c_str (chunk c)) (c_str (context c)) interp
  = (interp1, 0) ->
  Lua.lua_dump interp1 = (interp2, err2, pieces) ->
  err2 <> 0 ->
  load interp c
  = (with_chunk ""
       (with_compiled (String.concat "" pieces)
          (with_error (match Lua.lua_tostring (-1) interp2 with
                       | Some m => m
                       | None => "Unknown error compiling chunk"
                       end) c)),
     Lua.lua_pop 2 interp2, err2).
Proof.
  intros Hc He Hl Hd H0.
  rewrite (load_source interp c Hc He), Hl. cbn [Z.eqb negb].
  rewrite Hd. apply Z.eqb_neq in H0. rewrite H0. reflexivity.
Qed.

(** X6.  After [load] has compiled a source chunk with result 0, the
    chunk has no source left, and a second [load] does not compile
    again: it hands the stored bytecode to [loadbuffer]; when the dump
    was empty the chunk now counts as empty, and the second [load]
    returns -1000 with the interpreter untouched. *)
Theorem load_again_uses_bytecode (interp interp1 : E)
        (c c1 : dlua_chunk) :
  compiled c = "" -> empty c = false ->
  load interp c = (c1, interp1, 0) ->
  chunk c1 = ""
  /\ (compiled c1 <> "" ->
      load interp1 c1
      = (with_error
           (Lua.error (fst (Lua.loadbuffer (compiled c1)
                              (String.length (compiled c1))
                              (c_str (context c)) interp1))) c1,
         fst (Lua.loadbuffer (compiled c1) (String.length (compiled c1))
                             (c_str (context c)) interp1),
         snd (Lua.loadbuffer (compiled c1) (String.length (compiled c1))
                             (c_str (context c)) interp1)))
  /\ (compiled c1 = "" -> load interp1 c1 = (c1, interp1, -1000)).
Proof.
  intros Hc He Hload.
  rewrite (load_source interp c Hc He) in Hload.
  destruct (Lua.loadstring _ _ _) as [i1 r].
  destruct (r =? 0) eqn:Hr; cbn [negb] in Hload.
  2:{ injection Hload as _ _ Hr0. apply Z.eqb_neq in Hr. lia. }
  destruct (Lua.lua_dump i1) as [[i2 err2] pieces].
  destruct (err2 =? 0) eqn:He2; cbn [negb] in Hload.
  2:{ injection Hload as _ _ Hr0. apply Z.eqb_neq in He2. lia. }
  injection Hload as Hc1 Hi1. subst c1 interp1.
  repeat apply conj.
  - reflexivity.
  - intros Hne. now rewrite (load_compiled _ _ Hne).
  - intros Hemp. rewrite load_empty; [reflexivity|].
    unfold empty. cbn [compiled chunk with_chunk with_compiled with_error]
      in *. now rewrite Hemp.
Qed.

End WithInterpreter.

Lemma load_rejected_keeps_source_witness :
  load Lua.recorder_init (set_chunk "bad" (new_chunk "main"))
  = (with_error "syntax error" (set_chunk "bad" (new_chunk "main")),
     Lua.rec_step (Lua.EvLoadString "bad" "main") "" "syntax error"
                  Lua.recorder_init,
     3).
Proof.
  refine (proj1 (@load_rejected_keeps_source
                   Lua.recorder Lua.recorder_CLua
                   Lua.recorder_init
                   (Lua.rec_step (Lua.EvLoadString "bad" "main") ""
                                 "syntax error" Lua.recorder_init)
                   3 None (set_chunk "bad" (new_chunk "main"))
                   _ _ _ _ _));
    try reflexivity; lia.
Defined.

Lemma load_dump_failure_drops_source_witness :
  fst (fst (load LuaScript.dump_fails
                 (set_chunk "return 1" (new_chunk "main"))))
  = with_chunk ""
      (with_compiled "LU"
         (with_error "Unknown error compiling chunk"
            (set_chunk "return 1" (new_chunk "main")))).
Proof.
  rewrite (@load_dump_failure_drops_source
             LuaScript.scripted LuaScript.scripted_CLua
             LuaScript.dump_fails
             (LuaScript.s_step (Lua.EvLoadString "return 1" "main")
                               LuaScript.dump_fails)
             (LuaScript.s_step Lua.EvDump
                (LuaScript.s_step (Lua.EvLoadString "return 1" "main")
                                  LuaScript.dump_fails))
             1 ["LU"]);
    [reflexivity | reflexivity | reflexivity | reflexivity
    | reflexivity | lia].
Defined.

Lemma load_again_uses_bytecode_witness :
  chunk (fst (fst (load Lua.recorder_init
                        (set_chunk "return 1" (new_chunk "main")))))
  = ""
  /\ Lua.rec_log
       (snd (fst (load
                    (snd (fst (load Lua.recorder_init
                                 (set_chunk "return 1"
                                            (new_chunk "main")))))
                    (fst (fst (load Lua.recorder_init
                                 (set_chunk "return 1"
                                            (new_chunk "main"))))))))
     = [Lua.EvLoadString "return 1" "main"; Lua.EvDump;
        Lua.EvLoadBuffer "LUAreturn 1" 11 "main"].
Proof.
  eassert (Hl : load Lua.recorder_init
                     (set_chunk "return 1" (new_chunk "main"))
                = (_, _, 0)) by (vm_compute; reflexivity).
  destruct (load_again_uses_bytecode
              Lua.recorder_init _
              (set_chunk "return 1" (new_chunk "main")) _
              eq_refl eq_refl Hl)
    as (H1 & H2 & _).
  split; [exact H1|].
  etransitivity; [|exact (f_equal (fun r => Lua.rec_log (snd (fst r)))
                                  (H2 ltac:(discriminate)))].
  reflexivity.
Defined.

End LoadMore.

(** ** rewrite_chunk_prefix and get_chunk_prefix on other lines *)

Module RewriteMore.
Import CxxString CInt Chunk ChunkSpec RewriteSpec StringFacts AddFacts
       SearchFacts NumberFacts.

Lemma colon_free_get (s : string) :
  colon_free s = true -> forall x, String.get x s <> Some ":"%char.
Proof.
  induction s as [|y s IH]; cbn; intros Hs x.
  - discriminate.
  - apply andb_true_iff in Hs as [Hy Hs].
    destruct x as [|x].
    + intros E. injection E as ->. now rewrite Ascii.eqb_refl in Hy.
    + now apply IH.
Qed.

Lemma colon_free_app (a b : string) :
  colon_free a = true -> colon_free b = true -> colon_free (a ++ b) = true.
Proof.
  intros Ha Hb. induction a as [|x a IH]; cbn in *; [exact Hb|].
  apply andb_true_iff in Ha as [Hx Ha]. now rewrite Hx, IH.
Qed.

Lemma colon_free_format_d (n : Z) : colon_free (format_d n) = true.
Proof.
  assert (H : forall s, number_text s = true -> colon_free s = true).
  { induction s as [|y s IH]; cbn; [reflexivity|]. intros Hs.
    apply andb_true_iff in Hs as [Hy Hs]. rewrite (IH Hs), andb_true_r.
    destruct (Ascii.eqb y ":") eqn:E; [|reflexivity].
    apply Ascii.eqb_eq in E. subst y. discriminate. }
  apply H, format_d_number_text.
Qed.

(** A character that does not occur behind [pos] is not found from
    there. *)
Lemma find_at_char_none (ch : ascii) (d : string) :
  (forall x, String.get x d <> Some ch) ->
  forall pos : nat, find_at (String ch "") d pos = None.
Proof.
  induction d as [|x d IH]; intros Hfree pos; [reflexivity|].
  cbn [find_at starts_with].
  destruct (Ascii.eqb ch x) eqn:E.
  - apply Ascii.eqb_eq in E. subst x. now destruct (Hfree O).
  - cbn [andb]. apply IH. intros k. exact (Hfree (S k)).
Qed.

Lemma find_char_none (ch : ascii) (a d : string) :
  (forall x, String.get x d <> Some ch) ->
  find_char ch (a ++ d) (String.length a) = None.
Proof.
  intros Hfree. unfold find_char.
  rewrite substr_from_app. now apply find_at_char_none.
Qed.

(** The line with the reference cut out and the name put in. *)
Lemma rewrite_prefix_between (c : dlua_chunk) (pre t rest : string) :
  find (contextm c) (pre ++ contextm c ++ t ++ ":" ++ rest)
  = Some (String.length pre) ->
  colon_free t = true ->
  rewrite_chunk_prefix (pre ++ contextm c ++ t ++ ":" ++ rest) c
  = pre ++ shown_name c ++ ":" ++ format_d (rewritten_number t c) ++ ":"
    ++ rest.
Proof.
  intros Hfind Ht.
  unfold rewrite_chunk_prefix, rewritten_number. rewrite Hfind.
  fold (shown_name c).
  set (m := contextm c) in *.
  pose proof (colon_free_get _ Ht) as Hfree.
  assert (E1 : pre ++ m ++ t ++ ":" ++ rest
               = (pre ++ m) ++ t ++ String ":" rest)
    by now rewrite !app_assoc.
  assert (E2 : pre ++ m ++ t ++ ":" ++ rest
               = ((pre ++ m) ++ t) ++ String ":" rest)
    by now rewrite !app_assoc.
  assert (Hpe : find_char ":" (pre ++ m ++ t ++ ":" ++ rest)
                          (String.length pre + String.length m)
                = Some (String.length (pre ++ m) + String.length t)%nat).
  { rewrite <- length_app, E1. now apply find_char_after. }
  rewrite Hpe.
  replace (String.length (pre ++ m) + String.length t
           - (String.length pre + String.length m))%nat
    with (String.length t) by (rewrite length_app; lia).
  assert (Hnum : substr (String.length pre + String.length m)
                        (String.length t) (pre ++ m ++ t ++ ":" ++ rest)
                 = t).
  { rewrite <- length_app, E1. apply substr_middle. }
  assert (Hhead : substr 0 (String.length pre + String.length m)
                         (pre ++ m ++ t ++ ":" ++ rest)
                  = pre ++ m).
  { rewrite <- length_app, E1. apply substr_prefix. }
  assert (Htail : substr_from (String.length (pre ++ m) + String.length t)
                              (pre ++ m ++ t ++ ":" ++ rest)
                  = String ":" rest).
  { rewrite <- length_app, E2. apply substr_from_app. }
  rewrite Hnum, Hhead, Htail.
  unfold Libutil.make_stringf_d.
  set (d' := format_d _).
  rewrite <- length_app, substr_from_app.
  rewrite (app_assoc pre m), substr_prefix.
  reflexivity.
Qed.

Lemma rewritten_number_format_d (n : Z) (c : dlua_chunk) :
  int_range n -> int_range (n + first c - 1) ->
  rewritten_number (format_d n) c = n + first c - 1.
Proof.
  intros Hn Hres. unfold rewritten_number.
  rewrite (c_str_number_text _ (format_d_number_text n)).
  rewrite (atoi_format_d _ Hn).
  now rewrite wrap_int_pred, (wrap_int_id _ Hres).
Qed.

(** [atoi] reads 0 from a text that does not start like a number. *)
Lemma atoi_no_number (t : string) :
  starts_no_number t = true -> atoi (c_str t) = 0.
Proof.
  destruct t as [|ch t]; [reflexivity|].
  cbn [starts_no_number c_str]. intros H.
  destruct (Ascii.eqb ch nul); [reflexivity|].
  apply andb_true_iff in H as [H Hplus].
  apply andb_true_iff in H as [Hsp Hnum].
  apply negb_true_iff in Hsp, Hnum, Hplus.
  unfold number_char in Hnum.
  destruct (digit_of ch) eqn:Hd; [discriminate|].
  unfold atoi. cbn [skip_space]. rewrite Hsp.
  assert (E : atoi_digits (String ch (c_str t)) 0 = 0)
    by (cbn [atoi_digits]; now rewrite Hd).
  destruct ch as [[|] [|] [|] [|] [|] [|] [|] [|]];
    try discriminate Hnum; try discriminate Hplus;
    rewrite E; reflexivity.
Qed.

(** The model of [atoi] is the number read, made an [int]. *)
Lemma atoi_wraps_value (s : string) : atoi s = wrap_int (atoi_value s).
Proof.
  unfold atoi, atoi_value.
  destruct (skip_space s) as [|ch r]; [reflexivity|].
  destruct ch as [[|] [|] [|] [|] [|] [|] [|] [|]]; reflexivity.
Qed.

(** X7.  The text between the first reference to the chunk and the next
    colon is read with [atoi]: white space in front, a sign and the
    digits behind it count, whatever follows the digits does not.  When
    the number read and the result fit an [int], the text is replaced
    by that number plus [first] minus 1; so when the text does not start
    like a number it reads as 0, and the line shows [first - 1]. *)
Theorem rewrite_chunk_prefix_reads_atoi (c : dlua_chunk)
        (pre t rest : string) :
  find (contextm c) (pre ++ contextm c ++ t ++ ":" ++ rest)
  = Some (String.length pre) ->
  colon_free t = true ->
  int_range (atoi_value (c_str t)) ->
  int_range (atoi_value (c_str t) + first c - 1) ->
  rewrite_chunk_prefix (pre ++ contextm c ++ t ++ ":" ++ rest) c
  = pre ++ shown_name c ++ ":"
    ++ format_d (atoi_value (c_str t) + first c - 1) ++ ":" ++ rest
  /\ (starts_no_number t = true ->
      rewrite_chunk_prefix (pre ++ contextm c ++ t ++ ":" ++ rest) c
      = pre ++ shown_name c ++ ":" ++ format_d (first c - 1) ++ ":"
        ++ rest).
Proof.
  intros Hfind Ht Hv Hres.
  pose proof (rewrite_prefix_between c pre t rest Hfind Ht) as E.
  unfold rewritten_number in E.
  assert (Ea : atoi (c_str t) = atoi_value (c_str t))
    by (rewrite atoi_wraps_value; now apply wrap_int_id).
  rewrite Ea, wrap_int_pred, (wrap_int_id _ Hres) in E.
  split; [exact E|].
  intros Hno. rewrite E, <- Ea, (atoi_no_number _ Hno).
  reflexivity.
Qed.

Lemma rewrite_chunk_prefix_reads_atoi_witness :
  rewrite_chunk_prefix
    ("" ++ contextm chunk1 ++ " 12abc" ++ ":" ++ " bad value") chunk1
  = "vault.des:16: bad value"
  /\ rewrite_chunk_prefix
       ("" ++ contextm chunk1 ++ "abc" ++ ":" ++ " bad value") chunk1
     = "vault.des:4: bad value".
Proof.
  split.
  - refine (proj1 (rewrite_chunk_prefix_reads_atoi
                     chunk1 "" " 12abc" " bad value" eq_refl eq_refl
                     _ _));
      unfold int_range, INT_MIN, INT_MAX; cbn; lia.
  - refine (proj2 (rewrite_chunk_prefix_reads_atoi
                     chunk1 "" "abc" " bad value" eq_refl eq_refl _ _)
                  eq_refl);
      unfold int_range, INT_MIN, INT_MAX; cbn; lia.
Defined.

(** X8.  When no colon follows the first reference to the chunk, only
    the reference is replaced, by the file name (the context when there
    is none) and a colon; the rest of the line is kept as it is. *)
Theorem rewrite_chunk_prefix_no_colon (c : dlua_chunk) (pre rest : string) :
  find (contextm c) (pre ++ contextm c ++ rest)
  = Some (String.length pre) ->
  colon_free rest = true ->
  rewrite_chunk_prefix (pre ++ contextm c ++ rest) c
  = pre ++ shown_name c ++ ":" ++ rest.
Proof.
  intros Hfind Hrest.
  unfold rewrite_chunk_prefix. rewrite Hfind. fold (shown_name c).
  set (m := contextm c) in *.
  rewrite <- length_app, <- (app_assoc pre m rest).
  rewrite (find_char_none ":" (pre ++ m) rest (colon_free_get _ Hrest)).
  rewrite substr_from_app, (app_assoc pre m rest), substr_prefix.
  reflexivity.
Qed.

Lemma rewrite_chunk_prefix_no_colon_witness :
  rewrite_chunk_prefix ("in " ++ contextm chunk1 ++ "3") chunk1
  = "in vault.des:3".
Proof.
  exact (rewrite_chunk_prefix_no_colon chunk1 "in " "3" eq_refl eq_refl).
Defined.

(** X9.  For a line that holds, after a text without colons, the first
    reference to the chunk, an integer [n] and a colon, [get_chunk_prefix]
    returns the location alone: the text, the file name (the context
    when there is none), a colon and [n + first - 1], provided the name
    holds no colon. *)
Theorem get_chunk_prefix_location (c : dlua_chunk) (pre rest : string)
        (n : Z) :
  find (contextm c) (pre ++ contextm c ++ format_d n ++ ":" ++ rest)
  = Some (String.length pre) ->
  int_range n -> int_range (n + first c - 1) ->
  colon_free pre = true -> colon_free (shown_name c) = true ->
  get_chunk_prefix (pre ++ contextm c ++ format_d n ++ ":" ++ rest) c
  = pre ++ shown_name c ++ ":" ++ format_d (n + first c - 1).
Proof.
  intros Hfind Hn Hres Hpre Hname. unfold get_chunk_prefix.
  rewrite (rewrite_prefix_between c pre (format_d n) rest Hfind
             (colon_free_format_d n)).
  rewrite (rewritten_number_format_d n c Hn Hres).
  set (num := format_d (n + first c - 1)).
  set (d := pre ++ shown_name c).
  assert (Hd : forall x, String.get x d <> Some ":"%char)
    by (apply colon_free_get, colon_free_app; assumption).
  assert (Hnum : forall x, String.get x num <> Some ":"%char)
    by apply colon_free_get, colon_free_format_d.
  assert (E1 : pre ++ shown_name c ++ ":" ++ num ++ ":" ++ rest
               = "" ++ d ++ String ":" (num ++ ":" ++ rest))
    by (unfold d; now rewrite !app_assoc).
  rewrite E1.
  change 0%nat with (String.length "") at 1.
  rewrite (find_char_after ":" "" d _ Hd). cbn [String.length Nat.add].
  assert (E2 : "" ++ d ++ String ":" (num ++ ":" ++ rest)
               = (d ++ ":") ++ num ++ String ":" rest)
    by now rewrite !app_assoc.
  rewrite E2.
  replace (String.length d + 1)%nat with (String.length (d ++ ":"))
    by (rewrite length_app; reflexivity).
  rewrite (find_char_after ":" (d ++ ":") num rest Hnum).
  rewrite <- length_app, <- (app_assoc (d ++ ":") num), substr_prefix.
  unfold d. now rewrite !app_assoc.
Qed.

Lemma get_chunk_prefix_location_witness :
  get_chunk_prefix
    ("" ++ contextm chunk1 ++ format_d 3 ++ ":" ++ " in function 'f'")
    chunk1
  = "vault.des:7".
Proof.
  refine (get_chunk_prefix_location chunk1 "" " in function 'f'" 3
                                    _ _ _ _ _);
    try reflexivity; unfold int_range, INT_MIN, INT_MAX; cbn; lia.
Defined.

(** X10.  A colon in the name cuts the location short: when the file
    name (the context when there is none) holds exactly one colon,
    [get_chunk_prefix] returns the text before the reference and the
    name, without the line number. *)
Theorem get_chunk_prefix_colon_in_name (c : dlua_chunk)
        (pre t rest a b : string) :
  find (contextm c) (pre ++ contextm c ++ t ++ ":" ++ rest)
  = Some (String.length pre) ->
  colon_free t = true -> colon_free pre = true ->
  shown_name c = a ++ ":" ++ b ->
  colon_free a = true -> colon_free b = true ->
  get_chunk_prefix (pre ++ contextm c ++ t ++ ":" ++ rest) c
  = pre ++ shown_name c.
Proof.
  intros Hfind Ht Hpre Hname Ha Hb. unfold get_chunk_prefix.
  rewrite (rewrite_prefix_between c pre t rest Hfind Ht), Hname.
  set (num := format_d _).
  set (d := pre ++ a).
  assert (Hd : forall x, String.get x d <> Some ":"%char)
    by (apply colon_free_get, colon_free_app; assumption).
  pose proof (colon_free_get _ Hb) as Hb'.
  assert (E1 : pre ++ (a ++ ":" ++ b) ++ ":" ++ num ++ ":" ++ rest
               = "" ++ d ++ String ":" (b ++ ":" ++ num ++ ":" ++ rest))
    by (unfold d; now rewrite !app_assoc).
  rewrite E1.
  change 0%nat with (String.length "") at 1.
  rewrite (find_char_after ":" "" d _ Hd). cbn [String.length Nat.add].
  assert (E2 : "" ++ d ++ String ":" (b ++ ":" ++ num ++ ":" ++ rest)
               = (d ++ ":") ++ b ++ String ":" (num ++ ":" ++ rest))
    by now rewrite !app_assoc.
  rewrite E2.
  replace (String.length d + 1)%nat with (String.length (d ++ ":"))
    by (rewrite length_app; reflexivity).
  rewrite (find_char_after ":" (d ++ ":") b _ Hb').
  rewrite <- length_app, <- (app_assoc (d ++ ":") b), substr_prefix.
  unfold d. now rewrite !app_assoc.
Qed.

Lemma get_chunk_prefix_colon_in_name_witness :
  get_chunk_prefix
    ("" ++ contextm (set_file "c:/des/vault.des" chunk1) ++ "3" ++ ":"
     ++ " in function 'f'")
    (set_file "c:/des/vault.des" chunk1)
  = "c:/des/vault.des".
Proof.
  exact (get_chunk_prefix_colon_in_name
           (set_file "c:/des/vault.des" chunk1) "" "3" " in function 'f'"
           "c" "/des/vault.des"
           eq_refl eq_refl eq_refl eq_refl eq_refl eq_refl).
Defined.

(** X11.  When the stored error starts with the reference to the chunk,
    followed by an integer [n] and a colon, [orig_error] rewrites that
    reference alone: the error becomes the file name (the context when
    there is none), a colon, [n + first - 1] and the rest of the message
    as it was, later lines included. *)
Theorem orig_error_leading_reference (c : dlua_chunk) (rest : string)
        (n : Z) :
  error c = contextm c ++ format_d n ++ ":" ++ rest ->
  int_range n -> int_range (n + first c - 1) ->
  rewrite_chunk_errors (error c) c
  = (true,
     shown_name c ++ ":" ++ format_d (n + first c - 1) ++ ":" ++ rest)
  /\ orig_error c
     = (shown_name c ++ ":" ++ format_d (n + first c - 1) ++ ":" ++ rest,
        with_error
          (shown_name c ++ ":" ++ format_d (n + first c - 1) ++ ":" ++ rest)
          c).
Proof.
  intros Herr Hn Hres.
  assert (Hfind : find (contextm c)
                       (contextm c ++ format_d n ++ ":" ++ rest)
                  = Some 0%nat).
  { unfold find. rewrite ErrorFacts.find_at_unfold.
    now rewrite ErrorFacts.starts_with_app. }
  assert (E : rewrite_chunk_prefix
                (contextm c ++ format_d n ++ ":" ++ rest) c
              = shown_name c ++ ":"
                ++ format_d (rewritten_number (format_d n) c) ++ ":"
                ++ rest)
    by exact (rewrite_prefix_between c "" (format_d n) rest Hfind
                (colon_free_format_d n)).
  rewrite (rewritten_number_format_d n c Hn Hres) in E.
  assert (R : rewrite_chunk_errors (error c) c
              = (true,
                 shown_name c ++ ":" ++ format_d (n + first c - 1) ++ ":"
                 ++ rest)).
  { unfold rewrite_chunk_errors. rewrite Herr, Hfind. now rewrite E. }
  split; [exact R|]. unfold orig_error. now rewrite R.
Qed.

Lemma orig_error_leading_reference_witness :
  orig_error
    (with_error (contextm chunk1 ++ format_d 3 ++ ":"
                 ++ " oops" ++ String newline (contextm chunk1 ++ "9: x"))
                chunk1)
  = ("vault.des:7: oops" ++ String newline (contextm chunk1 ++ "9: x"),
     with_error
       ("vault.des:7: oops" ++ String newline (contextm chunk1 ++ "9: x"))
       chunk1).
Proof.
  refine (proj2 (orig_error_leading_reference
                   (with_error
                      (contextm chunk1 ++ format_d 3 ++ ":" ++ " oops"
                       ++ String newline (contextm chunk1 ++ "9: x"))
                      chunk1)
                   (" oops" ++ String newline (contextm chunk1 ++ "9: x"))
                   3 _ _ _));
    try reflexivity; unfold int_range, INT_MIN, INT_MAX; cbn; lia.
Defined.

End RewriteMore.

(** ** add out of order, and add followed by an error report *)

Module AddMore.
Import CxxString CInt Chunk AddSpec ChunkSpec RewriteSpec StringFacts
       AddFacts AddLines NumberFacts RewriteMore.

Lemma add_file (line : Z) (s : string) (c : dlua_chunk) :
  file (add line s c) = file c.
Proof. add_cases c; reflexivity. Qed.

Lemma run_adds_file (calls : list (Z * string)) :
  forall c : dlua_chunk, file (run_adds calls c) = file c.
Proof.
  induction calls as [|call calls IH]; intros c; [reflexivity|].
  rewrite run_adds_cons, IH. apply add_file.
Qed.

Lemma run_adds_context (calls : list (Z * string)) :
  forall c : dlua_chunk, context (run_adds calls c) = context c.
Proof.
  induction calls as [|call calls IH]; intros c; [reflexivity|].
  rewrite run_adds_cons, IH. apply add_context.
Qed.

(** X12.  A call of [add] at a line that is not above the line of the
    call before starts no new physical line: its text is appended
    behind a blank where the source ends, and [last] goes back to that
    line, so that the call after it counts its newlines from there. *)
Theorem add_lower_line (line l : Z) (s t : string) (c : dlua_chunk) :
  int_range line -> int_range l -> int_range (last c) ->
  last c <> -1 -> line <> -1 -> line <= last c ->
  chunk (add line s c) = chunk c ++ " " ++ s
  /\ last (add line s c) = line
  /\ chunk (add l t (add line s c))
     = chunk c ++ " " ++ s ++ replicate (Z.to_nat (l - line)) newline
       ++ " " ++ t.
Proof.
  intros Hline Hl Hlast Hne Hne' Hle.
  assert (E : chunk (add line s c) = chunk c ++ " " ++ s).
  { rewrite add_chunk by assumption. unfold newlines_before.
    apply Z.eqb_neq in Hne. rewrite Hne.
    replace (Z.to_nat (line - last c)) with O by lia. reflexivity. }
  repeat apply conj; [exact E | reflexivity |].
  rewrite add_chunk; rewrite ?add_last; try assumption.
  rewrite E. unfold newlines_before.
  apply Z.eqb_neq in Hne'. rewrite Hne'.
  now rewrite !app_assoc.
Qed.

Lemma add_lower_line_witness :
  chunk (add 4 "z = 3"
             (add 2 "y = 2" (add 5 "x = 1" (new_chunk "main"))))
  = " x = 1" ++ " " ++ "y = 2"
    ++ String newline (String newline "") ++ " " ++ "z = 3".
Proof.
  refine (proj2 (proj2 (add_lower_line
                          2 4 "y = 2" "z = 3"
                          (add 5 "x = 1" (new_chunk "main"))
                          _ _ _ _ _ _)));
    unfold int_range, INT_MIN, INT_MAX; cbn; lia.
Defined.

(** X13.  Line numbers come back as authored.  After calls of [add] with
    nondecreasing line numbers (none of them -1, texts without
    newlines) on a chunk just constructed and given a file name, an
    error the interpreter reports at line [j + 1] of the source is
    rewritten to the line [l1 + j] of the file, where [l1] is the line
    of the first call, and line [j + 1] of the source holds exactly
    what was authored at line [l1 + j]. *)
Theorem error_line_is_authored_line (ctx f : string) (l1 : Z) (t1 : string)
        (rest : list (Z * string)) (j : nat) (msg : string) :
  Forall call_ok ((l1, t1) :: rest) ->
  nondecreasing (map fst ((l1, t1) :: rest)) ->
  int_range (Z.of_nat j + 1) -> int_range (l1 + Z.of_nat j) ->
  rewrite_chunk_prefix
    (contextm (new_chunk ctx) ++ format_d (Z.of_nat j + 1) ++ ":" ++ msg)
    (run_adds ((l1, t1) :: rest) (set_file f (new_chunk ctx)))
  = shown_name (set_file f (new_chunk ctx)) ++ ":"
    ++ format_d (l1 + Z.of_nat j) ++ ":" ++ msg
  /\ line_at j (chunk (run_adds ((l1, t1) :: rest)
                                (set_file f (new_chunk ctx))))
     = authored ((l1, t1) :: rest) (l1 + Z.of_nat j).
Proof.
  intros Hok Hnd Hj Hres.
  set (c0 := set_file f (new_chunk ctx)).
  set (c := run_adds ((l1, t1) :: rest) c0).
  assert (H1 : int_range l1 /\ l1 <> -1 /\ no_newline t1 = true)
    by (apply (call_ok_in _ _ _ Hok); now left).
  destruct H1 as (Hr1 & Hne1 & Hnl1).
  assert (Hc1 : chunk (add l1 t1 c0) = " " ++ t1).
  { rewrite add_chunk; [reflexivity | assumption |].
    cbn. unfold int_range, INT_MIN, INT_MAX. lia. }
  assert (Hf1 : first (add l1 t1 c0) = l1)
    by (rewrite add_first; reflexivity).
  assert (Hl1 : last (add l1 t1 c0) = l1) by reflexivity.
  assert (Hfirst : first c = l1).
  { unfold c. rewrite run_adds_cons. cbn [fst snd].
    rewrite run_adds_first; rewrite Hf1; auto. }
  assert (Hctx : contextm c = contextm (new_chunk ctx)).
  { unfold contextm, c. now rewrite run_adds_context. }
  assert (Hname : shown_name c = shown_name c0).
  { unfold shown_name, c. now rewrite run_adds_file, run_adds_context. }
  split.
  - rewrite <- Hctx.
    assert (Hfind : find (contextm c)
                         (contextm c ++ format_d (Z.of_nat j + 1) ++ ":"
                          ++ msg)
                    = Some 0%nat).
    { unfold find. rewrite ErrorFacts.find_at_unfold.
      now rewrite ErrorFacts.starts_with_app. }
    assert (E : rewrite_chunk_prefix
                  (contextm c ++ format_d (Z.of_nat j + 1) ++ ":" ++ msg) c
                = shown_name c ++ ":"
                  ++ format_d (rewritten_number
                                 (format_d (Z.of_nat j + 1)) c)
                  ++ ":" ++ msg)
      by exact (rewrite_prefix_between c "" _ msg Hfind
                  (colon_free_format_d _)).
    assert (Hres' : int_range (Z.of_nat j + 1 + first c - 1)).
    { rewrite Hfirst.
      replace (Z.of_nat j + 1 + l1 - 1) with (l1 + Z.of_nat j) by lia.
      exact Hres. }
    assert (Hrn : rewritten_number (format_d (Z.of_nat j + 1)) c
                  = l1 + Z.of_nat j).
    { rewrite (rewritten_number_format_d _ c Hj Hres'), Hfirst. lia. }
    rewrite E, Hrn, Hname. reflexivity.
  - unfold c. rewrite run_adds_cons. cbn [fst snd].
    pose proof (Forall_inv_tail Hok) as Hok'.
    rewrite run_adds_lines.
    + rewrite Hf1, Hc1. cbn [authored].
      f_equal. unfold line_at.
      rewrite (physical_lines_plain (" " ++ t1)) by (cbn; exact Hnl1).
      destruct (l1 =? l1 + Z.of_nat j) eqn:E.
      * apply Z.eqb_eq in E. replace j with O by lia. reflexivity.
      * apply Z.eqb_neq in E.
        destruct j as [|[|j]]; [lia | reflexivity..].
    + exact Hok'.
    + rewrite Hl1. exact Hnd.
    + now rewrite Hl1.
    + now rewrite Hl1.
    + now rewrite Hf1.
    + rewrite Hf1, Hl1. lia.
    + rewrite Hf1, Hl1, Hc1.
      rewrite (physical_lines_plain (" " ++ t1)) by (cbn; exact Hnl1).
      cbn. lia.
Qed.

Lemma error_line_is_authored_line_witness :
  rewrite_chunk_prefix
    (contextm (new_chunk "main") ++ format_d (Z.of_nat 2 + 1) ++ ":"
     ++ " oops")
    (run_adds [(3, "x = 1"); (3, "y = 2"); (5, "return x")]
              (set_file "vault.des" (new_chunk "main")))
  = "vault.des:5: oops"
  /\ line_at 2 (chunk (run_adds
                         [(3, "x = 1"); (3, "y = 2"); (5, "return x")]
                         (set_file "vault.des" (new_chunk "main"))))
     = " return x".
Proof.
  refine (error_line_is_authored_line
            "main" "vault.des" 3 "x = 1" [(3, "y = 2"); (5, "return x")]
            2 " oops" _ _ _ _).
  - repeat constructor; cbn; unfold INT_MIN, INT_MAX; lia.
  - cbn. lia.
  - unfold int_range, INT_MIN, INT_MAX. cbn. lia.
  - unfold int_range, INT_MIN, INT_MAX. cbn. lia.
Defined.

End AddMore.

(** ** dgn_set_default_depth and dgn_depth *)

Module DepthMore.
Import CxxString CInt Dgn DepthSpec DepthFacts.

Section AnyParser.
Variable parse : string -> string + level_range.
Variable describe : level_range -> string.

Lemma set_default_frags_app (good : list string) :
  forall (ranges : depth_ranges) (tail : list string) (st : dgn_state),
    map parse good = map inr ranges ->
    set_default_frags parse (good ++ tail)%list st
    = set_default_frags parse tail
        (set_depths DefaultDepths (dgn_default_depths st ++ ranges)%list st).
Proof.
  induction good as [|g good IH]; intros ranges tail st Hmap.
  - destruct ranges; [|discriminate]. cbn [List.app].
    rewrite List.app_nil_r. now destruct st.
  - destruct ranges as [|lr ranges]; [discriminate|].
    cbn [map] in Hmap. injection Hmap as Hg Hmap.
    cbn [List.app set_default_frags]. rewrite Hg.
    rewrite (IH ranges tail _ Hmap). unfold push_back.
    cbn [set_depths get_depths dgn_default_depths map_depths].
    now rewrite <- List.app_assoc.
Qed.

(** X14.  [dgn_set_default_depth] appends to the default depths the
    ranges of the fragments of its argument, in order, up to the first
    fragment [parse] rejects; it then returns the message of [parse],
    and the ranges of the fragments before stay appended.  When every
    fragment parses it returns the empty string.  The depths of a map
    are not touched. *)
Theorem dgn_set_default_depth_prefix (s : string) (st : dgn_state)
        (good : list string) (ranges : depth_ranges) :
  map parse good = map inr ranges ->
  (Libutil.split_string "," s = good ->
   dgn_set_default_depth parse s st
   = (set_depths DefaultDepths (dgn_default_depths st ++ ranges)%list st,
      ""))
  /\ (forall bad rest err,
        Libutil.split_string "," s = (good ++ bad :: rest)%list ->
        parse bad = inl err ->
        dgn_set_default_depth parse s st
        = (set_depths DefaultDepths
             (dgn_default_depths st ++ ranges)%list st,
           err)).
Proof.
  intros Hmap. unfold dgn_set_default_depth. split.
  - intros ->. rewrite <- (List.app_nil_r good).
    now rewrite (set_default_frags_app good ranges [] st Hmap).
  - intros bad rest err -> Hbad.
    rewrite (set_default_frags_app good ranges _ st Hmap).
    cbn [set_default_frags]. now rewrite Hbad.
Qed.

(** X15.  Whatever depth arguments follow the map, [dgn_depth] leaves
    the map with no depths at all: it clears them, and what
    [dgn_add_depths] parses does not go to the map. *)
Theorem dgn_depth_clears_map (ls : lua_stack) (st : dgn_state) :
  check_map ls 1 = Returns tt -> 2 <= lua_gettop ls ->
  map_depths (fst (dgn_depth parse describe ls st)) = [].
Proof.
  intros Hmap Htop. unfold dgn_depth, dgn_depth_proc. rewrite Hmap.
  replace (lua_gettop ls <? 2) with false
    by (symmetry; apply Z.ltb_ge; lia).
  destruct (lua_isnil ls 2); [reflexivity|].
  pose proof (dgn_add_depths_map_untouched parse MapDepths ls 2
                (lua_gettop ls) (set_depths MapDepths [] st)) as H.
  destruct (dgn_add_depths _ _ _ _ _ _) as [st2 [u|msg]];
    cbn [fst] in *; exact H.
Qed.

End AnyParser.

Lemma dgn_set_default_depth_prefix_witness :
  dgn_set_default_depth parse_example "1,2,,4" no_depths
  = ({| dgn_default_depths := [depth_at 1; depth_at 2];
        map_depths := [] |},
     "Empty depth").
Proof.
  exact (proj2 (dgn_set_default_depth_prefix
                  parse_example "1,2,,4" no_depths ["1"; "2"]
                  [depth_at 1; depth_at 2] eq_refl)
               "" ["4"] "Empty depth" eq_refl eq_refl).
Defined.

Lemma dgn_depth_clears_map_witness :
  map_depths
    (fst (dgn_depth parse_example (fun _ => "")
                    [LMap; LString "1,2"; LString "3"]
                    {| dgn_default_depths := [];
                       map_depths := [depth_at 7] |}))
  = [].
Proof.
  refine (dgn_depth_clears_map parse_example (fun _ => "")
            [LMap; LString "1,2"; LString "3"]
            {| dgn_default_depths := []; map_depths := [depth_at 7] |}
            eq_refl _).
  cbn. lia.
Defined.

End DepthMore.

(** ** dgn_points_connected with an odd coordinate left over *)

Module ConnectedMore.
Import Flood Dgn ConnectedSpec ConnectedFacts.
Local Open Scope list_scope.

(** The loop reads the points back and stops in front of a single value
    left over at the end. *)
Lemma add_points_left_over (seeds : list coord_def) (v : lua_value) :
  forall (pre : lua_stack) (fuel : nat) (finder : flood_find),
    (List.length seeds <= fuel)%nat ->
    add_points fuel (Z.of_nat (List.length pre) + 1)
               (Z.of_nat (List.length (pre ++ encode seeds ++ [v])))
               (pre ++ encode seeds ++ [v]) finder
    = Returns {| needed_points := needed_points finder ++ seeds |}.
Proof.
  induction seeds as [|p seeds IH]; intros pre fuel finder Hfuel.
  - cbn [encode flat_map List.app]. rewrite List.app_nil_r.
    destruct finder as [needed]. cbn [needed_points].
    destruct fuel; cbn [add_points]; [reflexivity|].
    replace (Z.of_nat (List.length pre) + 1
             <? Z.of_nat (List.length (pre ++ [v])))
      with false
      by (symmetry; apply Z.ltb_ge; rewrite List.length_app;
          cbn [List.length]; lia).
    reflexivity.
  - destruct fuel as [|f]; [cbn in Hfuel; lia|].
    cbn [add_points].
    replace (Z.of_nat (List.length pre) + 1
             <? Z.of_nat (List.length (pre ++ encode (p :: seeds) ++ [v])))
      with true
      by (symmetry; apply Z.ltb_lt;
          rewrite !List.length_app, encode_length;
          cbn [List.length]; lia).
    unfold luaL_checkint.
    pose proof (lua_index_app pre (encode (p :: seeds) ++ [v])
                              (LNumber (x p)) 0 eq_refl) as H0.
    pose proof (lua_index_app pre (encode (p :: seeds) ++ [v])
                              (LNumber (y p)) 1 eq_refl) as H1.
    rewrite Z.add_0_r in H0. cbn [Z.of_nat Pos.of_succ_nat] in H1.
    rewrite H0, H1.
    specialize (IH (pre ++ [LNumber (x p); LNumber (y p)]) f
                   (add_point (mk_coord (x p) (y p)) finder)).
    replace ((pre ++ [LNumber (x p); LNumber (y p)]) ++ encode seeds ++ [v])
      with (pre ++ encode (p :: seeds) ++ [v]) in IH
      by (rewrite <- List.app_assoc; reflexivity).
    replace (Z.of_nat (List.length
                         (pre ++ [LNumber (x p); LNumber (y p)])) + 1)
      with (Z.of_nat (List.length pre) + 1 + 2) in IH
      by (rewrite List.length_app; cbn [List.length]; lia).
    rewrite IH by (cbn [List.length] in Hfuel; lia).
    cbn [add_point needed_points]. rewrite <- List.app_assoc.
    now destruct p.
Qed.

Section Policy.
Variable traversable : map_lines -> coord_def -> bool.
Variable dirs : list (Z * Z).

(** X16.  The points are read in pairs: a single value left over
    behind the last pair, of whatever kind, is never looked at, and the
    answer is the one for the call without it. *)
Theorem points_connected_ignores_left_over (m : map_lines)
        (sx sy : Z) (seeds : list coord_def) (v : lua_value) :
  seeds <> [] ->
  dgn_points_connected traversable dirs m
    (LMap :: LNumber sx :: LNumber sy :: encode seeds ++ [v])
  = dgn_points_connected traversable dirs m
      (LMap :: LNumber sx :: LNumber sy :: encode seeds).
Proof.
  intros Hne.
  assert (Hlen : (1 <= List.length seeds)%nat)
    by (destruct seeds; [congruence | cbn; lia]).
  unfold dgn_points_connected.
  cbn [check_map lua_index Z.ltb Z.compare nth_error Z.to_nat Z.sub
       Z.add Z.opp Z.pos_sub].
  set (pre := [LMap; LNumber sx; LNumber sy]).
  assert (Hpre : List.length pre = 3%nat) by reflexivity.
  change (LMap :: LNumber sx :: LNumber sy :: encode seeds ++ [v])
    with (pre ++ encode seeds ++ [v]).
  change (LMap :: LNumber sx :: LNumber sy :: encode seeds)
    with (pre ++ encode seeds).
  assert (Hlen1 : List.length (pre ++ encode seeds ++ [v])
                  = (2 * List.length seeds + 4)%nat)
    by (rewrite !List.length_app, encode_length, Hpre;
        cbn [List.length]; lia).
  assert (Hlen2 : List.length (pre ++ encode seeds)
                  = (2 * List.length seeds + 3)%nat)
    by (rewrite !List.length_app, encode_length, Hpre; lia).
  replace (lua_gettop (pre ++ encode seeds ++ [v]) <? 5) with false
    by (symmetry; apply Z.ltb_ge; unfold lua_gettop; lia).
  replace (lua_gettop (pre ++ encode seeds) <? 5) with false
    by (symmetry; apply Z.ltb_ge; unfold lua_gettop; lia).
  unfold lua_gettop.
  change 4 with (Z.of_nat (List.length pre) + 1).
  rewrite add_points_left_over by lia.
  rewrite add_points_encode by lia.
  reflexivity.
Qed.

End Policy.

Lemma points_connected_ignores_left_over_witness :
  dgn_points_connected glyph_traversable four_dirs open_grid
    (LMap :: LNumber 0 :: LNumber 0
     :: encode [mk_coord 2 2; mk_coord 0 2] ++ [LString "stray"])
  = Returns true.
Proof.
  rewrite (points_connected_ignores_left_over
             glyph_traversable four_dirs open_grid 0 0
             [mk_coord 2 2; mk_coord 0 2] (LString "stray"))
    by discriminate.
  reflexivity.
Defined.

End ConnectedMore.

(** ** dgn_weight, dgn_map, dgn_mons and dgn_item *)

Module BindingsFacts.
Import CxxString CInt Dgn Bindings ChunkSpec StringFacts SearchFacts
       NumberFacts.

(** Above the top of the stack there is no value. *)
Lemma lua_index_above (ls : lua_stack) (i : Z) :
  lua_gettop ls < i -> lua_index ls i = None.
Proof.
  unfold lua_gettop, lua_index. intros H.
  destruct (i <? 1); [reflexivity|].
  apply nth_error_None. lia.
Qed.

(** X17.  [dgn_weight] has no getter form: called with the map alone
    it raises an error and leaves the weight as it is, because the
    missing second argument is not nil.  With nil it returns the weight
    unchanged; with a number it stores and returns that number. *)
Theorem dgn_weight_needs_argument (ls : lua_stack) (chance : Z) :
  check_map ls 1 = Returns tt ->
  (lua_gettop ls = 1 ->
   dgn_weight ls chance = (chance, Raises "number expected"))
  /\ (lua_index ls 2 = Some LNil ->
      dgn_weight ls chance = (chance, Returns (RetNumber chance)))
  /\ (forall n, lua_index ls 2 = Some (LNumber n) ->
        dgn_weight ls chance = (n, Returns (RetNumber n))).
Proof.
  intros Hmap. unfold dgn_weight, lua_isnil, luaL_checkint. rewrite Hmap.
  repeat apply conj.
  - intros Htop. now rewrite (lua_index_above ls 2) by lia.
  - now intros ->.
  - now intros n ->.
Qed.

Lemma dgn_weight_needs_argument_witness :
  dgn_weight [LMap] 10 = (10, Raises "number expected")
  /\ dgn_weight [LMap; LNil] 10 = (10, Returns (RetNumber 10))
  /\ dgn_weight [LMap; LNumber 25] 10 = (25, Returns (RetNumber 25)).
Proof.
  repeat apply conj.
  - exact (proj1 (dgn_weight_needs_argument [LMap] 10 eq_refl) eq_refl).
  - exact (proj1 (proj2 (dgn_weight_needs_argument [LMap; LNil] 10
                           eq_refl)) eq_refl).
  - exact (proj2 (proj2 (dgn_weight_needs_argument [LMap; LNumber 25] 10
                           eq_refl)) 25 eq_refl).
Defined.

Section MapLines.
Variable clear : map_lines -> map_lines.
Variable add_line : string -> map_lines -> map_lines.

(** X18.  [dgn_map] never reaches its code for lines by index: a
    number as second argument passes the test [lua_isstring] and is
    added as a line of text, and what is neither nil, a string nor a
    number fails [luaL_checkint].  So the binding returns the table of
    lines, clears the map, adds a line, or raises; it never reads,
    erases or replaces a line. *)
Theorem dgn_map_never_indexes (ls : lua_stack) (m : map_lines) :
  dgn_map clear add_line ls m
  = match check_map ls 1 with
    | Raises msg => (m, Raises msg)
    | Returns _ =>
        if lua_gettop ls =? 1 then
          (m, Returns (RetTable (dlua_stringtable (lines m))))
        else
          match lua_index ls 2 with
          | Some LNil => (clear m, Returns RetNothing)
          | Some (LString s) => (add_line (c_str s) m, Returns RetNothing)
          | Some (LNumber n) => (add_line (format_d n) m, Returns RetNothing)
          | _ => (m, Raises "number expected")
          end
    end.
Proof.
  unfold dgn_map, lua_isnil, lua_isstring, luaL_checkstring, luaL_checkint.
  destruct (check_map ls 1); [|reflexivity].
  destruct (lua_gettop ls =? 1); [reflexivity|].
  destruct (lua_index ls 2) as [[|s|n|]|]; try reflexivity.
  now rewrite (c_str_number_text _ (format_d_number_text n)).
Qed.

End MapLines.

Section Slots.
Variable slot_list : Type.
Variable clear : slot_list -> slot_list.
Variable add_slot : string -> slot_list -> slot_list * string.

(** X19.  [dgn_mons] and [dgn_item] never set a slot by index: what
    they do does not depend on [set_mons] or [set_item], and a number as
    second argument is added as the text of a specification. *)
Theorem dgn_mons_item_never_set
        (set1 set2 : Z -> string -> slot_list -> slot_list * string)
        (ls : lua_stack) (l : slot_list) :
  dgn_mons clear add_slot set1 ls l = dgn_mons clear add_slot set2 ls l
  /\ dgn_item clear add_slot set1 ls l = dgn_item clear add_slot set2 ls l
  /\ (forall n,
        check_map ls 1 = Returns tt -> lua_gettop ls <> 1 ->
        lua_index ls 2 = Some (LNumber n) ->
        dgn_mons clear add_slot set1 ls l
        = check_err (add_slot (format_d n) l)).
Proof.
  assert (E : dgn_slot clear add_slot set1 ls l
              = dgn_slot clear add_slot set2 ls l).
  { unfold dgn_slot, lua_isnil, lua_isstring, luaL_checkstring,
      luaL_checkint.
    destruct (check_map ls 1); [|reflexivity].
    destruct (lua_gettop ls =? 1); [reflexivity|].
    destruct (lua_index ls 2) as [[|s|n|]|]; reflexivity. }
  repeat apply conj; [exact E | exact E |].
  intros n Hmap Htop Hn.
  unfold dgn_mons, dgn_slot, lua_isnil, lua_isstring, luaL_checkstring.
  rewrite Hmap, Hn. apply Z.eqb_neq in Htop. rewrite Htop.
  now rewrite (c_str_number_text _ (format_d_number_text n)).
Qed.

End Slots.

(** Slots as a list of specifications, for the example. *)
Lemma dgn_mons_item_never_set_witness :
  dgn_mons (fun _ : list string => [])
           (fun s l => ((l ++ [s])%list, ""))
           (fun _ _ l => (l, "no such slot"))
           [LMap; LNumber 3; LString "orc"] ["rat"]
  = (["rat"; "3"], Returns tt).
Proof.
  exact (proj2 (proj2 (dgn_mons_item_never_set
                         (list string) (fun _ => [])
                         (fun s l => ((l ++ [s])%list, ""))
                         (fun _ _ l => (l, "no such slot"))
                         (fun _ _ l => (l, "no such slot"))
                         [LMap; LNumber 3; LString "orc"] ["rat"]))
               3 eq_refl ltac:(discriminate) eq_refl).
Defined.

End BindingsFacts.

(** ** dgn_tags and dgn_tags_remove *)

Module TagsFacts.
Import CxxString CInt Dgn Bindings StringFacts SearchFacts.

(** Cutting [x] out of [a ++ x ++ b] where it starts. *)
Lemma cut_out (a x b : string) :
  substr 0 (String.length a) (a ++ x ++ b)
  ++ substr_from (String.length a + String.length x) (a ++ x ++ b)
  = a ++ b.
Proof.
  rewrite substr_prefix.
  rewrite <- length_app, <- (app_assoc a x b), substr_from_app.
  reflexivity.
Qed.

(** The binding called with one text to remove. *)
Lemma dgn_tags_remove_one (x tags : string) :
  dgn_tags_remove [LMap; LString x] tags
  = match find (c_str x) tags with
    | Some pos =>
        (substr 0 pos tags
         ++ substr_from (pos + String.length (c_str x)) tags,
         Returns
           (RetString
              (c_str (substr 0 pos tags
                      ++ substr_from (pos + String.length (c_str x))
                                     tags))))
    | None => (tags, Returns (RetString (c_str tags)))
    end.
Proof.
  unfold dgn_tags_remove.
  change (tags_remove_loop (List.length [LMap; LString x]) 2
                           (lua_gettop [LMap; LString x])
                           [LMap; LString x] tags)
    with (match find (c_str x) tags with
          | Some pos =>
              substr 0 pos tags
              ++ substr_from (pos + String.length (c_str x)) tags
          | None => tags
          end, @Returns unit tt).
  change (check_map [LMap; LString x] 1) with (Returns tt).
  destruct (find (c_str x) tags); reflexivity.
Qed.

(** X20.  [dgn_tags_remove] cuts the first occurrence of its argument
    out of the tags, wherever the text occurs (also inside a longer
    tag), and leaves the tags as they are when it does not occur. *)
Theorem dgn_tags_remove_first_occurrence (x tags : string) :
  (find (c_str x) tags = None ->
   dgn_tags_remove [LMap; LString x] tags
   = (tags, Returns (RetString (c_str tags))))
  /\ (forall a b,
        tags = a ++ c_str x ++ b ->
        find (c_str x) tags = Some (String.length a) ->
        dgn_tags_remove [LMap; LString x] tags
        = (a ++ b, Returns (RetString (c_str (a ++ b))))).
Proof.
  split.
  - intros Hnone. rewrite dgn_tags_remove_one. now rewrite Hnone.
  - intros a b Htags Hfind. rewrite dgn_tags_remove_one.
    rewrite Hfind, Htags, cut_out. reflexivity.
Qed.

Lemma dgn_tags_remove_first_occurrence_witness :
  dgn_tags_remove [LMap; LString "pool"] " no_pool_fixup  pool "
  = (" no__fixup  pool ", Returns (RetString " no__fixup  pool ")).
Proof.
  exact (proj2 (dgn_tags_remove_first_occurrence
                  "pool" " no_pool_fixup  pool ")
               " no_" "_fixup  pool " eq_refl eq_refl).
Defined.

(** X21.  Adding a tag and removing it again does not give the tags
    back: [dgn_tags] appends the name between two blanks, and
    [dgn_tags_remove] with the same name cuts out the name alone, so the
    two blanks stay behind. *)
Theorem tag_then_untag (T t : string) :
  c_str t = t -> Libutil.trimmed_string t = t ->
  find t (T ++ " " ++ t ++ " ") = Some (S (String.length T)) ->
  fst (dgn_tags [LMap; LString t] T) = T ++ " " ++ t ++ " "
  /\ fst (dgn_tags_remove [LMap; LString t] (T ++ " " ++ t ++ " "))
     = T ++ "  ".
Proof.
  intros Hc Htrim Hfind. split.
  - change (fst (dgn_tags [LMap; LString t] T))
      with (T ++ " " ++ Libutil.trimmed_string (c_str t) ++ " ").
    now rewrite Hc, Htrim.
  - rewrite dgn_tags_remove_one, Hc, Hfind.
    replace (T ++ " " ++ t ++ " ") with ((T ++ " ") ++ t ++ " ")
      by now rewrite app_assoc.
    replace (S (String.length T)) with (String.length (T ++ " "))
      by (rewrite length_app; cbn; lia).
    rewrite cut_out. cbn [fst]. now rewrite app_assoc.
Qed.

Lemma tag_then_untag_witness :
  fst (dgn_tags [LMap; LString "no_pool_fixup"] " entry ")
  = " entry  no_pool_fixup "
  /\ fst (dgn_tags_remove [LMap; LString "no_pool_fixup"]
                          " entry  no_pool_fixup ")
     = " entry   ".
Proof.
  exact (tag_then_untag " entry " "no_pool_fixup" eq_refl eq_refl eq_refl).
Defined.

End TagsFacts.

(** ** dgn_add_depths on a single depth argument *)

Module DepthLoop.
Import CxxString CInt Dgn DepthSpec ErrorSpec.

Section AnyParser.
Variable parse : string -> string + level_range.

Lemma set_default_same (st : dgn_state) :
  set_depths DefaultDepths (dgn_default_depths st ++ [])%list st = st.
Proof. rewrite List.app_nil_r. now destruct st. Qed.

(** The inner loop when the first fragment parses: it runs until the
    outer index reaches the number of fragments and appends the range of
    the first fragment each time. *)
Lemma add_depths_inner_copies (frags : list string) (size : Z)
      (lr : level_range) (fuel : nat) :
  parse (nth 0 frags "") = inr lr ->
  forall (i : Z) (st : dgn_state),
    (Z.to_nat (size - i) < fuel)%nat ->
    add_depths_inner parse fuel i size frags st
    = (Z.max i size,
       set_depths DefaultDepths
         (dgn_default_depths st ++ repeat lr (Z.to_nat (size - i)))%list st,
       None).
Proof.
  intros Hp. induction fuel as [|f IH]; intros i st Hfuel; [lia|].
  cbn [add_depths_inner].
  destruct (i <? size) eqn:Hlt.
  - apply Z.ltb_lt in Hlt. rewrite Hp, IH by lia.
    replace (Z.to_nat (size - i)) with (S (Z.to_nat (size - (i + 1))))
      by lia.
    cbn [repeat]. unfold push_back.
    cbn [set_depths get_depths dgn_default_depths map_depths].
    rewrite <- List.app_assoc. cbn [List.app].
    replace (Z.max (i + 1) size) with (Z.max i size) by lia.
    reflexivity.
  - apply Z.ltb_ge in Hlt.
    replace (Z.to_nat (size - i)) with O by lia. cbn [repeat].
    rewrite set_default_same.
    replace (Z.max i size) with i by lia. reflexivity.
Qed.

(** X22.  What [dgn_add_depths] does with one depth argument, at stack
    index [s], whose text up to its first NUL splits into [n] fragments:
    it parses nothing when [n <= s]; otherwise it parses the first
    fragment only, [n - s] times, and appends its range that many times
    to the default depths, or raises the message of [parse] (a message
    without [%], up to its first NUL).  The other fragments are never
    parsed, and the list it was handed is never written. *)
Theorem dgn_add_depths_single (drs : depth_ref) (ls : lua_stack) (s : Z)
        (depth : string) (st : dgn_state) :
  luaL_checkstring ls s = Returns depth ->
  let frags := Libutil.split_string "," (c_str depth) in
  let n := Z.of_nat (List.length frags) in
  (n <= s -> dgn_add_depths parse drs ls s s st = (st, Returns tt))
  /\ (forall lr,
        s < n -> parse (nth 0 frags "") = inr lr ->
        dgn_add_depths parse drs ls s s st
        = (set_depths DefaultDepths
             (dgn_default_depths st ++ repeat lr (Z.to_nat (n - s)))%list
             st,
           Returns tt))
  /\ (forall err,
        s < n -> parse (nth 0 frags "") = inl err ->
        percent_free err = true ->
        dgn_add_depths parse drs ls s s st = (st, Raises (c_str err))).
Proof.
  intros Hs frags n. unfold dgn_add_depths.
  replace (Z.to_nat (s - s + 1)) with 1%nat by lia.
  cbn [add_depths_outer]. rewrite Z.leb_refl, Hs.
  fold frags. fold n. repeat apply conj.
  - intros Hle. cbn [add_depths_inner].
    replace (s <? n) with false by (symmetry; apply Z.ltb_ge; lia).
    replace (s + 1 <=? s) with false by (symmetry; apply Z.leb_gt; lia).
    reflexivity.
  - intros lr Hlt Hp.
    rewrite (add_depths_inner_copies frags n lr _ Hp) by lia.
    replace (Z.max s n + 1 <=? s) with false
      by (symmetry; apply Z.leb_gt; lia).
    reflexivity.
  - intros err Hlt Hp _. cbn [add_depths_inner].
    replace (s <? n) with true by (symmetry; apply Z.ltb_lt; lia).
    now rewrite Hp.
Qed.

End AnyParser.

Lemma dgn_add_depths_single_witness :
  dgn_add_depths parse_example DefaultDepths [LString "5,6,7"] 1 1
                 no_depths
  = ({| dgn_default_depths := [depth_at 5; depth_at 5];
        map_depths := [] |},
     Returns tt)
  /\ dgn_add_depths parse_example MapDepths [LMap; LString ",7"] 2 2
                    no_depths
     = (no_depths, Returns tt)
  /\ dgn_add_depths parse_example DefaultDepths
                    [LString ("5" ++ String nul ",6,7")] 1 1 no_depths
     = (no_depths, Returns tt).
Proof.
  repeat apply conj.
  - exact (proj1 (proj2 (dgn_add_depths_single
                           parse_example DefaultDepths [LString "5,6,7"]
                           1 "5,6,7" no_depths eq_refl))
                 (depth_at 5) ltac:(cbn; lia) eq_refl).
  - exact (proj1 (dgn_add_depths_single
                    parse_example MapDepths [LMap; LString ",7"]
                    2 ",7" no_depths eq_refl)
                 ltac:(cbn; lia)).
  - exact (proj1 (dgn_add_depths_single
                    parse_example DefaultDepths
                    [LString ("5" ++ String nul ",6,7")]
                    1 ("5" ++ String nul ",6,7") no_depths eq_refl)
                 ltac:(cbn; lia)).
Defined.

End DepthLoop.

(** ** dlua_stringtable *)

Module TableFacts.
Import CxxString CInt Dgn Bindings.

(** What the table holds once the loop, entered at [i] with the keys 1
    to [i] set, has run. *)
Lemma gentable_loop_get (strings : list string) (push : string -> string)
      (size : Z) (fuel : nat) :
  forall (i : Z) (t : lua_table),
    0 <= i <= size -> (Z.to_nat (size - i) <= fuel)%nat ->
    (forall k, lua_rawgeti k t
               = if (1 <=? k) && (k <=? i)
                 then Some (push (nth (Z.to_nat (k - 1)) strings ""))
                 else None) ->
    forall k,
      lua_rawgeti k (gentable_loop fuel i size strings push t)
      = if (1 <=? k) && (k <=? size)
        then Some (push (nth (Z.to_nat (k - 1)) strings ""))
        else None.
Proof.
  induction fuel as [|f IH]; intros i t Hi Hfuel Ht k.
  - cbn [gentable_loop]. replace size with i by lia. apply Ht.
  - cbn [gentable_loop]. destruct (i <? size) eqn:Hlt.
    + apply Z.ltb_lt in Hlt. apply IH; [lia | lia |].
      intros k'. cbn [lua_rawgeti lua_rawseti].
      destruct (k' =? i + 1) eqn:Hk.
      * apply Z.eqb_eq in Hk. subst k'.
        replace (1 <=? i + 1) with true by (symmetry; apply Z.leb_le; lia).
        rewrite Z.leb_refl. cbn [andb].
        now replace (i + 1 - 1) with i by lia.
      * apply Z.eqb_neq in Hk. rewrite Ht.
        replace (k' <=? i + 1) with (k' <=? i); [reflexivity|].
        destruct (k' <=? i) eqn:E; symmetry;
          [apply Z.leb_le; apply Z.leb_le in E
          |apply Z.leb_gt; apply Z.leb_gt in E]; lia.
    + apply Z.ltb_ge in Hlt. replace size with i by lia. apply Ht.
Qed.

(** X23.  The table [dlua_stringtable] builds holds the strings of the
    vector in order under the keys 1 to its size, each cut at its first
    NUL, and nothing under any other key. *)
Theorem dlua_stringtable_keys (strings : list string) (k : Z) :
  lua_rawgeti k (dlua_stringtable strings)
  = if (1 <=? k) && (k <=? Z.of_nat (List.length strings))
    then Some (c_str (nth (Z.to_nat (k - 1)) strings ""))
    else None.
Proof.
  unfold dlua_stringtable, dlua_gentable, dlua_pushcxxstring.
  apply gentable_loop_get; [lia | lia |].
  intros k'. cbn [lua_rawgeti].
  destruct (1 <=? k') eqn:E1; [|reflexivity].
  destruct (k' <=? 0) eqn:E2; [|reflexivity].
  apply Z.leb_le in E1, E2. lia.
Qed.

End TableFacts.
